(** * Deterministic selection (kesimo.c) and Strassen's product

    A shallow embedding of [insertionSort], [particionar], [kesimoMinimo]
    and [strassen], and the properties of the specification checked
    against it.

    Modelling choices.
    - An [int] array is a [list Z]; a C index is a [Z].  Reading or writing
      a cell outside the list is undefined behaviour in C and is the
      result [Fault] here.
    - Index expressions ([r - l + 1], [i * 5], ...) are computed in [Z].
      For a window within an array of fewer than [2^31 - 4] cells none of
      them leaves the range of [int]; a property about other [l] and [r]
      states that [r - l + 1] does not overflow.  [/] and [%] are C's
      truncating [Z.quot] and [Z.rem].
    - Array elements are only compared by the selection code, never added
      or multiplied, so they are plain [Z] values there.  The matrix code
      does arithmetic on them, which is written out as 32-bit
      two's-complement wrap-around.
    - Recursion that is not structural takes a recursion budget and gives
      [Exhausted] when it runs out; loops with a known trip count are
      structural on that count. *)

From Stdlib Require Import ZArith Lia.
From stdpp Require Import base list sorting.

Local Open Scope Z_scope.

(** [lia] also decides goals with division and remainder by a constant. *)
Ltac Zify.zify_post_hook ::= Z.to_euclidean_division_equations.

(** * The programs *)

(** ** Results of running C code *)

Inductive res (A : Type) : Type :=
| Ok (x : A)
| Fault
| Exhausted.
Arguments Ok {A} x.
Arguments Fault {A}.
Arguments Exhausted {A}.

Global Instance res_ret : MRet res := fun A x => Ok x.
Global Instance res_bind : MBind res := fun A B f m =>
  match m with
  | Ok x => f x
  | Fault => Fault
  | Exhausted => Exhausted
  end.

Global Instance res_fmap : FMap res := fun A B f m =>
  match m with
  | Ok x => Ok (f x)
  | Fault => Fault
  | Exhausted => Exhausted
  end.

Definition INT_MAX : Z := 2147483647.

Definition INT_MIN : Z := -2147483648.

(** The [int] an arithmetic result is stored as: 32-bit two's complement. *)
Definition wrap (z : Z) : Z := (z + 2147483648) mod 4294967296 - 2147483648.

(** ** Arrays and loops *)

Module Arr.

(** [arr[i]] *)
Definition get (arr : list Z) (i : Z) : res Z :=
  if 0 <=? i then
    match arr !! Z.to_nat i with
    | Some v => Ok v
    | None => Fault
    end
  else Fault.

(** [arr[i] = v] *)
Definition set (arr : list Z) (i : Z) (v : Z) : res (list Z) :=
  if (0 <=? i) && (i <? Z.of_nat (length arr)) then Ok (<[Z.to_nat i := v]> arr)
  else Fault.

(** The value of [arr[i]], for [i] within the array. *)
Definition sel (arr : list Z) (i : Z) : Z :=
  match get arr i with
  | Ok v => v
  | _ => 0
  end.

End Arr.

(** [for (i = lo; i < hi; i++) body]: the body reads [i] and the state and
    neither changes [i] nor the bound, so the loop runs
    [max 0 (hi - lo)] times. *)
Fixpoint for_loop {St : Type} (cnt : nat) (i : Z) (body : Z → St → res St) (s : St) : res St :=
  match cnt with
  | O => Ok s
  | S cnt' => s' ← body i s; for_loop cnt' (i + 1) body s'
  end.

Definition for_range {St : Type} (lo hi : Z) (body : Z → St → res St) (s : St) : res St :=
  for_loop (Z.to_nat (hi - lo)) lo body s.

(** ** kesimo.c: basic utilities *)

(** [trocar(&arr[i], &arr[j])] *)
Definition trocar (arr : list Z) (i j : Z) : res (list Z) :=
  temp ← Arr.get arr i;
  b ← Arr.get arr j;
  arr ← Arr.set arr i b;
  Arr.set arr j temp.

(** The [while] loop of [insertionSort]:
    [while (j >= 0 && arr[j] > chave) { arr[j + 1] = arr[j]; j--; }],
    on the array [arr + off].  [j] decreases at each turn and the loop
    stops below 0, so [j + 1] turns are enough when [j >= -1]. *)
Fixpoint insertionSort_while (turns : nat) (arr : list Z) (off j chave : Z)
  : res (list Z * Z) :=
  if j >=? 0 then
    aj ← Arr.get arr (off + j);
    if aj >? chave then
      match turns with
      | O => Exhausted
      | S turns' =>
          arr ← Arr.set arr (off + (j + 1)) aj;
          insertionSort_while turns' arr off (j - 1) chave
      end
    else Ok (arr, j)
  else Ok (arr, j).

(** [insertionSort(arr + off, n)] *)
Definition insertionSort (arr : list Z) (off n : Z) : res (list Z) :=
  for_range 1 n (fun i arr =>
    chave ← Arr.get arr (off + i);
    let j := i - 1 in
    '(arr, j) ← insertionSort_while (Z.to_nat (j + 1)) arr off j chave;
    Arr.set arr (off + (j + 1)) chave) arr.

(** The search loop of [particionar]:
    [for (i = l; i <= r; i++) if (arr[i] == pivo) break;] *)
Fixpoint particionar_find (cnt : nat) (arr : list Z) (i pivo : Z) : res Z :=
  match cnt with
  | O => Ok i
  | S cnt' =>
      ai ← Arr.get arr i;
      if ai =? pivo then Ok i
      else particionar_find cnt' arr (i + 1) pivo
  end.

(** [particionar(arr, l, r, pivo)]: the final position of the pivot and
    the array. *)
Definition particionar (arr : list Z) (l r pivo : Z) : res (Z * list Z) :=
  i ← particionar_find (Z.to_nat (r + 1 - l)) arr l pivo;
  arr ← trocar arr i r;
  let i := l in
  '(arr, i) ← for_range l (r - 1 + 1) (fun j '(arr, i) =>
      aj ← Arr.get arr j;
      if aj <=? pivo then
        arr ← trocar arr i j;
        Ok (arr, i + 1)
      else Ok (arr, i)) (arr, i);
  arr ← trocar arr i r;
  Ok (i, arr).

(** ** kesimo.c: deterministic selection *)

(** The outcome of a call of [kesimoMinimo]: the [int] it returns and the
    array as the call leaves it. *)
Definition outcome : Type := res (Z * list Z).

Section kesimoMinimo_body.

(** The recursive calls of the body. *)
Variable rec : list Z → Z → Z → Z → outcome.

(** Step 1 of [kesimoMinimo]: the groups of 5 and their medians.  The
    array [medians] has [(n + 4) / 5] cells, of unspecified contents until
    they are written; the result is [arr], [medians] and the final [i]. *)
Definition kesimoMinimo_medians (arr : list Z) (l n : Z) : res (list Z * list Z * Z) :=
  let medians := replicate (Z.to_nat ((n + 4) ÷ 5)) 0 in
  '(arr, medians) ← for_range 0 (n ÷ 5) (fun i '(arr, medians) =>
      arr ← insertionSort arr (l + i * 5) 5;
      m ← Arr.get arr (l + i * 5 + 2);
      medians ← Arr.set medians i m;
      Ok (arr, medians)) (arr, medians);
  let i := Z.max 0 (n ÷ 5) in
  if i * 5 <? n then
    let resto := Z.rem n 5 in
    arr ← insertionSort arr (l + i * 5) resto;
    m ← Arr.get arr (l + i * 5 + resto ÷ 2);
    medians ← Arr.set medians i m;
    Ok (arr, medians, i + 1)
  else Ok (arr, medians, i).

(** Step 2: the median of the medians. *)
Definition kesimoMinimo_medOfMed (medians : list Z) (i : Z) : res Z :=
  if i =? 1 then Arr.get medians 0
  else '(m, _) ← rec medians 0 (i - 1) ((i + 1) ÷ 2); Ok m.

(** Step 4: the side to continue on, from the position of the pivot. *)
Definition kesimoMinimo_lado (arr : list Z) (l r k pos : Z) : outcome :=
  if pos - l =? k - 1 then
    v ← Arr.get arr pos; Ok (v, arr)
  else if pos - l >? k - 1 then
    rec arr l (pos - 1) k
  else
    rec arr (pos + 1) r (k - (pos - l) - 1).

Definition kesimoMinimo_body (arr : list Z) (l r k : Z) : outcome :=
  if (k >? 0) && (k <=? r - l + 1) then
    let n := r - l + 1 in
    '(arr, medians, i) ← kesimoMinimo_medians arr l n;
    medOfMed ← kesimoMinimo_medOfMed medians i;
    '(pos, arr) ← particionar arr l r medOfMed;
    kesimoMinimo_lado arr l r k pos
  else Ok (INT_MAX, arr).

End kesimoMinimo_body.

(** [kesimoMinimo(arr, l, r, k)], with a budget of nested calls. *)
Fixpoint kesimoMinimo (budget : nat) (arr : list Z) (l r k : Z) : outcome :=
  match budget with
  | O => Exhausted
  | S budget' => kesimoMinimo_body (kesimoMinimo budget') arr l r k
  end.

(** The exposed operation: [kesimoMinimo] on the whole of a sequence.  A
    call on [n] elements nests at most [n] deep. *)
Definition select_kth (seq : list Z) (k : Z) : outcome :=
  kesimoMinimo (S (length seq)) seq 0 (Z.of_nat (length seq) - 1) k.

(** ** The matrix program: matrices *)

(** An [int**]: the rows of a matrix. *)
Abbreviation matrix := (list (list Z)).

Module Mat.

(** [M[i][j]] *)
Definition get (M : matrix) (i j : Z) : res Z :=
  if 0 <=? i then
    match M !! Z.to_nat i with
    | Some row => Arr.get row j
    | None => Fault
    end
  else Fault.

(** [M[i][j] = v] *)
Definition set (M : matrix) (i j : Z) (v : Z) : res matrix :=
  if 0 <=? i then
    match M !! Z.to_nat i with
    | Some row => row ← Arr.set row j v; Ok (<[Z.to_nat i := row]> M)
    | None => Fault
    end
  else Fault.

(** The value of [M[i][j]], for [i] and [j] within the matrix. *)
Definition cell (M : matrix) (i j : Z) : Z :=
  match get M i j with
  | Ok v => v
  | _ => 0
  end.

End Mat.

(** [alocarMatriz(n)]: [n] rows of [n] zeros.  The matching
    [liberarMatriz] releases the memory and has no effect on values. *)
Definition alocarMatriz (n : Z) : matrix :=
  replicate (Z.to_nat n) (replicate (Z.to_nat n) 0).

(** An operand of an element-wise operation: a matrix of its own, or the
    very matrix the operation writes to, as in
    [subtrairMatrizes(novo_n, C11, P2, C11)]. *)
Inductive operand : Type :=
| Other (M : matrix)
| Dest.

Definition operand_get (o : operand) (C : matrix) (i j : Z) : res Z :=
  match o with
  | Other M => Mat.get M i j
  | Dest => Mat.get C i j
  end.

(** [somarMatrizes(n, A, B, C)]: what the call leaves in [C]. *)
Definition somarMatrizes (n : Z) (A B : operand) (C : matrix) : res matrix :=
  for_range 0 n (fun i C =>
    for_range 0 n (fun j C =>
      a ← operand_get A C i j;
      b ← operand_get B C i j;
      Mat.set C i j (wrap (a + b))) C) C.

(** [subtrairMatrizes(n, A, B, C)] *)
Definition subtrairMatrizes (n : Z) (A B : operand) (C : matrix) : res matrix :=
  for_range 0 n (fun i C =>
    for_range 0 n (fun j C =>
      a ← operand_get A C i j;
      b ← operand_get B C i j;
      Mat.set C i j (wrap (a - b))) C) C.

(** ** The matrix program: [strassen] *)

(** The quadrants of [A] and of [B]. *)
Definition quadrants : Type :=
  matrix * matrix * matrix * matrix * matrix * matrix * matrix * matrix.

Section strassen_body.

(** The recursive calls of the body. *)
Variable rec : Z → matrix → matrix → matrix → res matrix.

(** The loop that copies the quadrants of [A] and [B]. *)
Definition strassen_split (novo_n : Z) (A B : matrix) (q : quadrants) : res quadrants :=
  for_range 0 novo_n (fun i q =>
    for_range 0 novo_n (fun j '(A11, A12, A21, A22, B11, B12, B21, B22) =>
      v ← Mat.get A i j; A11 ← Mat.set A11 i j v;
      v ← Mat.get A i (j + novo_n); A12 ← Mat.set A12 i j v;
      v ← Mat.get A (i + novo_n) j; A21 ← Mat.set A21 i j v;
      v ← Mat.get A (i + novo_n) (j + novo_n); A22 ← Mat.set A22 i j v;
      v ← Mat.get B i j; B11 ← Mat.set B11 i j v;
      v ← Mat.get B i (j + novo_n); B12 ← Mat.set B12 i j v;
      v ← Mat.get B (i + novo_n) j; B21 ← Mat.set B21 i j v;
      v ← Mat.get B (i + novo_n) (j + novo_n); B22 ← Mat.set B22 i j v;
      Ok (A11, A12, A21, A22, B11, B12, B21, B22)) q) q.

(** The loop that copies [C11], [C12], [C21] and [C22] into [C]. *)
Definition strassen_join (novo_n : Z) (C11 C12 C21 C22 C : matrix) : res matrix :=
  for_range 0 novo_n (fun i C =>
    for_range 0 novo_n (fun j C =>
      v ← Mat.get C11 i j; C ← Mat.set C i j v;
      v ← Mat.get C12 i j; C ← Mat.set C i (j + novo_n) v;
      v ← Mat.get C21 i j; C ← Mat.set C (i + novo_n) j v;
      v ← Mat.get C22 i j; Mat.set C (i + novo_n) (j + novo_n) v) C) C.

(** The body of [strassen(n, A, B, C)]: what the call leaves in [C]. *)
Definition strassen_body (n : Z) (A B C : matrix) : res matrix :=
  if n =? 1 then
    a ← Mat.get A 0 0;
    b ← Mat.get B 0 0;
    Mat.set C 0 0 (wrap (a * b))
  else
    let novo_n := n ÷ 2 in
    let A11 := alocarMatriz novo_n in let A12 := alocarMatriz novo_n in
    let A21 := alocarMatriz novo_n in let A22 := alocarMatriz novo_n in
    let B11 := alocarMatriz novo_n in let B12 := alocarMatriz novo_n in
    let B21 := alocarMatriz novo_n in let B22 := alocarMatriz novo_n in
    '(A11, A12, A21, A22, B11, B12, B21, B22) ←
      strassen_split novo_n A B (A11, A12, A21, A22, B11, B12, B21, B22);
    S1 ← subtrairMatrizes novo_n (Other B12) (Other B22) (alocarMatriz novo_n);
    P1 ← rec novo_n A11 S1 (alocarMatriz novo_n);
    S2 ← somarMatrizes novo_n (Other A11) (Other A12) (alocarMatriz novo_n);
    P2 ← rec novo_n S2 B22 (alocarMatriz novo_n);
    S3 ← somarMatrizes novo_n (Other A21) (Other A22) (alocarMatriz novo_n);
    P3 ← rec novo_n S3 B11 (alocarMatriz novo_n);
    S4 ← subtrairMatrizes novo_n (Other B21) (Other B11) (alocarMatriz novo_n);
    P4 ← rec novo_n A22 S4 (alocarMatriz novo_n);
    S5 ← somarMatrizes novo_n (Other A11) (Other A22) (alocarMatriz novo_n);
    S6 ← somarMatrizes novo_n (Other B11) (Other B22) (alocarMatriz novo_n);
    P5 ← rec novo_n S5 S6 (alocarMatriz novo_n);
    S7 ← subtrairMatrizes novo_n (Other A12) (Other A22) (alocarMatriz novo_n);
    S8 ← somarMatrizes novo_n (Other B21) (Other B22) (alocarMatriz novo_n);
    P6 ← rec novo_n S7 S8 (alocarMatriz novo_n);
    S9 ← subtrairMatrizes novo_n (Other A11) (Other A21) (alocarMatriz novo_n);
    S10 ← somarMatrizes novo_n (Other B11) (Other B12) (alocarMatriz novo_n);
    P7 ← rec novo_n S9 S10 (alocarMatriz novo_n);
    let C11 := alocarMatriz novo_n in let C12 := alocarMatriz novo_n in
    let C21 := alocarMatriz novo_n in let C22 := alocarMatriz novo_n in
    C11 ← somarMatrizes novo_n (Other P5) (Other P4) C11;
    C11 ← subtrairMatrizes novo_n Dest (Other P2) C11;
    C11 ← somarMatrizes novo_n Dest (Other P6) C11;
    C12 ← somarMatrizes novo_n (Other P1) (Other P2) C12;
    C21 ← somarMatrizes novo_n (Other P3) (Other P4) C21;
    C22 ← somarMatrizes novo_n (Other P5) (Other P1) C22;
    C22 ← subtrairMatrizes novo_n Dest (Other P3) C22;
    C22 ← subtrairMatrizes novo_n Dest (Other P7) C22;
    strassen_join novo_n C11 C12 C21 C22 C.

End strassen_body.

(** [strassen(n, A, B, C)], with a budget of nested calls. *)
Fixpoint strassen (budget : nat) (n : Z) (A B C : matrix) : res matrix :=
  match budget with
  | O => Exhausted
  | S budget' => strassen_body (strassen budget') n A B C
  end.

(** * The notions the properties are stated with *)

(** ** Cells, windows and reorderings *)

Abbreviation len arr := (Z.of_nat (length arr)).

(** [arr] with cell [i] set to [v]. *)
Definition upd (arr : list Z) (i v : Z) : list Z := <[Z.to_nat i := v]> arr.

Definition swap (arr : list Z) (i j : Z) : list Z :=
  upd (upd arr i (Arr.sel arr j)) j (Arr.sel arr i).

(** [arr'] is [arr] with the cells of [l..r] reordered: a permutation that
    leaves every cell outside the window as it was. *)
Definition reordered (l r : Z) (arr arr' : list Z) : Prop :=
  arr' ≡ₚ arr ∧ ∀ t, t < l ∨ r < t → Arr.sel arr' t = Arr.sel arr t.

(** The cells [lo..hi] of [arr] are in ascending order. *)
Definition sorted_on (arr : list Z) (lo hi : Z) : Prop :=
  ∀ s t, lo ≤ s → s ≤ t → t ≤ hi → Arr.sel arr s ≤ Arr.sel arr t.

(** The window [l..r] of [arr] contains the value [v]. *)
Definition occurs (arr : list Z) (l r v : Z) : Prop :=
  ∃ t, l ≤ t ≤ r ∧ Arr.sel arr t = v.

(** The cells [arr[l..r]] as a sequence. *)
Definition window (arr : list Z) (l r : Z) : list Z :=
  take (Z.to_nat (r + 1 - l)) (drop (Z.to_nat l) arr).

(** ** The reference: a full sort *)

(** The value at 1-based rank [k] of [w] sorted ascending. *)
Definition kth_smallest (w : list Z) (k : Z) : Z :=
  Arr.sel (merge_sort Z.le w) (k - 1).

(** ** The medians, as the specification words them *)

(** The consecutive groups of up to 5 elements of [w], [g] of them. *)
Fixpoint groups_of_5 (g : nat) (w : list Z) : list (list Z) :=
  match g with
  | O => []
  | S g' => take 5 w :: groups_of_5 g' (drop 5 w)
  end.

(** The value collected from a group: the group is sorted, and a full group
    gives its element at offset 2, a group of size [s < 5] its element at
    offset [s / 2]. *)
Definition group_median (grp : list Z) : Z :=
  let s := len grp in
  Arr.sel (merge_sort Z.le grp) (if s =? 5 then 2 else s / 2).

(** The medians buffer of a window of [n] elements: one value per group,
    [ceil (n / 5)] values. *)
Definition medians_buffer (w : list Z) : list Z :=
  group_median <$> groups_of_5 (Z.to_nat ((len w + 4) / 5)) w.

(** The medians step and the pivot of the specification. *)
Definition pivot_of (select : list Z → Z → Z → Z → outcome) (w : list Z) : res Z :=
  let medians := medians_buffer w in
  let g := len medians in
  if g =? 1 then Ok (Arr.sel medians 0)
  else fst <$> select medians 0 (g - 1) ((g + 1) / 2).

(** ** The recursive calls *)

(** The windows [kesimoMinimo] calls itself on, from a window [l..r] of
    [n] elements: the [(n + 4) / 5] medians when there are several, or
    one side of a pivot position in [l..r]. *)
Definition subproblem (l r l' r' : Z) : Prop :=
  let g := (r - l + 1 + 4) / 5 in
  (l' = 0 ∧ r' = g - 1 ∧ 1 < g) ∨
  (∃ pos, l ≤ pos ≤ r ∧ l' = l ∧ r' = pos - 1) ∨
  (∃ pos, l ≤ pos ≤ r ∧ l' = pos + 1 ∧ r' = r).

(** ** [int] arithmetic, sums and the standard product *)

(** Two values that are stored as the same [int]. *)
Definition eqm32 (x y : Z) : Prop := wrap x = wrap y.

(** [f 0 + f 1 + ... + f (k - 1)] *)
Fixpoint sum_to (k : nat) (f : Z → Z) : Z :=
  match k with
  | O => 0
  | S k' => sum_to k' f + f (Z.of_nat k')
  end.

(** The entry [(i, j)] of the standard product of two [n]-by-[n] matrices:
    the sum over [t] of [A[i][t] * B[t][j]]. *)
Definition naive_product (n : Z) (A B : matrix) (i j : Z) : Z :=
  sum_to (Z.to_nat n) (fun t => Mat.cell A i t * Mat.cell B t j).

(** ** Matrices under a row-by-row loop *)

(** [M] has [n] rows of [n] cells. *)
Definition shape (n : Z) (M : matrix) : Prop :=
  length M = Z.to_nat n ∧ Forall (fun row => length row = Z.to_nat n) M.

(** The cells of the [i]-th rows before, and of row [i] before column [j]:
    what a row-by-row loop has gone through when it reaches [(i, j)]. *)
Definition before (i j i' j' : Z) : Prop := i' < i ∨ (i' = i ∧ j' < j).

Global Instance before_dec i j i' j' : Decision (before i j i' j').
Proof. unfold before. apply _. Defined.

(** A row-by-row loop that stores [f i j] in cell [(i, j)] of a matrix which
    was [M0], when it reaches [(i, j)]. *)
Definition filled (h : Z) (f : Z → Z → Z) (M0 : matrix) (i j : Z) (M : matrix) : Prop :=
  shape h M ∧
  ∀ i' j', 0 ≤ i' < h → 0 ≤ j' < h →
    Mat.cell M i' j' = if decide (before i j i' j') then f i' j' else Mat.cell M0 i' j'.

Definition operand_shape (h : Z) (o : operand) : Prop :=
  match o with
  | Other M => shape h M
  | Dest => True
  end.

(** The cell of an operand, [C] being what the destination was. *)
Definition operand_cell (o : operand) (C : matrix) (i j : Z) : Z :=
  match o with
  | Other M => Mat.cell M i j
  | Dest => Mat.cell C i j
  end.

(** ** Counting *)

(** The number of values of [w] that satisfy [P]. *)
Definition count (P : Z → Prop) `{!∀ x, Decision (P x)} (w : list Z) : Z :=
  len (filter P w).

(** The number of values of [w] that are [<= v], [< v] and [>= v]. *)
Definition count_le (v : Z) (w : list Z) : Z := count (λ x, x ≤ v) w.

Definition count_lt (v : Z) (w : list Z) : Z := count (λ x, x < v) w.

Definition count_ge (v : Z) (w : list Z) : Z := count (λ x, v ≤ x) w.

(** * Properties of the programs *)

(** ** The programs on sample inputs *)

Example particionar_demo :
  particionar [3; 9; 1; 5; 4] 0 4 4 = Ok (2, [3; 1; 4; 5; 9]).
Proof. reflexivity. Qed.

Example insertionSort_demo :
  insertionSort [7; 3; 9; 1; 5; 4] 1 4 = Ok [7; 1; 3; 5; 9; 4].
Proof. reflexivity. Qed.

(** Outside its contract, with a pivot that does not occur in the window,
    [particionar] brings the cell after the window into it. *)
Example particionar_absent_pivot :
  particionar [1; 2; 3] 0 1 9 = Ok (1, [1; 3; 2]).
Proof. reflexivity. Qed.

Example main_demo :
  fst <$> select_kth [25; 21; 98; 100; 76; 22; 43; 60; 89; 42] 5 = Ok 43.
Proof. reflexivity. Qed.

(** The scenarios of the specification. *)
Example scenario_single :
  select_kth [5] 1 = Ok (5, [5]) ∧ select_kth [5] 2 = Ok (INT_MAX, [5]).
Proof. split; reflexivity. Qed.

Example scenario_duplicates :
  fst <$> select_kth [9; 7; 7; 7; 2] 3 = Ok 7 ∧
  fst <$> select_kth [4; 4; 4; 1; 4] 3 = Ok 4.
Proof. split; reflexivity. Qed.

Example scenario_empty : select_kth [] 1 = Ok (INT_MAX, []).
Proof. reflexivity. Qed.

Example medians_buffer_demo :
  medians_buffer [25; 21; 98; 100; 76; 22; 43; 60; 89; 42; 7] = [76; 43; 7].
Proof. reflexivity. Qed.

Example strassen_demo :
  strassen 2 2 [[1; 2]; [3; 4]] [[5; 6]; [7; 8]] (alocarMatriz 2) = Ok [[19; 22]; [43; 50]].
Proof. reflexivity. Qed.

(** ** The result monad and the loops *)

Lemma bind_Ok {A B} (f : A → res B) (x : A) : (Ok x ≫= f) = f x.
Proof. reflexivity. Qed.

Lemma bind_Ok_inv {A B} (f : A → res B) (m : res A) (y : B) :
  m ≫= f = Ok y → ∃ x, m = Ok x ∧ f x = Ok y.
Proof. destruct m; intros H; try discriminate. eauto. Qed.

(** Case analysis on the comparisons of C. *)
Ltac zbool :=
  repeat match goal with
  | |- context [?a >? ?b] => rewrite (Z.gtb_ltb a b)
  | |- context [?a >=? ?b] => rewrite (Z.geb_leb a b)
  | H : context [?a >? ?b] |- _ => rewrite (Z.gtb_ltb a b) in H
  | H : context [?a >=? ?b] |- _ => rewrite (Z.geb_leb a b) in H
  end;
  repeat match goal with
  | |- context [?a <=? ?b] => destruct (Z.leb_spec a b)
  | |- context [?a <? ?b] => destruct (Z.ltb_spec a b)
  | |- context [?a =? ?b] => destruct (Z.eqb_spec a b)
  | H : context [?a <=? ?b] |- _ => destruct (Z.leb_spec a b)
  | H : context [?a <? ?b] |- _ => destruct (Z.ltb_spec a b)
  | H : context [?a =? ?b] |- _ => destruct (Z.eqb_spec a b)
  end.

Lemma for_loop_inv {St} (P : Z → St → Prop) (body : Z → St → res St) cnt lo s :
  P lo s →
  (∀ i s, lo ≤ i < lo + Z.of_nat cnt → P i s → ∃ s', body i s = Ok s' ∧ P (i + 1) s') →
  ∃ s', for_loop cnt lo body s = Ok s' ∧ P (lo + Z.of_nat cnt) s'.
Proof.
  revert lo s. induction cnt as [|cnt IH]; intros lo s HP Hbody; simpl.
  - exists s. split; [done|]. by replace (lo + Z.of_nat 0) with lo by lia.
  - destruct (Hbody lo s) as (s1 & -> & HP1); [lia|done|].
    rewrite bind_Ok.
    destruct (IH (lo + 1) s1 HP1) as (s' & -> & HP').
    { intros i s2 Hi. apply Hbody. lia. }
    exists s'. split; [done|].
    by replace (lo + Z.of_nat (S cnt)) with (lo + 1 + Z.of_nat cnt) by lia.
Qed.

Lemma for_range_inv {St} (P : Z → St → Prop) (body : Z → St → res St) lo hi s :
  lo ≤ hi →
  P lo s →
  (∀ i s, lo ≤ i < hi → P i s → ∃ s', body i s = Ok s' ∧ P (i + 1) s') →
  ∃ s', for_range lo hi body s = Ok s' ∧ P hi s'.
Proof.
  intros Hle HP Hbody. unfold for_range.
  destruct (for_loop_inv P body (Z.to_nat (hi - lo)) lo s HP) as (s' & Hs' & HP').
  { intros i s1 Hi. apply Hbody. lia. }
  exists s'. split; [done|]. by replace hi with (lo + Z.of_nat (Z.to_nat (hi - lo))) by lia.
Qed.

Lemma for_range_empty {St} (body : Z → St → res St) lo hi s :
  hi ≤ lo → for_range lo hi body s = Ok s.
Proof. intros. unfold for_range. by replace (Z.to_nat (hi - lo)) with O by lia. Qed.

(** ** Reading and writing cells *)

Lemma get_sel arr i : 0 ≤ i < len arr → Arr.get arr i = Ok (Arr.sel arr i).
Proof.
  intros Hi. unfold Arr.sel, Arr.get. zbool; [|lia].
  destruct (lookup_lt_is_Some_2 arr (Z.to_nat i)) as [v ->]; [lia|done].
Qed.

Lemma set_upd arr i v : 0 ≤ i < len arr → Arr.set arr i v = Ok (upd arr i v).
Proof. intros Hi. unfold Arr.set. zbool; try lia. done. Qed.

Lemma length_upd arr i v : length (upd arr i v) = length arr.
Proof. apply length_insert. Qed.

Lemma sel_lookup arr i : 0 ≤ i → Arr.sel arr i = default 0 (arr !! Z.to_nat i).
Proof. intros. unfold Arr.sel, Arr.get. zbool; [|lia]. by destruct (arr !! _). Qed.

Lemma sel_neg arr i : i < 0 → Arr.sel arr i = 0.
Proof. intros. unfold Arr.sel, Arr.get. zbool; [lia|done]. Qed.

Lemma sel_upd arr i v t :
  0 ≤ i < len arr → Arr.sel (upd arr i v) t = if decide (t = i) then v else Arr.sel arr t.
Proof.
  intros Hi. destruct (decide (t = i)) as [->|Hne].
  - rewrite sel_lookup by lia. unfold upd. rewrite list_lookup_insert_eq by lia. done.
  - destruct (Z.lt_ge_cases t 0); [by rewrite !sel_neg|].
    rewrite !sel_lookup by lia. unfold upd. rewrite list_lookup_insert_ne by lia. done.
Qed.

Lemma lookup_sel arr i : 0 ≤ i < len arr → arr !! Z.to_nat i = Some (Arr.sel arr i).
Proof.
  intros Hi. rewrite sel_lookup by lia.
  destruct (lookup_lt_is_Some_2 arr (Z.to_nat i)) as [v ->]; [lia|done].
Qed.

Lemma upd_id arr i : 0 ≤ i < len arr → upd arr i (Arr.sel arr i) = arr.
Proof. intros. apply list_insert_id. by apply lookup_sel. Qed.

(** Two arrays of the same length with the same cells are equal. *)
Lemma sel_ext arr arr' :
  length arr = length arr' →
  (∀ t, 0 ≤ t < len arr → Arr.sel arr t = Arr.sel arr' t) →
  arr = arr'.
Proof.
  intros Hlen H. apply list_eq. intros n.
  destruct (decide (n < length arr)%nat) as [Hn|Hn].
  - specialize (H (Z.of_nat n)). rewrite !sel_lookup in H by lia.
    rewrite Nat2Z.id in H.
    destruct (lookup_lt_is_Some_2 arr n) as [v Hv]; [lia|].
    destruct (lookup_lt_is_Some_2 arr' n) as [v' Hv']; [lia|].
    rewrite Hv, Hv' in *. simpl in H. f_equal. apply H. lia.
  - rewrite !lookup_ge_None_2; [done|lia|lia].
Qed.

(** Simplification of reads of updated arrays. *)
Ltac sel_simpl :=
  repeat first
    [ rewrite length_upd
    | rewrite sel_upd by (rewrite ?length_upd; lia)
    | case_decide; try lia ].

(** ** Reordering within a window *)

Lemma reordered_length l r arr arr' : reordered l r arr arr' → length arr' = length arr.
Proof. intros [Hp _]. by apply Permutation_length. Qed.

Lemma reordered_refl l r arr : reordered l r arr arr.
Proof. by split. Qed.

Lemma reordered_trans l r arr1 arr2 arr3 :
  reordered l r arr1 arr2 → reordered l r arr2 arr3 → reordered l r arr1 arr3.
Proof.
  intros [Hp1 Hf1] [Hp2 Hf2]. split; [by etrans|].
  intros t Ht. by rewrite Hf2, Hf1.
Qed.

Lemma reordered_weaken l r l' r' arr arr' :
  l' ≤ l → r ≤ r' → reordered l r arr arr' → reordered l' r' arr arr'.
Proof. intros Hl Hr [Hp Hf]. split; [done|]. intros t Ht. apply Hf. lia. Qed.

(** ** [trocar] *)

Lemma trocar_swap arr i j :
  0 ≤ i < len arr → 0 ≤ j < len arr → trocar arr i j = Ok (swap arr i j).
Proof.
  intros Hi Hj. unfold trocar.
  rewrite (get_sel arr i), bind_Ok by done.
  rewrite (get_sel arr j), bind_Ok by done.
  rewrite set_upd, bind_Ok by done.
  rewrite set_upd by (rewrite length_upd; lia). done.
Qed.

Lemma length_swap arr i j : length (swap arr i j) = length arr.
Proof. unfold swap. by rewrite !length_upd. Qed.

Lemma sel_swap arr i j t :
  0 ≤ i < len arr → 0 ≤ j < len arr →
  Arr.sel (swap arr i j) t =
    if decide (t = j) then Arr.sel arr i
    else if decide (t = i) then Arr.sel arr j
    else Arr.sel arr t.
Proof. intros Hi Hj. unfold swap. sel_simpl; done. Qed.

Lemma swap_perm arr i j : 0 ≤ i < len arr → 0 ≤ j < len arr → swap arr i j ≡ₚ arr.
Proof.
  intros Hi Hj. unfold swap, upd.
  apply Permutation_insert_swap; by apply lookup_sel.
Qed.

Lemma swap_reordered l r arr i j :
  0 ≤ i < len arr → 0 ≤ j < len arr → l ≤ i ≤ r → l ≤ j ≤ r →
  reordered l r arr (swap arr i j).
Proof.
  intros Hi Hj Hil Hjl. split; [by apply swap_perm|].
  intros t Ht. rewrite sel_swap by done. sel_simpl; done.
Qed.

(** ** [insertionSort] *)

Lemma insertionSort_while_unfold turns arr off j chave :
  insertionSort_while turns arr off j chave =
    if j >=? 0 then
      aj ← Arr.get arr (off + j);
      if aj >? chave then
        match turns with
        | O => Exhausted
        | S turns' =>
            arr ← Arr.set arr (off + (j + 1)) aj;
            insertionSort_while turns' arr off (j - 1) chave
        end
      else Ok (arr, j)
    else Ok (arr, j).
Proof. by destruct turns. Qed.

(** Moving the hole one cell down is a transposition. *)
Lemma shift_perm arr p c :
  0 ≤ p → p + 1 < len arr →
  upd (upd arr (p + 1) (Arr.sel arr p)) p c ≡ₚ upd arr (p + 1) c.
Proof.
  intros Hp Hp1.
  pose proof (Permutation_insert_swap (upd arr (p + 1) c) (Z.to_nat p) (Z.to_nat (p + 1))
    (Arr.sel arr p) c) as H.
  rewrite <- H.
  - apply reflexive_eq. apply sel_ext; [by rewrite !length_insert, !length_upd|].
    intros t Ht. rewrite !length_upd in Ht.
    change (Arr.sel (upd (upd arr (p + 1) (Arr.sel arr p)) p c) t =
            Arr.sel (upd (upd (upd arr (p + 1) c) p c) (p + 1) (Arr.sel arr p)) t).
    sel_simpl; done.
  - rewrite lookup_sel by (rewrite length_upd; lia). f_equal. sel_simpl; done.
  - rewrite lookup_sel by (rewrite length_upd; lia). f_equal. sel_simpl; done.
Qed.

Lemma insertionSort_while_spec turns : ∀ arr off i j chave,
  0 ≤ off → off + i < len arr → -1 ≤ j < i → (Z.to_nat (j + 1) ≤ turns)%nat →
  (∀ s t, off ≤ s → s ≤ t → t ≤ off + i → s ≠ off + (j + 1) → t ≠ off + (j + 1) →
          Arr.sel arr s ≤ Arr.sel arr t) →
  (∀ t, off + (j + 1) < t ≤ off + i → chave < Arr.sel arr t) →
  ∃ arr' j',
    insertionSort_while turns arr off j chave = Ok (arr', j') ∧
    -1 ≤ j' ≤ j ∧ length arr' = length arr ∧
    upd arr' (off + (j' + 1)) chave ≡ₚ upd arr (off + (j + 1)) chave ∧
    (∀ t, t < off ∨ off + i < t → Arr.sel arr' t = Arr.sel arr t) ∧
    sorted_on (upd arr' (off + (j' + 1)) chave) off (off + i).
Proof.
  induction turns as [|turns IH]; intros arr off i j chave Hoff Hi Hj Hturns Hs Hgt;
    rewrite insertionSort_while_unfold.
  - (* no turn left: [j = -1] *)
    assert (j = -1) as -> by lia. simpl.
    exists arr, (-1). repeat split; try done; try lia.
    intros s t Hs1 Hst Ht. sel_simpl; try done.
    + apply Z.lt_le_incl, Hgt. lia.
    + apply Hs; lia.
  - zbool.
    + rewrite get_sel, bind_Ok by lia. zbool.
      * rewrite set_upd, bind_Ok by lia.
        destruct (IH (upd arr (off + (j + 1)) (Arr.sel arr (off + j))) off i (j - 1) chave)
          as (arr' & j' & Hrun & Hj' & Hlen & Hperm & Hframe & Hsorted);
          try (rewrite ?length_upd; lia).
        { intros s t Hs1 Hst Ht Hsh Hth. sel_simpl; try done; apply Hs; lia. }
        { intros t Ht. sel_simpl; try done. apply Hgt. lia. }
        exists arr', j'. rewrite Hrun. repeat split; try done; try lia.
        -- by rewrite Hlen, length_upd.
        -- rewrite Hperm. replace (off + (j - 1 + 1)) with (off + j) by lia.
           replace (off + (j + 1)) with (off + j + 1) by lia.
           apply shift_perm; lia.
        -- intros t Ht. rewrite Hframe by done. sel_simpl; done.
      * exists arr, j. repeat split; try done; try lia.
        intros s t Hs1 Hst Ht. sel_simpl; try done.
        -- apply Z.lt_le_incl, Hgt. lia.
        -- trans (Arr.sel arr (off + j)); [|lia].
           destruct (decide (s = off + j)) as [->|]; [done|]. apply Hs; lia.
        -- apply Hs; lia.
    + assert (j = -1) as -> by lia.
      exists arr, (-1). repeat split; try done; try lia.
      intros s t Hs1 Hst Ht. sel_simpl; try done.
      * apply Z.lt_le_incl, Hgt. lia.
      * apply Hs; lia.
Qed.

Lemma insertionSort_spec arr off n :
  (1 < n → 0 ≤ off ∧ off + n ≤ len arr) →
  ∃ arr',
    insertionSort arr off n = Ok arr' ∧
    reordered off (off + n - 1) arr arr' ∧
    sorted_on arr' off (off + n - 1).
Proof.
  intros Hwin. unfold insertionSort.
  destruct (Z.le_gt_cases n 1) as [Hn|Hn].
  { rewrite for_range_empty by done. exists arr.
    split; [done|]. split; [apply reordered_refl|].
    intros s t Hs Hst Ht. by replace t with s by lia. }
  destruct (Hwin Hn) as [Hoff Hlen].
  apply (for_range_inv
    (fun i a => reordered off (off + n - 1) arr a ∧ sorted_on a off (off + i - 1))); [lia| |].
  { split; [apply reordered_refl|].
    intros s t Hs Hst Ht. by replace t with s by lia. }
  intros i a Hi [Hre Hso].
  pose proof (reordered_length _ _ _ _ Hre) as Hla.
  rewrite get_sel, bind_Ok by lia.
  destruct (insertionSort_while_spec (Z.to_nat (i - 1 + 1)) a off i (i - 1)
              (Arr.sel a (off + i)))
    as (a' & j' & -> & Hj' & Hla' & Hperm & Hframe & Hsorted); try lia.
  { intros s t Hs Hst Ht Hsh Hth. apply Hso; lia. }
  rewrite bind_Ok. rewrite set_upd by lia. eexists. split; [done|].
  split.
  - eapply reordered_trans; [exact Hre|]. split.
    + rewrite Hperm. replace (off + (i - 1 + 1)) with (off + i) by lia.
      by rewrite upd_id by lia.
    + intros t Ht. sel_simpl. apply Hframe. lia.
  - by replace (off + (i + 1) - 1) with (off + i) by lia.
Qed.

(** ** [particionar] *)

Lemma particionar_find_spec cnt : ∀ arr i pivo,
  0 ≤ i → i + Z.of_nat cnt ≤ len arr →
  (∃ t, i ≤ t < i + Z.of_nat cnt ∧ Arr.sel arr t = pivo) →
  ∃ p, particionar_find cnt arr i pivo = Ok p ∧
       i ≤ p < i + Z.of_nat cnt ∧ Arr.sel arr p = pivo.
Proof.
  induction cnt as [|cnt IH]; intros arr i pivo Hi Hlen (t & Ht & Hsel); [lia|].
  simpl. rewrite get_sel, bind_Ok by lia. zbool.
  - exists i. split; [done|]. split; [lia|done].
  - destruct (IH arr (i + 1) pivo) as (p & -> & Hp & Hpsel); [lia|lia| |].
    + exists t. split; [|done]. destruct (decide (t = i)) as [->|]; [done|lia].
    + exists p. split; [done|]. split; [lia|done].
Qed.

Lemma particionar_spec arr l r pivo :
  0 ≤ l → r < len arr → occurs arr l r pivo →
  ∃ p arr',
    particionar arr l r pivo = Ok (p, arr') ∧
    l ≤ p ≤ r ∧
    reordered l r arr arr' ∧
    Arr.sel arr' p = pivo ∧
    (∀ t, l ≤ t < p → Arr.sel arr' t ≤ pivo) ∧
    (∀ t, p < t ≤ r → pivo < Arr.sel arr' t).
Proof.
  intros Hl Hr (t0 & Ht0 & Hsel0). unfold particionar.
  destruct (particionar_find_spec (Z.to_nat (r + 1 - l)) arr l pivo)
    as (i0 & -> & Hi0 & Hi0sel); [lia|lia|exists t0; split; [lia|done]|].
  rewrite bind_Ok, trocar_swap, bind_Ok by lia.
  pose proof (swap_reordered l r arr i0 r) as Hre0.
  set (arr1 := swap arr i0 r) in *.
  assert (Hlen1 : length arr1 = length arr) by apply length_swap.
  assert (Hr1 : Arr.sel arr1 r = pivo).
  { unfold arr1. rewrite sel_swap by lia. by rewrite decide_True. }
  destruct (for_range_inv
    (fun j '(a, i) =>
       l ≤ i ≤ j ∧ reordered l r arr a ∧ Arr.sel a r = pivo ∧
       (∀ t, l ≤ t < i → Arr.sel a t ≤ pivo) ∧
       (∀ t, i ≤ t < j → pivo < Arr.sel a t))
    (fun j '(arr, i) =>
       aj ← Arr.get arr j;
       if aj <=? pivo then arr ← trocar arr i j; Ok (arr, i + 1) else Ok (arr, i))
    l (r - 1 + 1) (arr1, l)) as ([arr2 i] & -> & Hi & Hre & Hselr & Hle & Hgt); [lia| |..].
  { split; [lia|]. split; [apply Hre0; lia|]. split; [done|]. split; intros; lia. }
  { intros j [a i] Hj (Hi & Hre & Hselr & Hle & Hgt).
    pose proof (reordered_length _ _ _ _ Hre) as Hla.
    rewrite get_sel, bind_Ok by lia. zbool.
    - rewrite trocar_swap, bind_Ok by lia. eexists. split; [done|].
      split; [lia|]. split.
      { eapply reordered_trans; [exact Hre|]. apply swap_reordered; lia. }
      split; [rewrite sel_swap by lia; sel_simpl; done|].
      split; intros t Ht; rewrite sel_swap by lia; sel_simpl; try done;
        try (apply Hle; lia); try (apply Hgt; lia).
      by replace i with j by lia.
    - eexists. split; [done|]. split; [lia|]. split; [done|]. split; [done|].
      split; [done|]. intros t Ht. destruct (decide (t = j)) as [->|]; [lia|].
      apply Hgt; lia. }
  rewrite bind_Ok.
  pose proof (reordered_length _ _ _ _ Hre) as Hla.
  rewrite trocar_swap, bind_Ok by lia.
  exists i, (swap arr2 i r). split; [done|]. split; [lia|]. split.
  { eapply reordered_trans; [exact Hre|]. apply swap_reordered; lia. }
  split; [rewrite sel_swap by lia; sel_simpl; congruence|].
  split; intros t Ht; rewrite sel_swap by lia; sel_simpl; try done;
    try (apply Hle; lia); try (apply Hgt; lia).
Qed.

(** ** Windows *)

Lemma length_window arr l r :
  0 ≤ l → r < len arr → length (window arr l r) = Z.to_nat (r + 1 - l).
Proof. intros Hl Hr. unfold window. rewrite length_take, length_drop. lia. Qed.

Lemma sel_window arr l r t :
  0 ≤ l → 0 ≤ t ≤ r - l → Arr.sel (window arr l r) t = Arr.sel arr (l + t).
Proof.
  intros Hl Ht. rewrite !sel_lookup by lia. unfold window.
  rewrite lookup_take_lt, lookup_drop by lia. do 2 f_equal. lia.
Qed.

Lemma window_empty arr l r : r < l → window arr l r = [].
Proof. intros. unfold window. by replace (Z.to_nat (r + 1 - l)) with O by lia. Qed.

Lemma window_all arr : window arr 0 (len arr - 1) = arr.
Proof. unfold window. change (Z.to_nat 0) with O. rewrite drop_0, take_ge; [done|lia]. Qed.

(** Windows with the same cells are the same sequence. *)
Lemma window_ext arr arr' l r :
  0 ≤ l → r < len arr → length arr' = length arr →
  (∀ t, l ≤ t ≤ r → Arr.sel arr' t = Arr.sel arr t) →
  window arr' l r = window arr l r.
Proof.
  intros Hl Hr Hlen Hsel. apply sel_ext.
  - rewrite !length_window by lia. done.
  - intros t Ht. rewrite length_window in Ht by lia.
    rewrite !sel_window by lia. apply Hsel. lia.
Qed.

Lemma window_split arr l r p :
  0 ≤ l → r < len arr → l ≤ p ≤ r →
  window arr l r = window arr l (p - 1) ++ Arr.sel arr p :: window arr (p + 1) r.
Proof.
  intros Hl Hr Hp. apply sel_ext.
  - rewrite length_app. simpl. rewrite !length_window by lia. lia.
  - intros t Ht. rewrite length_window in Ht by lia.
    rewrite sel_window by lia. rewrite !sel_lookup by lia.
    destruct (decide (t < p - l)) as [Hlt|Hge].
    + rewrite lookup_app_l by (rewrite length_window by lia; lia).
      rewrite <- !sel_lookup by lia. by rewrite sel_window by lia.
    + rewrite lookup_app_r by (rewrite length_window by lia; lia).
      rewrite length_window by lia.
      destruct (decide (t = p - l)) as [->|Hne].
      * replace (Z.to_nat (p - l) - Z.to_nat (p - 1 + 1 - l))%nat with O by lia.
        simpl. do 3 f_equal. lia.
      * replace (Z.to_nat t - Z.to_nat (p - 1 + 1 - l))%nat
          with (S (Z.to_nat (t - (p + 1 - l)))) by lia.
        simpl. rewrite <- !sel_lookup by lia. rewrite sel_window by lia.
        f_equal. lia.
Qed.

(** An array is the cells before a window, the window, and the cells after. *)
Lemma window_decompose arr l r :
  0 ≤ l → l ≤ r + 1 →
  arr = take (Z.to_nat l) arr ++ window arr l r ++ drop (Z.to_nat (r + 1)) arr.
Proof.
  intros Hl Hr. unfold window.
  rewrite <- (take_drop (Z.to_nat l) arr) at 1. f_equal.
  rewrite <- (take_drop (Z.to_nat (r + 1 - l)) (drop (Z.to_nat l) arr)) at 1. f_equal.
  rewrite drop_drop. f_equal. lia.
Qed.

Lemma reordered_window l r arr arr' :
  0 ≤ l → r < len arr → reordered l r arr arr' →
  window arr' l r ≡ₚ window arr l r.
Proof.
  intros Hl Hr Hre. pose proof (reordered_length _ _ _ _ Hre) as Hlen.
  destruct Hre as [Hperm Hframe].
  destruct (Z.lt_ge_cases r (l - 1)) as [Hemp|Hne].
  { by rewrite !window_empty by lia. }
  rewrite (window_decompose arr l r), (window_decompose arr' l r) in Hperm by lia.
  assert (take (Z.to_nat l) arr' = take (Z.to_nat l) arr) as Htake.
  { apply list_eq. intros n. destruct (decide (n < Z.to_nat l)%nat).
    - rewrite !lookup_take_lt by done.
      specialize (Hframe (Z.of_nat n)). rewrite !sel_lookup, Nat2Z.id in Hframe by lia.
      destruct (lookup_lt_is_Some_2 arr n) as [v Hv]; [lia|].
      destruct (lookup_lt_is_Some_2 arr' n) as [v' Hv']; [lia|].
      rewrite Hv, Hv' in *. simpl in Hframe. f_equal. apply Hframe. lia.
    - rewrite !lookup_take_ge by lia. done. }
  assert (drop (Z.to_nat (r + 1)) arr' = drop (Z.to_nat (r + 1)) arr) as Hdrop.
  { apply list_eq. intros n. rewrite !lookup_drop.
    destruct (decide (Z.to_nat (r + 1) + n < length arr)%nat).
    - specialize (Hframe (Z.of_nat (Z.to_nat (r + 1) + n))).
      rewrite !sel_lookup, Nat2Z.id in Hframe by lia.
      destruct (lookup_lt_is_Some_2 arr (Z.to_nat (r + 1) + n)) as [v Hv]; [lia|].
      destruct (lookup_lt_is_Some_2 arr' (Z.to_nat (r + 1) + n)) as [v' Hv']; [lia|].
      rewrite Hv, Hv' in *. simpl in Hframe. f_equal. apply Hframe. lia.
    - rewrite !lookup_ge_None_2 by lia. done. }
  rewrite Htake, Hdrop in Hperm.
  apply Permutation_app_inv_l in Hperm. by apply Permutation_app_inv_r in Hperm.
Qed.

Lemma occurs_window arr l r v :
  0 ≤ l → r < len arr → occurs arr l r v ↔ v ∈ window arr l r.
Proof.
  intros Hl Hr. rewrite list_elem_of_lookup. split.
  - intros (t & Ht & Hsel). exists (Z.to_nat (t - l)).
    rewrite lookup_sel by (rewrite length_window by lia; lia).
    rewrite sel_window by lia. rewrite <- Hsel. do 2 f_equal. lia.
  - intros (n & Hn). pose proof (lookup_lt_Some _ _ _ Hn) as Hlt.
    rewrite length_window in Hlt by lia.
    exists (l + Z.of_nat n). split; [lia|].
    rewrite <- sel_window with (r := r) by lia.
    rewrite sel_lookup, Nat2Z.id, Hn by lia. done.
Qed.

Lemma sorted_window arr lo hi :
  0 ≤ lo → hi < len arr → sorted_on arr lo hi → StronglySorted Z.le (window arr lo hi).
Proof.
  intros Hlo Hhi Hs.
  assert (∀ n w, length w = n →
    (∀ s t, 0 ≤ s → s ≤ t → t < len w → Arr.sel w s ≤ Arr.sel w t) →
    StronglySorted Z.le w) as Hgen.
  { induction n as [|n IH]; intros w Hw Hsel.
    - destruct w; [constructor|done].
    - destruct w as [|x w]; [done|]. constructor.
      + apply IH; [by inversion Hw|]. intros s t Hs0 Hst Ht.
        specialize (Hsel (s + 1) (t + 1)). rewrite !sel_lookup in Hsel by lia.
        rewrite !sel_lookup by lia.
        replace (Z.to_nat (s + 1)) with (S (Z.to_nat s)) in Hsel by lia.
        replace (Z.to_nat (t + 1)) with (S (Z.to_nat t)) in Hsel by lia.
        apply Hsel; simpl length; lia.
      + apply Forall_lookup. intros i y Hy.
        pose proof (lookup_lt_Some _ _ _ Hy).
        specialize (Hsel 0 (Z.of_nat (S i))). rewrite !sel_lookup in Hsel by lia.
        rewrite Nat2Z.id in Hsel. simpl in Hsel. rewrite Hy in Hsel. simpl in Hsel.
        apply Hsel; lia. }
  apply (Hgen _ _ eq_refl). intros s t Hs0 Hst Ht.
  rewrite length_window in Ht by lia.
  rewrite !sel_window by lia. apply Hs; lia.
Qed.

(** ** The reference: a full sort *)

Lemma sort_sorted w : StronglySorted Z.le (merge_sort Z.le w).
Proof. apply StronglySorted_merge_sort; apply _. Qed.

Lemma sort_unique w w' : StronglySorted Z.le w → w' ≡ₚ w → merge_sort Z.le w' = w.
Proof.
  intros Hs Hp. apply (StronglySorted_unique Z.le); [apply sort_sorted|done|].
  by rewrite merge_sort_Permutation.
Qed.

Lemma sort_perm w w' : w' ≡ₚ w → merge_sort Z.le w' = merge_sort Z.le w.
Proof.
  intros Hp. apply sort_unique; [apply sort_sorted|].
  by rewrite merge_sort_Permutation.
Qed.

Lemma length_sort w : length (merge_sort Z.le w) = length w.
Proof. apply Permutation_length, merge_sort_Permutation. Qed.

Lemma sort_partition L p G :
  (∀ x, x ∈ L → x ≤ p) → (∀ x, x ∈ G → p < x) →
  merge_sort Z.le (L ++ p :: G) = merge_sort Z.le L ++ p :: merge_sort Z.le G.
Proof.
  intros HL HG. apply sort_unique.
  - apply StronglySorted_app_2; [|apply sort_sorted|].
    + intros x1 x2 Hx1 Hx2. rewrite merge_sort_Permutation in Hx1.
      apply elem_of_cons in Hx2 as [->|Hx2]; [by apply HL|].
      rewrite merge_sort_Permutation in Hx2.
      specialize (HL _ Hx1). specialize (HG _ Hx2). lia.
    + constructor; [apply sort_sorted|]. apply Forall_forall. intros x Hx.
      rewrite merge_sort_Permutation in Hx. specialize (HG _ Hx). lia.
  - by rewrite !merge_sort_Permutation.
Qed.

Lemma kth_smallest_perm w w' k : w' ≡ₚ w → kth_smallest w' k = kth_smallest w k.
Proof. intros Hp. unfold kth_smallest. by rewrite (sort_perm w w'). Qed.

Lemma kth_smallest_elem w k : 1 ≤ k ≤ len w → kth_smallest w k ∈ w.
Proof.
  intros Hk. unfold kth_smallest.
  rewrite <- (merge_sort_Permutation Z.le w) at 2.
  apply list_elem_of_lookup. exists (Z.to_nat (k - 1)).
  apply lookup_sel. rewrite length_sort. lia.
Qed.

Lemma sel_app_l w1 w2 t : 0 ≤ t < len w1 → Arr.sel (w1 ++ w2) t = Arr.sel w1 t.
Proof. intros. rewrite !sel_lookup by lia. by rewrite lookup_app_l by lia. Qed.

Lemma sel_app_r w1 w2 t : len w1 ≤ t → Arr.sel (w1 ++ w2) t = Arr.sel w2 (t - len w1).
Proof.
  intros. rewrite !sel_lookup by lia. rewrite lookup_app_r by lia.
  do 2 f_equal. lia.
Qed.

(** The rank-[k] value of a partitioned sequence, by the side [k] falls on. *)
Lemma kth_smallest_partition L p G k :
  (∀ x, x ∈ L → x ≤ p) → (∀ x, x ∈ G → p < x) → 1 ≤ k →
  kth_smallest (L ++ p :: G) k =
    if decide (k - 1 < len L) then kth_smallest L k
    else if decide (k - 1 = len L) then p
    else kth_smallest G (k - len L - 1).
Proof.
  intros HL HG Hk. unfold kth_smallest. rewrite sort_partition by done.
  pose proof (length_sort L) as HlenL.
  repeat case_decide.
  - by rewrite sel_app_l by lia.
  - rewrite sel_app_r by lia. replace (k - 1 - len (merge_sort Z.le L)) with 0 by lia.
    done.
  - rewrite sel_app_r by lia. rewrite !sel_lookup by lia.
    replace (Z.to_nat (k - 1 - len (merge_sort Z.le L)))
      with (S (Z.to_nat (k - len L - 1 - 1))) by lia.
    done.
Qed.

(** ** The medians, as the specification words them *)

Lemma length_groups_of_5 g w : length (groups_of_5 g w) = g.
Proof. revert w. induction g as [|g IH]; intros w; simpl; [done|]. by rewrite IH. Qed.

Lemma lookup_groups_of_5 g : ∀ w t,
  (t < g)%nat → groups_of_5 g w !! t = Some (take 5 (drop (5 * t) w)).
Proof.
  induction g as [|g IH]; intros w t Ht; [lia|].
  destruct t as [|t]; simpl; [done|].
  rewrite IH by lia. rewrite drop_drop. do 3 f_equal. lia.
Qed.

Lemma length_medians_buffer w : len (medians_buffer w) = (len w + 4) / 5.
Proof.
  unfold medians_buffer. rewrite length_fmap, length_groups_of_5.
  apply Z2Nat.id. apply Z.div_pos; lia.
Qed.

Lemma sel_medians_buffer w t :
  0 ≤ t < (len w + 4) / 5 →
  Arr.sel (medians_buffer w) t = group_median (take 5 (drop (Z.to_nat (5 * t)) w)).
Proof.
  intros Ht. rewrite sel_lookup by lia. unfold medians_buffer.
  rewrite list_lookup_fmap, lookup_groups_of_5 by lia. simpl.
  do 3 f_equal. lia.
Qed.

(** Every median is one of the elements. *)
Lemma medians_buffer_elem w x : x ∈ medians_buffer w → x ∈ w.
Proof.
  intros Hx. apply list_elem_of_lookup in Hx as [t Ht].
  pose proof (lookup_lt_Some _ _ _ Ht) as Hlt.
  pose proof (length_medians_buffer w) as Hlen.
  pose proof (sel_medians_buffer w (Z.of_nat t)) as Hsel.
  rewrite sel_lookup, Nat2Z.id, Ht in Hsel by lia. simpl in Hsel.
  rewrite Hsel by lia. clear Hsel Ht.
  set (grp := take 5 (drop (Z.to_nat (5 * Z.of_nat t)) w)).
  assert (Hgrp : length grp = Nat.min 5 (length w - 5 * t)).
  { unfold grp. rewrite length_take, length_drop. lia. }
  assert (5 * Z.of_nat t < len w) by lia.
  apply (subseteq_drop (Z.to_nat (5 * Z.of_nat t))), (subseteq_take 5).
  fold grp. assert (group_median grp ∈ merge_sort Z.le grp) as Hin.
  { unfold group_median. apply list_elem_of_lookup.
    eexists. apply lookup_sel. rewrite length_sort. zbool; lia. }
  by rewrite merge_sort_Permutation in Hin.
Qed.

(** ** Step 1 of [kesimoMinimo] *)

(** A group sorted in place holds the sorted group. *)
Lemma sorted_group a a' off m :
  0 ≤ off → off + m ≤ len a →
  reordered off (off + m - 1) a a' → sorted_on a' off (off + m - 1) →
  window a' off (off + m - 1) = merge_sort Z.le (window a off (off + m - 1)).
Proof.
  intros Hoff Hm Hre Hso. pose proof (reordered_length _ _ _ _ Hre) as Hlen.
  symmetry. apply sort_unique.
  - apply sorted_window; [done|lia|done].
  - symmetry. apply reordered_window; [done|lia|done].
Qed.

Lemma group_median_sorted a a' off m :
  0 ≤ off → 1 ≤ m ≤ 5 → off + m ≤ len a →
  reordered off (off + m - 1) a a' → sorted_on a' off (off + m - 1) →
  group_median (window a off (off + m - 1)) =
    Arr.sel a' (off + (if m =? 5 then 2 else m / 2)).
Proof.
  intros Hoff Hm Hlen Hre Hso. unfold group_median.
  rewrite <- (sorted_group a a') by done.
  rewrite length_window by lia.
  replace (Z.of_nat (Z.to_nat (off + m - 1 + 1 - off))) with m by lia.
  rewrite sel_window; [done|done|]. zbool; lia.
Qed.

Lemma window_group arr l r t :
  0 ≤ l → r < len arr → 0 ≤ t → l + 5 * t ≤ r →
  take 5 (drop (Z.to_nat (5 * t)) (window arr l r)) =
    window arr (l + 5 * t) (Z.min (l + 5 * t + 4) r).
Proof.
  intros Hl Hr Ht Hlt. apply sel_ext.
  - rewrite length_take, length_drop, !length_window by lia. lia.
  - intros s Hs. rewrite length_take, length_drop, length_window in Hs by lia.
    rewrite sel_window by lia.
    rewrite sel_lookup, lookup_take_lt, lookup_drop by lia.
    replace (Z.to_nat (5 * t) + Z.to_nat s)%nat with (Z.to_nat (5 * t + s)) by lia.
    rewrite <- sel_lookup by lia. rewrite sel_window by lia. f_equal. lia.
Qed.

Lemma kesimoMinimo_medians_spec arr l n :
  0 ≤ l → 1 ≤ n → l + n ≤ len arr →
  ∃ arr',
    kesimoMinimo_medians arr l n =
      Ok (arr', medians_buffer (window arr l (l + n - 1)), (n + 4) / 5) ∧
    reordered l (l + n - 1) arr arr' ∧
    ∀ t, 0 ≤ t < (n + 4) / 5 →
      let hi := Z.min (l + 5 * t + 4) (l + n - 1) in
      sorted_on arr' (l + 5 * t) hi ∧
      window arr' (l + 5 * t) hi ≡ₚ window arr (l + 5 * t) hi.
Proof.
  intros Hl Hn Hlen. unfold kesimoMinimo_medians.
  set (r := l + n - 1). set (g := (n + 4) / 5).
  (* what the cells of [medians] hold once groups [0..i-1] are done *)
  set (filled (i : Z) (meds : list Z) :=
    len meds = g ∧
    ∀ t, 0 ≤ t < i →
      Arr.sel meds t = group_median (window arr (l + 5 * t) (Z.min (l + 5 * t + 4) r))).
  set (grouped (i : Z) (a : list Z) :=
    ∀ t, 0 ≤ t < i →
      let hi := Z.min (l + 5 * t + 4) r in
      sorted_on a (l + 5 * t) hi ∧ window a (l + 5 * t) hi ≡ₚ window arr (l + 5 * t) hi).
  destruct (for_range_inv
    (fun i '(a, meds) =>
       reordered l r arr a ∧ (∀ t, l + 5 * i ≤ t → Arr.sel a t = Arr.sel arr t) ∧
       filled i meds ∧ grouped i a)
    (fun i '(arr, medians) =>
       arr ← insertionSort arr (l + i * 5) 5;
       m ← Arr.get arr (l + i * 5 + 2);
       medians ← Arr.set medians i m;
       Ok (arr, medians))
    0 (n ÷ 5) (arr, replicate (Z.to_nat ((n + 4) ÷ 5)) 0))
    as ([a1 meds1] & -> & Hre1 & Hrest1 & (Hlen1 & Hmeds1) & Hgr1); [lia| |..].
  { split; [apply reordered_refl|]. split; [done|].
    split; [split; [rewrite length_replicate; lia|intros; lia]|]. intros t Ht. lia. }
  { intros i [a meds] Hi (Hre & Hrest & (Hlenm & Hmeds) & Hgr).
    pose proof (reordered_length _ _ _ _ Hre) as Hla.
    destruct (insertionSort_spec a (l + i * 5) 5) as (a' & -> & Hre' & Hso'); [lia|].
    pose proof (reordered_length _ _ _ _ Hre') as Hla'.
    rewrite bind_Ok, get_sel, bind_Ok by lia.
    rewrite set_upd, bind_Ok by lia.
    eexists. split; [done|]. split; [|split; [|split; [split|]]].
    - eapply reordered_trans; [exact Hre|].
      apply (reordered_weaken (l + i * 5) (l + i * 5 + 5 - 1)); [lia|lia|done].
    - intros t Ht. destruct Hre' as [_ Hf]. rewrite Hf by lia. apply Hrest. lia.
    - rewrite length_upd. done.
    - intros t Ht. sel_simpl; [|apply Hmeds; lia]. subst t.
      replace (Z.min (l + 5 * i + 4) r) with (l + i * 5 + 5 - 1) by lia.
      replace (l + 5 * i) with (l + i * 5) by lia.
      rewrite <- (window_ext arr a) by (try lia; intros; apply Hrest; lia).
      by rewrite (group_median_sorted a a') by (try done; lia).
    - intros t Ht. cbv zeta. destruct (decide (t = i)) as [->|Hne].
      + replace (Z.min (l + 5 * i + 4) r) with (l + i * 5 + 5 - 1) by lia.
        replace (l + 5 * i) with (l + i * 5) by lia. split; [done|].
        rewrite (reordered_window _ _ a a') by (try done; lia).
        apply reflexive_eq, window_ext; try lia. intros; apply Hrest; lia.
      + destruct (Hgr t) as [Hso Hp]; [lia|]. destruct Hre' as [_ Hf]. split.
        * intros s1 s2 Hs1 Hs12 Hs2. rewrite !Hf by lia. apply Hso; lia.
        * rewrite <- Hp. apply reflexive_eq, window_ext; try lia.
          intros; apply Hf; lia. }
  replace (Z.max 0 (n ÷ 5)) with (n ÷ 5) by lia.
  rewrite bind_Ok. cbv beta iota.
  assert (∃ arr' meds,
    (if n ÷ 5 * 5 <? n
     then
       arr0 ← insertionSort a1 (l + n ÷ 5 * 5) (Z.rem n 5);
       m ← Arr.get arr0 (l + n ÷ 5 * 5 + Z.rem n 5 ÷ 2);
       medians ← Arr.set meds1 (n ÷ 5) m;
       Ok (arr0, medians, n ÷ 5 + 1)
     else Ok (a1, meds1, n ÷ 5)) = Ok (arr', meds, g) ∧
    reordered l r arr arr' ∧ filled g meds ∧ grouped g arr')
    as (arr' & meds & -> & Hre & (Hlenm & Hmeds) & Hgr).
  { pose proof (reordered_length _ _ _ _ Hre1) as Hla.
    zbool.
    - destruct (insertionSort_spec a1 (l + n ÷ 5 * 5) (Z.rem n 5))
        as (a' & -> & Hre' & Hso'); [lia|].
      pose proof (reordered_length _ _ _ _ Hre') as Hla'.
      rewrite bind_Ok, get_sel, bind_Ok by lia.
      rewrite set_upd, bind_Ok by lia.
      eexists _, _. split; [f_equal; f_equal; unfold g; lia|].
      split; [|split; [split|]].
      + eapply reordered_trans; [exact Hre1|].
        apply (reordered_weaken (l + n ÷ 5 * 5) (l + n ÷ 5 * 5 + Z.rem n 5 - 1));
          [lia|unfold r; lia|done].
      + by rewrite length_upd.
      + intros t Ht. sel_simpl; [|apply Hmeds1; unfold g in *; lia]. subst t.
        replace (Z.min (l + 5 * (n ÷ 5) + 4) r)
          with (l + n ÷ 5 * 5 + Z.rem n 5 - 1) by (unfold r; lia).
        replace (l + 5 * (n ÷ 5)) with (l + n ÷ 5 * 5) by lia.
        rewrite <- (window_ext arr a1) by (try lia; intros; apply Hrest1; lia).
        rewrite (group_median_sorted a1 a') by (try done; lia).
        do 2 f_equal. zbool; lia.
      + intros t Ht. cbv zeta. destruct (decide (t = n ÷ 5)) as [->|Hne].
        * replace (Z.min (l + 5 * (n ÷ 5) + 4) r)
            with (l + n ÷ 5 * 5 + Z.rem n 5 - 1) by (unfold r; lia).
          replace (l + 5 * (n ÷ 5)) with (l + n ÷ 5 * 5) by lia. split; [done|].
          rewrite (reordered_window _ _ a1 a') by (try done; lia).
          apply reflexive_eq, window_ext; try lia. intros; apply Hrest1; lia.
        * destruct (Hgr1 t) as [Hso Hp]; [unfold g in *; lia|].
          destruct Hre' as [_ Hf]. split.
          -- intros s1 s2 Hs1 Hs12 Hs2. rewrite !Hf by (unfold g, r in *; lia).
             apply Hso; lia.
          -- rewrite <- Hp. apply reflexive_eq, window_ext; try (unfold g, r in *; lia).
             intros; apply Hf; unfold g, r in *; lia.
    - exists a1, meds1. split; [f_equal; f_equal; unfold g; lia|].
      split; [done|]. split; [split; [done|]|].
      + intros t Ht. apply Hmeds1. unfold g in *. lia.
      + intros t Ht. apply Hgr1. unfold g in *. lia. }
  exists arr'. split; [|done]. do 3 f_equal.
  apply sel_ext.
  - apply Nat2Z.inj. rewrite length_medians_buffer, length_window by (unfold r; lia).
    unfold g, r in *. lia.
  - intros t Ht. rewrite Hmeds by lia.
    rewrite sel_medians_buffer by (rewrite length_window by (unfold r; lia); unfold g, r in *; lia).
    rewrite window_group; [done|unfold r; lia..].
Qed.

(** ** [kesimoMinimo] *)

(** After the partition, the rank-[k] value of the window is found on the
    side [k] falls on. *)
Lemma kth_smallest_partitioned arr l r p k :
  0 ≤ l → r < len arr → l ≤ p ≤ r → 1 ≤ k →
  (∀ t, l ≤ t < p → Arr.sel arr t ≤ Arr.sel arr p) →
  (∀ t, p < t ≤ r → Arr.sel arr p < Arr.sel arr t) →
  kth_smallest (window arr l r) k =
    if decide (p - l = k - 1) then Arr.sel arr p
    else if decide (p - l > k - 1) then kth_smallest (window arr l (p - 1)) k
    else kth_smallest (window arr (p + 1) r) (k - (p - l) - 1).
Proof.
  intros Hl Hr Hp Hk Hle Hgt.
  rewrite (window_split arr l r p) by done.
  rewrite kth_smallest_partition; [|..|done].
  - rewrite length_window by lia. repeat case_decide; try lia; try done.
    f_equal. lia.
  - intros x Hx. apply occurs_window in Hx as (t & Ht & <-); [|lia..]. apply Hle. lia.
  - intros x Hx. apply occurs_window in Hx as (t & Ht & <-); [|lia..]. apply Hgt. lia.
Qed.

Lemma kesimoMinimo_spec budget : ∀ arr l r k,
  0 ≤ l → r < len arr → 1 ≤ k ≤ r - l + 1 → r - l + 1 ≤ Z.of_nat budget →
  ∃ v arr',
    kesimoMinimo budget arr l r k = Ok (v, arr') ∧
    reordered l r arr arr' ∧
    v = kth_smallest (window arr l r) k.
Proof.
  induction budget as [|budget IH]; intros arr l r k Hl Hr Hk Hbudget; [lia|].
  simpl. unfold kesimoMinimo_body.
  replace ((k >? 0) && (k <=? r - l + 1)) with true by (zbool; simpl; lia).
  (* step 1 *)
  destruct (kesimoMinimo_medians_spec arr l (r - l + 1)) as (a1 & -> & Hre1 & _); [lia..|].
  replace (l + (r - l + 1) - 1) with r in * by lia.
  rewrite bind_Ok. cbv beta iota.
  pose proof (reordered_length _ _ _ _ Hre1) as Hla1.
  set (meds := medians_buffer (window arr l r)).
  set (g := (r - l + 1 + 4) / 5).
  assert (Hg : len meds = g).
  { unfold meds. rewrite length_medians_buffer, length_window by lia. unfold g.
    f_equal. lia. }
  (* step 2 *)
  assert (∃ m, kesimoMinimo_medOfMed (kesimoMinimo budget) meds g = Ok m ∧ m ∈ meds)
    as (m & -> & Hm).
  { unfold kesimoMinimo_medOfMed. zbool.
    - rewrite get_sel by lia. eexists. split; [done|].
      apply list_elem_of_lookup. eexists. apply lookup_sel. lia.
    - destruct (IH meds 0 (g - 1) ((g + 1) ÷ 2)) as (v & meds' & -> & _ & ->);
        [unfold g in *; lia..|].
      rewrite bind_Ok. eexists. split; [done|].
      replace (g - 1) with (len meds - 1) by lia. rewrite window_all.
      apply kth_smallest_elem. lia. }
  rewrite bind_Ok.
  (* step 3 *)
  assert (Hocc : occurs a1 l r m).
  { apply occurs_window; [lia..|]. rewrite (reordered_window l r arr a1) by done.
    by apply medians_buffer_elem. }
  destruct (particionar_spec a1 l r m) as (pos & a2 & -> & Hpos & Hre2 & Hsel & Hle & Hgt);
    [lia..|done|].
  rewrite bind_Ok. cbv beta iota.
  pose proof (reordered_length _ _ _ _ Hre2) as Hla2.
  assert (Hre : reordered l r arr a2) by (by eapply reordered_trans).
  (* step 4 *)
  rewrite <- (kth_smallest_perm _ _ k (reordered_window l r arr a2 Hl Hr Hre)).
  rewrite (kth_smallest_partitioned a2 l r pos k) by (rewrite ?Hsel; try done; lia).
  unfold kesimoMinimo_lado. zbool; repeat case_decide; try lia.
  - destruct (IH a2 l (pos - 1) k) as (v & a3 & -> & Hre3 & ->); [lia..|].
    eexists _, _. split; [done|]. split; [|done].
    eapply reordered_trans; [exact Hre|].
    apply (reordered_weaken l (pos - 1)); [lia..|done].
  - rewrite get_sel, bind_Ok by lia. by eexists _, _.
  - destruct (IH a2 (pos + 1) r (k - (pos - l) - 1)) as (v & a3 & -> & Hre3 & ->); [lia..|].
    eexists _, _. split; [done|]. split; [|done].
    eapply reordered_trans; [exact Hre|].
    apply (reordered_weaken (pos + 1) r); [lia..|done].
Qed.

(** ** The recursive calls of [kesimoMinimo] *)

Lemma for_loop_Ok_inv {St} (P : Z → St → Prop) (body : Z → St → res St) cnt : ∀ lo s s',
  for_loop cnt lo body s = Ok s' →
  P lo s →
  (∀ i s s1, lo ≤ i < lo + Z.of_nat cnt → P i s → body i s = Ok s1 → P (i + 1) s1) →
  P (lo + Z.of_nat cnt) s'.
Proof.
  induction cnt as [|cnt IH]; intros lo s s' Hrun HP Hbody; simpl in Hrun.
  - inversion Hrun; subst. by replace (lo + Z.of_nat 0) with lo by lia.
  - apply bind_Ok_inv in Hrun as (s1 & Hs1 & Hrun).
    replace (lo + Z.of_nat (S cnt)) with (lo + 1 + Z.of_nat cnt) by lia.
    apply (IH (lo + 1) s1 s' Hrun).
    + apply (Hbody lo s); [lia|done..].
    + intros i s2 s3 Hi. apply Hbody. lia.
Qed.

Lemma for_range_Ok_inv {St} (P : Z → St → Prop) (body : Z → St → res St) lo hi s s' :
  lo ≤ hi →
  for_range lo hi body s = Ok s' →
  P lo s →
  (∀ i s s1, lo ≤ i < hi → P i s → body i s = Ok s1 → P (i + 1) s1) →
  P hi s'.
Proof.
  intros Hle Hrun HP Hbody. unfold for_range in Hrun.
  replace hi with (lo + Z.of_nat (Z.to_nat (hi - lo))) by lia.
  apply (for_loop_Ok_inv P body _ _ _ _ Hrun HP).
  intros i s1 s2 Hi. apply Hbody. lia.
Qed.

(** Whatever the pivot, the position [particionar] returns is in the window. *)
Lemma particionar_range arr l r pivo p arr' :
  l ≤ r → particionar arr l r pivo = Ok (p, arr') → l ≤ p ≤ r.
Proof.
  intros Hlr Hrun. unfold particionar in Hrun.
  apply bind_Ok_inv in Hrun as (i0 & _ & Hrun).
  apply bind_Ok_inv in Hrun as (arr1 & _ & Hrun).
  apply bind_Ok_inv in Hrun as ([arr2 i] & Hloop & Hrun).
  apply bind_Ok_inv in Hrun as (arr3 & _ & Hrun).
  inversion Hrun; subst.
  apply (for_range_Ok_inv (fun j '(_, i) => l ≤ i ≤ j)) in Hloop; [lia|lia|lia|].
  intros j [a i1] [a' i2] Hj Hi Hbody.
  apply bind_Ok_inv in Hbody as (aj & _ & Hbody).
  destruct (aj <=? pivo).
  - apply bind_Ok_inv in Hbody as (a2 & _ & Hbody). inversion Hbody; subst. lia.
  - inversion Hbody; subst. lia.
Qed.

Lemma subproblem_smaller l r l' r' : subproblem l r l' r' → r' - l' + 1 < r - l + 1.
Proof. intros [(-> & -> & Hg)|[(pos & Hpos & -> & ->)|(pos & Hpos & -> & ->)]]; lia. Qed.

(** The body consults its recursive calls on subproblems only. *)
Lemma kesimoMinimo_body_subproblems rec1 rec2 arr l r k :
  0 ≤ l → r < len arr →
  (∀ arr' l' r' k', subproblem l r l' r' → rec1 arr' l' r' k' = rec2 arr' l' r' k') →
  kesimoMinimo_body rec1 arr l r k = kesimoMinimo_body rec2 arr l r k.
Proof.
  intros Hl Hr Hagree. unfold kesimoMinimo_body.
  destruct ((k >? 0) && (k <=? r - l + 1)) eqn:Hvalid; [|done].
  assert (1 ≤ k ≤ r - l + 1) as Hk by (zbool; simpl in Hvalid; lia).
  clear Hvalid.
  destruct (kesimoMinimo_medians_spec arr l (r - l + 1)) as (a1 & -> & Hre1 & _); [lia..|].
  rewrite !bind_Ok. cbv beta iota.
  assert (kesimoMinimo_medOfMed rec1 (medians_buffer (window arr l (l + (r - l + 1) - 1)))
            ((r - l + 1 + 4) / 5) =
          kesimoMinimo_medOfMed rec2 (medians_buffer (window arr l (l + (r - l + 1) - 1)))
            ((r - l + 1 + 4) / 5)) as ->.
  { unfold kesimoMinimo_medOfMed. zbool; [done|]. rewrite Hagree; [done|].
    left. split; [done|]. split; [done|]. lia. }
  destruct (kesimoMinimo_medOfMed rec2 _ _) as [m| |]; [|done..].
  rewrite !bind_Ok.
  destruct (particionar a1 l r m) as [[pos a2]| |] eqn:Hpart; [|done..].
  rewrite !bind_Ok. cbv beta iota.
  apply particionar_range in Hpart; [|lia].
  unfold kesimoMinimo_lado.
  destruct (pos - l =? k - 1); [done|].
  destruct (pos - l >? k - 1); apply Hagree.
  - right. left. by exists pos.
  - right. right. by exists pos.
Qed.

(** More budget does not change a result. *)
Lemma kesimoMinimo_body_mono rec1 rec2 arr l r k out :
  (∀ arr' l' r' k' out', rec1 arr' l' r' k' = Ok out' → rec2 arr' l' r' k' = Ok out') →
  kesimoMinimo_body rec1 arr l r k = Ok out →
  kesimoMinimo_body rec2 arr l r k = Ok out.
Proof.
  intros Hmono. unfold kesimoMinimo_body.
  destruct ((k >? 0) && (k <=? r - l + 1)); [|done].
  destruct (kesimoMinimo_medians arr l (r - l + 1)) as [[[a1 meds] g]| |]; [|done..].
  rewrite !bind_Ok. cbv beta iota. intros Hrun.
  apply bind_Ok_inv in Hrun as (m & Hm & Hrun).
  assert (kesimoMinimo_medOfMed rec2 meds g = Ok m) as ->.
  { unfold kesimoMinimo_medOfMed in *. destruct (g =? 1); [done|].
    apply bind_Ok_inv in Hm as ([m' meds'] & Hrec & Hm).
    by rewrite (Hmono _ _ _ _ _ Hrec). }
  rewrite bind_Ok.
  destruct (particionar a1 l r m) as [[pos a2]| |]; [|done..].
  rewrite bind_Ok in *. cbv beta iota in *.
  unfold kesimoMinimo_lado in *.
  destruct (pos - l =? k - 1); [done|].
  destruct (pos - l >? k - 1); by apply Hmono.
Qed.

Lemma kesimoMinimo_mono budget : ∀ arr l r k out,
  kesimoMinimo budget arr l r k = Ok out →
  kesimoMinimo (S budget) arr l r k = Ok out.
Proof.
  induction budget as [|budget IH]; intros arr l r k out Hrun; [done|].
  change (kesimoMinimo_body (kesimoMinimo (S budget)) arr l r k = Ok out).
  by apply (kesimoMinimo_body_mono (kesimoMinimo budget)).
Qed.

Lemma kesimoMinimo_mono_le budget budget' arr l r k out :
  (budget ≤ budget')%nat →
  kesimoMinimo budget arr l r k = Ok out →
  kesimoMinimo budget' arr l r k = Ok out.
Proof.
  induction 1 as [|budget' Hle IH]; [done|].
  intros Hrun. by apply kesimoMinimo_mono, IH.
Qed.

(** A call with an invalid rank returns [INT_MAX] at once. *)
Lemma kesimoMinimo_invalid budget arr l r k :
  ¬ (1 ≤ k ≤ r - l + 1) → kesimoMinimo (S budget) arr l r k = Ok (INT_MAX, arr).
Proof.
  intros Hk. simpl. unfold kesimoMinimo_body.
  replace ((k >? 0) && (k <=? r - l + 1)) with false; [done|].
  zbool; simpl; lia.
Qed.

(** Any result of a call on a window within the array is a reordering of
    that window. *)
Lemma kesimoMinimo_Ok_reordered budget arr l r k v arr' :
  (1 ≤ k ≤ r - l + 1 → 0 ≤ l ∧ r < len arr) →
  kesimoMinimo budget arr l r k = Ok (v, arr') →
  reordered l r arr arr'.
Proof.
  intros Hwin Hrun.
  destruct (decide (1 ≤ k ≤ r - l + 1)) as [Hk|Hk].
  - destruct (Hwin Hk) as [Hl Hr].
    destruct (kesimoMinimo_spec (budget + Z.to_nat (r - l + 1)) arr l r k)
      as (v1 & arr1 & Hrun1 & Hre & _); [lia..|].
    apply (kesimoMinimo_mono_le _ (budget + Z.to_nat (r - l + 1))) in Hrun; [|lia].
    rewrite Hrun in Hrun1. inversion Hrun1; subst. done.
  - destruct budget as [|budget]; [done|].
    rewrite kesimoMinimo_invalid in Hrun by done.
    inversion Hrun; subst. apply reordered_refl.
Qed.

Lemma get_reordered l r arr arr' i :
  reordered l r arr arr' → i < l ∨ r < i → Arr.get arr' i = Arr.get arr i.
Proof.
  intros Hre Hi. pose proof (reordered_length _ _ _ _ Hre) as Hlen.
  destruct Hre as [_ Hf].
  destruct (decide (0 ≤ i < len arr)) as [Hin|Hout].
  - rewrite !get_sel by lia. f_equal. by apply Hf.
  - unfold Arr.get. zbool; [|done].
    rewrite !lookup_ge_None_2 by lia. done.
Qed.

Lemma kesimoMinimo_medOfMed_pivot rec w :
  kesimoMinimo_medOfMed rec (medians_buffer w) (len (medians_buffer w)) = pivot_of rec w.
Proof.
  unfold kesimoMinimo_medOfMed, pivot_of. cbv zeta.
  destruct (Z.eqb_spec (len (medians_buffer w)) 1) as [Hg|Hg].
  - apply get_sel. lia.
  - replace ((len (medians_buffer w) + 1) ÷ 2) with ((len (medians_buffer w) + 1) / 2) by lia.
    by destruct (rec _ _ _ _) as [[m ?]| |].
Qed.

(** The steps of a call with a valid rank, one after the other. *)
Lemma kesimoMinimo_steps budget arr l r k :
  0 ≤ l → r < len arr → 1 ≤ k ≤ r - l + 1 → r - l + 1 ≤ Z.of_nat (S budget) →
  ∃ arr1 pivot pos arr2,
    kesimoMinimo_medians arr l (r - l + 1) =
      Ok (arr1, medians_buffer (window arr l r), (r - l + 1 + 4) / 5) ∧
    pivot_of (kesimoMinimo budget) (window arr l r) = Ok pivot ∧
    particionar arr1 l r pivot = Ok (pos, arr2) ∧
    l ≤ pos ≤ r ∧ length arr2 = length arr ∧ Arr.sel arr2 pos = pivot.
Proof.
  intros Hl Hr Hk Hbudget.
  destruct (kesimoMinimo_medians_spec arr l (r - l + 1)) as (a1 & Hmed & Hre1 & _); [lia..|].
  replace (l + (r - l + 1) - 1) with r in * by lia.
  pose proof (reordered_length _ _ _ _ Hre1) as Hla1.
  set (meds := medians_buffer (window arr l r)) in *.
  assert (Hg : len meds = (r - l + 1 + 4) / 5).
  { unfold meds. rewrite length_medians_buffer, length_window by lia. f_equal. lia. }
  assert (∃ m, pivot_of (kesimoMinimo budget) (window arr l r) = Ok m ∧ m ∈ meds)
    as (m & Hpiv & Hm).
  { unfold pivot_of. fold meds. cbv zeta. zbool.
    - eexists. split; [done|].
      apply list_elem_of_lookup. eexists. apply lookup_sel. lia.
    - destruct (kesimoMinimo_spec budget meds 0 (len meds - 1) ((len meds + 1) / 2))
        as (v & meds' & -> & _ & ->); [lia..|].
      eexists. split; [done|]. rewrite window_all. apply kth_smallest_elem. lia. }
  assert (Hocc : occurs a1 l r m).
  { apply occurs_window; [lia..|]. rewrite (reordered_window l r arr a1) by done.
    by apply medians_buffer_elem. }
  destruct (particionar_spec a1 l r m) as (pos & a2 & Hpart & Hpos & Hre2 & Hsel & _);
    [lia..|done|].
  exists a1, m, pos, a2. repeat split; try done; try lia.
  by rewrite (reordered_length _ _ _ _ Hre2).
Qed.

Lemma kesimoMinimo_unfold budget arr l r k arr1 :
  1 ≤ k ≤ r - l + 1 →
  kesimoMinimo_medians arr l (r - l + 1) =
    Ok (arr1, medians_buffer (window arr l r), (r - l + 1 + 4) / 5) →
  len (medians_buffer (window arr l r)) = (r - l + 1 + 4) / 5 →
  kesimoMinimo (S budget) arr l r k =
    (pivot ← pivot_of (kesimoMinimo budget) (window arr l r);
     '(pos, arr2) ← particionar arr1 l r pivot;
     kesimoMinimo_lado (kesimoMinimo budget) arr2 l r k pos).
Proof.
  intros Hk Hmed Hg. simpl. unfold kesimoMinimo_body.
  replace ((k >? 0) && (k <=? r - l + 1)) with true by (zbool; simpl; lia).
  rewrite Hmed, bind_Ok. cbv beta iota.
  by rewrite <- Hg, kesimoMinimo_medOfMed_pivot.
Qed.

(** ** [int] arithmetic *)

Lemma eqm32_mod x y : eqm32 x y ↔ x mod 4294967296 = y mod 4294967296.
Proof. unfold eqm32, wrap. lia. Qed.

Global Instance eqm32_equiv : Equivalence eqm32.
Proof.
  split.
  - by intros x.
  - by intros x y.
  - intros x y z. unfold eqm32. congruence.
Qed.

Lemma wrap_eqm32 x : eqm32 (wrap x) x.
Proof. unfold eqm32, wrap. lia. Qed.

Global Instance add_eqm32 : Proper (eqm32 ==> eqm32 ==> eqm32) Z.add.
Proof. intros x x' Hx y y' Hy. rewrite eqm32_mod in *. lia. Qed.

Global Instance sub_eqm32 : Proper (eqm32 ==> eqm32 ==> eqm32) Z.sub.
Proof. intros x x' Hx y y' Hy. rewrite eqm32_mod in *. lia. Qed.

Global Instance mul_eqm32 : Proper (eqm32 ==> eqm32 ==> eqm32) Z.mul.
Proof.
  intros x x' Hx y y' Hy. rewrite eqm32_mod in *.
  rewrite (Z.mul_mod x y), (Z.mul_mod x' y') by done. by rewrite Hx, Hy.
Qed.

Lemma wrap_small x : INT_MIN ≤ x ≤ INT_MAX → wrap x = x.
Proof. unfold wrap, INT_MIN, INT_MAX. lia. Qed.

(** ** Sums *)

Lemma sum_to_ext k f g :
  (∀ t, 0 ≤ t < Z.of_nat k → f t = g t) → sum_to k f = sum_to k g.
Proof.
  induction k as [|k IH]; intros Hfg; simpl; [done|].
  rewrite IH, Hfg; [done|lia|]. intros t Ht. apply Hfg. lia.
Qed.

Lemma sum_to_eqm32 k f g :
  (∀ t, 0 ≤ t < Z.of_nat k → eqm32 (f t) (g t)) → eqm32 (sum_to k f) (sum_to k g).
Proof.
  induction k as [|k IH]; intros Hfg; simpl; [done|].
  rewrite IH, Hfg; [done|lia|]. intros t Ht. apply Hfg. lia.
Qed.

Lemma sum_to_add k f g : sum_to k (fun t => f t + g t) = sum_to k f + sum_to k g.
Proof. induction k as [|k IH]; simpl; [done|]. rewrite IH. lia. Qed.

Lemma sum_to_sub k f g : sum_to k (fun t => f t - g t) = sum_to k f - sum_to k g.
Proof. induction k as [|k IH]; simpl; [done|]. rewrite IH. lia. Qed.

Lemma sum_to_split k f :
  sum_to (k + k) f = sum_to k f + sum_to k (fun t => f (t + Z.of_nat k)).
Proof.
  assert (∀ m, sum_to (k + m) f = sum_to k f + sum_to m (fun t => f (t + Z.of_nat k))) as H.
  { induction m as [|m IH]; simpl.
    - rewrite Nat.add_0_r. lia.
    - rewrite Nat.add_succ_r. simpl. rewrite IH.
      replace (Z.of_nat (k + m)) with (Z.of_nat m + Z.of_nat k) by lia. lia. }
  apply H.
Qed.

(** ** Matrices *)

Lemma shape_row n M i :
  shape n M → 0 ≤ i < n → ∃ row, M !! Z.to_nat i = Some row ∧ length row = Z.to_nat n.
Proof.
  intros [Hlen Hrows] Hi.
  destruct (lookup_lt_is_Some_2 M (Z.to_nat i)) as [row Hrow]; [lia|].
  exists row. split; [done|]. by apply (Forall_lookup_1 _ _ _ _ Hrows Hrow).
Qed.

Lemma cell_row M i j row :
  0 ≤ i → M !! Z.to_nat i = Some row → Mat.cell M i j = Arr.sel row j.
Proof.
  intros Hi Hrow. unfold Mat.cell, Mat.get, Arr.sel.
  destruct (Z.leb_spec 0 i); [|lia]. by rewrite Hrow.
Qed.

Lemma mat_get_cell n M i j :
  shape n M → 0 ≤ i < n → 0 ≤ j < n → Mat.get M i j = Ok (Mat.cell M i j).
Proof.
  intros HM Hi Hj. destruct (shape_row n M i HM Hi) as (row & Hrow & Hlen).
  rewrite (cell_row M i j row) by (done || lia).
  unfold Mat.get. destruct (Z.leb_spec 0 i); [|lia]. rewrite Hrow.
  apply get_sel. lia.
Qed.

Lemma mat_set_spec n M i j v :
  shape n M → 0 ≤ i < n → 0 ≤ j < n →
  ∃ M',
    Mat.set M i j v = Ok M' ∧ shape n M' ∧
    ∀ i' j', Mat.cell M' i' j' = if decide (i' = i ∧ j' = j) then v else Mat.cell M i' j'.
Proof.
  intros HM Hi Hj. destruct (shape_row n M i HM Hi) as (row & Hrow & Hlen).
  exists (<[Z.to_nat i := upd row j v]> M). split; [|split].
  - unfold Mat.set. destruct (Z.leb_spec 0 i); [|lia]. rewrite Hrow.
    by rewrite set_upd, bind_Ok by lia.
  - destruct HM as [HlenM Hrows]. split; [by rewrite length_insert|].
    apply Forall_insert; [done|]. by rewrite length_upd.
  - intros i' j'. destruct (Z.lt_ge_cases i' 0) as [Hneg|Hpos].
    { rewrite decide_False by lia. unfold Mat.cell, Mat.get.
      by destruct (Z.leb_spec 0 i'); [lia|]. }
    destruct (decide (i' = i)) as [->|Hne].
    + rewrite (cell_row _ i j' (upd row j v)); [|lia|].
      2:{ apply list_lookup_insert_eq. destruct HM. lia. }
      rewrite (cell_row M i j' row) by (done || lia).
      rewrite sel_upd by lia. repeat case_decide; try done; lia.
    + rewrite decide_False by lia. unfold Mat.cell, Mat.get.
      destruct (Z.leb_spec 0 i'); [|done].
      by rewrite list_lookup_insert_ne by lia.
Qed.

Lemma shape_alocarMatriz n : 0 ≤ n → shape n (alocarMatriz n).
Proof.
  intros Hn. unfold alocarMatriz. split; [by rewrite length_replicate|].
  apply Forall_replicate. by rewrite length_replicate.
Qed.

Lemma filled_init h f M0 : shape h M0 → filled h f M0 0 0 M0.
Proof.
  intros HM. split; [done|]. intros i' j' Hi' Hj'.
  rewrite decide_False; [done|]. unfold before. lia.
Qed.

Lemma filled_step h f M0 i j M :
  filled h f M0 i j M → 0 ≤ i < h → 0 ≤ j < h →
  ∃ M', Mat.set M i j (f i j) = Ok M' ∧ filled h f M0 i (j + 1) M'.
Proof.
  intros [HM Hcells] Hi Hj.
  destruct (mat_set_spec h M i j (f i j)) as (M' & Hset & HM' & Hcells'); [done..|].
  exists M'. split; [done|]. split; [done|]. intros i' j' Hi' Hj'.
  rewrite Hcells', Hcells by done. unfold before.
  repeat case_decide; try done; try lia. by destruct H as [-> ->].
Qed.

Lemma filled_row h f M0 i M : filled h f M0 i h M → filled h f M0 (i + 1) 0 M.
Proof.
  intros [HM Hcells]. split; [done|]. intros i' j' Hi' Hj'.
  rewrite Hcells by done. unfold before. repeat case_decide; try done; lia.
Qed.

Lemma filled_done h f M0 M :
  filled h f M0 h 0 M →
  shape h M ∧ ∀ i j, 0 ≤ i < h → 0 ≤ j < h → Mat.cell M i j = f i j.
Proof.
  intros [HM Hcells]. split; [done|]. intros i j Hi Hj.
  rewrite Hcells by done. rewrite decide_True; [done|]. unfold before. lia.
Qed.

Lemma filled_current h f M0 i j M :
  filled h f M0 i j M → 0 ≤ i < h → 0 ≤ j < h → Mat.cell M i j = Mat.cell M0 i j.
Proof.
  intros [HM Hcells] Hi Hj. rewrite Hcells by done.
  rewrite decide_False; [done|]. unfold before. lia.
Qed.

(** ** The element-wise operations *)

Lemma elementwise_spec (op : Z → Z → Z) h A B C :
  0 ≤ h → operand_shape h A → operand_shape h B → shape h C →
  ∃ C',
    for_range 0 h (fun i C =>
      for_range 0 h (fun j C =>
        a ← operand_get A C i j;
        b ← operand_get B C i j;
        Mat.set C i j (wrap (op a b))) C) C = Ok C' ∧
    shape h C' ∧
    ∀ i j, 0 ≤ i < h → 0 ≤ j < h →
      Mat.cell C' i j = wrap (op (operand_cell A C i j) (operand_cell B C i j)).
Proof.
  intros Hh HA HB HC.
  set (f i j := wrap (op (operand_cell A C i j) (operand_cell B C i j))).
  assert (Hget : ∀ o i j M, operand_shape h o → filled h f C i j M →
            0 ≤ i < h → 0 ≤ j < h → operand_get o M i j = Ok (operand_cell o C i j)).
  { intros [M1|] i j M Ho HM Hi Hj; simpl.
    - by apply (mat_get_cell h).
    - rewrite (mat_get_cell h) by (done || apply HM).
      by rewrite (filled_current h f C i j M). }
  destruct (for_range_inv (fun i M => filled h f C i 0 M)
    (fun i C => for_range 0 h (fun j C =>
        a ← operand_get A C i j;
        b ← operand_get B C i j;
        Mat.set C i j (wrap (op a b))) C) 0 h C) as (C' & HC' & Hfilled); [done| |..].
  - by apply filled_init.
  - intros i M Hi HM.
    destruct (for_range_inv (fun j M => filled h f C i j M)
      (fun j C =>
        a ← operand_get A C i j;
        b ← operand_get B C i j;
        Mat.set C i j (wrap (op a b))) 0 h M) as (M' & HM' & Hfilled); [done|done| |].
    + intros j M1 Hj HM1.
      rewrite (Hget A i j M1), bind_Ok by done.
      rewrite (Hget B i j M1), bind_Ok by done.
      destruct (filled_step h f C i j M1) as (M2 & Hset & HM2); [done..|].
      exists M2. split; [exact Hset|done].
    + exists M'. split; [done|]. by apply (filled_row h f C).
  - exists C'. split; [done|]. by apply (filled_done h f C).
Qed.

Lemma somarMatrizes_spec h A B C :
  0 ≤ h → operand_shape h A → operand_shape h B → shape h C →
  ∃ C',
    somarMatrizes h A B C = Ok C' ∧ shape h C' ∧
    ∀ i j, 0 ≤ i < h → 0 ≤ j < h →
      Mat.cell C' i j = wrap (operand_cell A C i j + operand_cell B C i j).
Proof. apply (elementwise_spec Z.add). Qed.

Lemma subtrairMatrizes_spec h A B C :
  0 ≤ h → operand_shape h A → operand_shape h B → shape h C →
  ∃ C',
    subtrairMatrizes h A B C = Ok C' ∧ shape h C' ∧
    ∀ i j, 0 ≤ i < h → 0 ≤ j < h →
      Mat.cell C' i j = wrap (operand_cell A C i j - operand_cell B C i j).
Proof. apply (elementwise_spec Z.sub). Qed.

(** ** The quadrants *)

Lemma strassen_split_spec h A B :
  0 ≤ h → shape (2 * h) A → shape (2 * h) B →
  let zero := alocarMatriz h in
  ∃ A11 A12 A21 A22 B11 B12 B21 B22,
    strassen_split h A B (zero, zero, zero, zero, zero, zero, zero, zero) =
      Ok (A11, A12, A21, A22, B11, B12, B21, B22) ∧
    (shape h A11 ∧ shape h A12 ∧ shape h A21 ∧ shape h A22) ∧
    (shape h B11 ∧ shape h B12 ∧ shape h B21 ∧ shape h B22) ∧
    ∀ i j, 0 ≤ i < h → 0 ≤ j < h →
      (Mat.cell A11 i j = Mat.cell A i j ∧ Mat.cell A12 i j = Mat.cell A i (j + h) ∧
       Mat.cell A21 i j = Mat.cell A (i + h) j ∧
       Mat.cell A22 i j = Mat.cell A (i + h) (j + h)) ∧
      (Mat.cell B11 i j = Mat.cell B i j ∧ Mat.cell B12 i j = Mat.cell B i (j + h) ∧
       Mat.cell B21 i j = Mat.cell B (i + h) j ∧
       Mat.cell B22 i j = Mat.cell B (i + h) (j + h)).
Proof.
  intros Hh HA HB zero.
  assert (Hzero : shape h zero) by by apply shape_alocarMatriz.
  set (inv (i j : Z) (q : quadrants) :=
    let '(A11, A12, A21, A22, B11, B12, B21, B22) := q in
    (filled h (fun i j => Mat.cell A i j) zero i j A11 ∧
     filled h (fun i j => Mat.cell A i (j + h)) zero i j A12 ∧
     filled h (fun i j => Mat.cell A (i + h) j) zero i j A21 ∧
     filled h (fun i j => Mat.cell A (i + h) (j + h)) zero i j A22) ∧
    (filled h (fun i j => Mat.cell B i j) zero i j B11 ∧
     filled h (fun i j => Mat.cell B i (j + h)) zero i j B12 ∧
     filled h (fun i j => Mat.cell B (i + h) j) zero i j B21 ∧
     filled h (fun i j => Mat.cell B (i + h) (j + h)) zero i j B22)).
  unfold strassen_split.
  destruct (for_range_inv (fun i q => inv i 0 q)
    (fun i q => for_range 0 h (fun j '(A11, A12, A21, A22, B11, B12, B21, B22) =>
      v ← Mat.get A i j; A11 ← Mat.set A11 i j v;
      v ← Mat.get A i (j + h); A12 ← Mat.set A12 i j v;
      v ← Mat.get A (i + h) j; A21 ← Mat.set A21 i j v;
      v ← Mat.get A (i + h) (j + h); A22 ← Mat.set A22 i j v;
      v ← Mat.get B i j; B11 ← Mat.set B11 i j v;
      v ← Mat.get B i (j + h); B12 ← Mat.set B12 i j v;
      v ← Mat.get B (i + h) j; B21 ← Mat.set B21 i j v;
      v ← Mat.get B (i + h) (j + h); B22 ← Mat.set B22 i j v;
      Ok (A11, A12, A21, A22, B11, B12, B21, B22)) q)
    0 h (zero, zero, zero, zero, zero, zero, zero, zero))
    as ([[[[[[[A11 A12] A21] A22] B11] B12] B21] B22] & Hrun & HinvA & HinvB); [done| |..].
  - split; (split; [|split; [|split]]); by apply filled_init.
  - intros i q Hi Hq.
    destruct (for_range_inv (fun j q => inv i j q)
      (fun j '(A11, A12, A21, A22, B11, B12, B21, B22) =>
        v ← Mat.get A i j; A11 ← Mat.set A11 i j v;
        v ← Mat.get A i (j + h); A12 ← Mat.set A12 i j v;
        v ← Mat.get A (i + h) j; A21 ← Mat.set A21 i j v;
        v ← Mat.get A (i + h) (j + h); A22 ← Mat.set A22 i j v;
        v ← Mat.get B i j; B11 ← Mat.set B11 i j v;
        v ← Mat.get B i (j + h); B12 ← Mat.set B12 i j v;
        v ← Mat.get B (i + h) j; B21 ← Mat.set B21 i j v;
        v ← Mat.get B (i + h) (j + h); B22 ← Mat.set B22 i j v;
        Ok (A11, A12, A21, A22, B11, B12, B21, B22)) 0 h q)
      as ([[[[[[[M1 M2] M3] M4] M5] M6] M7] M8] & Hrun & HinvA & HinvB); [done|done| |].
    + intros j [[[[[[[M1 M2] M3] M4] M5] M6] M7] M8] Hj
        [(H1 & H2 & H3 & H4) (H5 & H6 & H7 & H8)].
      destruct (filled_step _ _ _ _ _ _ H1 Hi Hj) as (N1 & E1 & F1).
      destruct (filled_step _ _ _ _ _ _ H2 Hi Hj) as (N2 & E2 & F2).
      destruct (filled_step _ _ _ _ _ _ H3 Hi Hj) as (N3 & E3 & F3).
      destruct (filled_step _ _ _ _ _ _ H4 Hi Hj) as (N4 & E4 & F4).
      destruct (filled_step _ _ _ _ _ _ H5 Hi Hj) as (N5 & E5 & F5).
      destruct (filled_step _ _ _ _ _ _ H6 Hi Hj) as (N6 & E6 & F6).
      destruct (filled_step _ _ _ _ _ _ H7 Hi Hj) as (N7 & E7 & F7).
      destruct (filled_step _ _ _ _ _ _ H8 Hi Hj) as (N8 & E8 & F8).
      exists (N1, N2, N3, N4, N5, N6, N7, N8).
      split; [|split; (split; [|split; [|split]]); assumption].
      rewrite (mat_get_cell (2 * h) A i j), bind_Ok, E1, bind_Ok by (done || lia).
      rewrite (mat_get_cell (2 * h) A i (j + h)), bind_Ok, E2, bind_Ok by (done || lia).
      rewrite (mat_get_cell (2 * h) A (i + h) j), bind_Ok, E3, bind_Ok by (done || lia).
      rewrite (mat_get_cell (2 * h) A (i + h) (j + h)), bind_Ok, E4, bind_Ok by (done || lia).
      rewrite (mat_get_cell (2 * h) B i j), bind_Ok, E5, bind_Ok by (done || lia).
      rewrite (mat_get_cell (2 * h) B i (j + h)), bind_Ok, E6, bind_Ok by (done || lia).
      rewrite (mat_get_cell (2 * h) B (i + h) j), bind_Ok, E7, bind_Ok by (done || lia).
      rewrite (mat_get_cell (2 * h) B (i + h) (j + h)), bind_Ok, E8, bind_Ok by (done || lia).
      done.
    + eexists. split; [exact Hrun|].
      destruct HinvA as (H1 & H2 & H3 & H4). destruct HinvB as (H5 & H6 & H7 & H8).
      split; (split; [|split; [|split]]); by apply filled_row.
  - destruct HinvA as (H1 & H2 & H3 & H4). destruct HinvB as (H5 & H6 & H7 & H8).
    apply filled_done in H1 as [? H1], H2 as [? H2], H3 as [? H3], H4 as [? H4].
    apply filled_done in H5 as [? H5], H6 as [? H6], H7 as [? H7], H8 as [? H8].
    exists A11, A12, A21, A22, B11, B12, B21, B22.
    split; [done|]. split; [done|]. split; [done|].
    intros i j Hi Hj. rewrite H1, H2, H3, H4, H5, H6, H7, H8 by done. done.
Qed.

Lemma strassen_join_spec h C11 C12 C21 C22 C :
  0 ≤ h → shape h C11 → shape h C12 → shape h C21 → shape h C22 → shape (2 * h) C →
  ∃ C',
    strassen_join h C11 C12 C21 C22 C = Ok C' ∧ shape (2 * h) C' ∧
    ∀ i j, 0 ≤ i < h → 0 ≤ j < h →
      Mat.cell C' i j = Mat.cell C11 i j ∧
      Mat.cell C' i (j + h) = Mat.cell C12 i j ∧
      Mat.cell C' (i + h) j = Mat.cell C21 i j ∧
      Mat.cell C' (i + h) (j + h) = Mat.cell C22 i j.
Proof.
  intros Hh H11 H12 H21 H22 HC.
  set (inv (i j : Z) (M : matrix) :=
    shape (2 * h) M ∧
    ∀ i' j', 0 ≤ i' < h → 0 ≤ j' < h → before i j i' j' →
      Mat.cell M i' j' = Mat.cell C11 i' j' ∧
      Mat.cell M i' (j' + h) = Mat.cell C12 i' j' ∧
      Mat.cell M (i' + h) j' = Mat.cell C21 i' j' ∧
      Mat.cell M (i' + h) (j' + h) = Mat.cell C22 i' j').
  unfold strassen_join.
  destruct (for_range_inv (fun i M => inv i 0 M)
    (fun i C => for_range 0 h (fun j C =>
      v ← Mat.get C11 i j; C ← Mat.set C i j v;
      v ← Mat.get C12 i j; C ← Mat.set C i (j + h) v;
      v ← Mat.get C21 i j; C ← Mat.set C (i + h) j v;
      v ← Mat.get C22 i j; Mat.set C (i + h) (j + h) v) C) 0 h C)
    as (C' & Hrun & HC' & Hcells); [done| |..].
  - split; [done|]. unfold before. intros; lia.
  - intros i M Hi HM.
    destruct (for_range_inv (fun j M => inv i j M)
      (fun j C =>
        v ← Mat.get C11 i j; C ← Mat.set C i j v;
        v ← Mat.get C12 i j; C ← Mat.set C i (j + h) v;
        v ← Mat.get C21 i j; C ← Mat.set C (i + h) j v;
        v ← Mat.get C22 i j; Mat.set C (i + h) (j + h) v) 0 h M)
      as (M' & Hrun & HM' & Hcells); [done|done| |].
    + intros j M0 Hj [HM0 Hcells].
      destruct (mat_set_spec (2 * h) M0 i j (Mat.cell C11 i j))
        as (M1 & E1 & HM1 & Hc1); [done|lia..|].
      destruct (mat_set_spec (2 * h) M1 i (j + h) (Mat.cell C12 i j))
        as (M2 & E2 & HM2 & Hc2); [done|lia..|].
      destruct (mat_set_spec (2 * h) M2 (i + h) j (Mat.cell C21 i j))
        as (M3 & E3 & HM3 & Hc3); [done|lia..|].
      destruct (mat_set_spec (2 * h) M3 (i + h) (j + h) (Mat.cell C22 i j))
        as (M4 & E4 & HM4 & Hc4); [done|lia..|].
      exists M4. split.
      { rewrite (mat_get_cell h C11 i j), bind_Ok, E1, bind_Ok by done.
        rewrite (mat_get_cell h C12 i j), bind_Ok, E2, bind_Ok by done.
        rewrite (mat_get_cell h C21 i j), bind_Ok, E3, bind_Ok by done.
        by rewrite (mat_get_cell h C22 i j), bind_Ok, E4 by done. }
      split; [done|]. intros i' j' Hi' Hj' Hbefore.
      destruct (decide (i' = i ∧ j' = j)) as [[-> ->]|Hne].
      * split; [|split; [|split]]; rewrite Hc4, Hc3, Hc2, Hc1;
          repeat case_decide; try lia; done.
      * destruct (Hcells i' j') as (G1 & G2 & G3 & G4); [done..|unfold before in *; lia|].
        split; [|split; [|split]]; rewrite Hc4, Hc3, Hc2, Hc1;
          repeat case_decide; try lia; done.
    + exists M'. split; [done|]. split; [done|].
      intros i' j' Hi' Hj' Hbefore. apply Hcells; [done..|].
      unfold before in *. lia.
  - exists C'. split; [done|]. split; [done|].
    intros i j Hi Hj. apply Hcells; [done..|]. unfold before. lia.
Qed.

(** ** [strassen] *)

(** The seven products recombined are the four quadrants of the product,
    entry by entry. *)
Lemma strassen_recombination k (a11 a12 a21 a22 b11 b12 b21 b22 : Z → Z)
    (p1 p2 p3 p4 p5 p6 p7 : Z) :
  eqm32 p1 (sum_to k (fun t => a11 t * (b12 t - b22 t))) →
  eqm32 p2 (sum_to k (fun t => (a11 t + a12 t) * b22 t)) →
  eqm32 p3 (sum_to k (fun t => (a21 t + a22 t) * b11 t)) →
  eqm32 p4 (sum_to k (fun t => a22 t * (b21 t - b11 t))) →
  eqm32 p5 (sum_to k (fun t => (a11 t + a22 t) * (b11 t + b22 t))) →
  eqm32 p6 (sum_to k (fun t => (a12 t - a22 t) * (b21 t + b22 t))) →
  eqm32 p7 (sum_to k (fun t => (a11 t - a21 t) * (b11 t + b12 t))) →
  eqm32 (wrap (wrap (p5 + p4) - p2) + p6)
        (sum_to k (fun t => a11 t * b11 t) + sum_to k (fun t => a12 t * b21 t)) ∧
  eqm32 (p1 + p2)
        (sum_to k (fun t => a11 t * b12 t) + sum_to k (fun t => a12 t * b22 t)) ∧
  eqm32 (p3 + p4)
        (sum_to k (fun t => a21 t * b11 t) + sum_to k (fun t => a22 t * b21 t)) ∧
  eqm32 (wrap (wrap (p5 + p1) - p3) - p7)
        (sum_to k (fun t => a21 t * b12 t) + sum_to k (fun t => a22 t * b22 t)).
Proof.
  intros H1 H2 H3 H4 H5 H6 H7.
  split; [|split; [|split]]; rewrite ?wrap_eqm32.
  - rewrite H5, H4, H2, H6. apply reflexive_eq.
    repeat first [rewrite <- sum_to_add|rewrite <- sum_to_sub].
    apply sum_to_ext. intros t _. ring.
  - rewrite H1, H2. apply reflexive_eq.
    rewrite <- !sum_to_add. apply sum_to_ext. intros t _. ring.
  - rewrite H3, H4. apply reflexive_eq.
    rewrite <- !sum_to_add. apply sum_to_ext. intros t _. ring.
  - rewrite H5, H1, H3, H7. apply reflexive_eq.
    repeat first [rewrite <- sum_to_add|rewrite <- sum_to_sub].
    apply sum_to_ext. intros t _. ring.
Qed.

(** A product the recursion has computed, in terms of the cells of its
    factors. *)
Lemma product_cell h P X Y (fx fy : Z → Z) i j :
  Mat.cell P i j = wrap (naive_product h X Y i j) →
  (∀ t, 0 ≤ t < h → eqm32 (Mat.cell X i t) (fx t)) →
  (∀ t, 0 ≤ t < h → eqm32 (Mat.cell Y t j) (fy t)) →
  eqm32 (Mat.cell P i j) (sum_to (Z.to_nat h) (fun t => fx t * fy t)).
Proof.
  intros -> Hx Hy. rewrite wrap_eqm32. unfold naive_product.
  apply sum_to_eqm32. intros t Ht. rewrite Hx, Hy by lia. done.
Qed.

Lemma strassen_unfold budget n A B C :
  strassen (S budget) n A B C = strassen_body (strassen budget) n A B C.
Proof. done. Qed.

Lemma strassen_spec p : ∀ budget A B C,
  (p < budget)%nat →
  shape (2 ^ Z.of_nat p) A → shape (2 ^ Z.of_nat p) B → shape (2 ^ Z.of_nat p) C →
  ∃ C',
    strassen budget (2 ^ Z.of_nat p) A B C = Ok C' ∧
    shape (2 ^ Z.of_nat p) C' ∧
    ∀ i j, 0 ≤ i < 2 ^ Z.of_nat p → 0 ≤ j < 2 ^ Z.of_nat p →
      Mat.cell C' i j = wrap (naive_product (2 ^ Z.of_nat p) A B i j).
Proof.
  induction p as [|p IH]; intros budget A B C Hbudget HA HB HC;
    (destruct budget as [|budget]; [lia|]);
    rewrite strassen_unfold; unfold strassen_body.
  - (* [n == 1] *)
    change (2 ^ Z.of_nat 0) with 1 in *. change (1 =? 1) with true. cbv iota.
    rewrite (mat_get_cell 1 A 0 0), bind_Ok by (done || lia).
    rewrite (mat_get_cell 1 B 0 0), bind_Ok by (done || lia).
    destruct (mat_set_spec 1 C 0 0 (wrap (Mat.cell A 0 0 * Mat.cell B 0 0)))
      as (C' & -> & HC' & Hcells); [done|lia..|].
    exists C'. split; [done|]. split; [done|]. intros i j Hi Hj.
    assert (i = 0) as -> by lia. assert (j = 0) as -> by lia.
    rewrite Hcells, decide_True by done. unfold naive_product. simpl. done.
  - set (h := 2 ^ Z.of_nat p) in *.
    assert (Hh : 1 ≤ h) by (unfold h; lia).
    replace (2 ^ Z.of_nat (S p)) with (2 * h) in *
      by (unfold h; rewrite Nat2Z.inj_succ, Z.pow_succ_r; lia).
    replace (2 * h =? 1) with false by (symmetry; apply Z.eqb_neq; lia).
    cbv zeta iota. replace (2 * h ÷ 2) with h by lia.
    set (zero := alocarMatriz h).
    assert (Hzero : shape h zero) by (apply shape_alocarMatriz; lia).
    destruct (strassen_split_spec h A B)
      as (A11 & A12 & A21 & A22 & B11 & B12 & B21 & B22 & Hsplit &
          (HsA11 & HsA12 & HsA21 & HsA22) & (HsB11 & HsB12 & HsB21 & HsB22) & Hq);
      [lia|done..|].
    fold zero in Hsplit. rewrite Hsplit, bind_Ok. cbv beta iota. clear Hsplit.
    destruct (subtrairMatrizes_spec h (Other B12) (Other B22) zero)
      as (S1 & -> & HsS1 & HS1); [lia|done..|]. rewrite bind_Ok.
    destruct (IH budget A11 S1 zero) as (P1 & -> & HsP1 & HP1); [lia|done..|].
    rewrite bind_Ok.
    destruct (somarMatrizes_spec h (Other A11) (Other A12) zero)
      as (S2 & -> & HsS2 & HS2); [lia|done..|]. rewrite bind_Ok.
    destruct (IH budget S2 B22 zero) as (P2 & -> & HsP2 & HP2); [lia|done..|].
    rewrite bind_Ok.
    destruct (somarMatrizes_spec h (Other A21) (Other A22) zero)
      as (S3 & -> & HsS3 & HS3); [lia|done..|]. rewrite bind_Ok.
    destruct (IH budget S3 B11 zero) as (P3 & -> & HsP3 & HP3); [lia|done..|].
    rewrite bind_Ok.
    destruct (subtrairMatrizes_spec h (Other B21) (Other B11) zero)
      as (S4 & -> & HsS4 & HS4); [lia|done..|]. rewrite bind_Ok.
    destruct (IH budget A22 S4 zero) as (P4 & -> & HsP4 & HP4); [lia|done..|].
    rewrite bind_Ok.
    destruct (somarMatrizes_spec h (Other A11) (Other A22) zero)
      as (S5 & -> & HsS5 & HS5); [lia|done..|]. rewrite bind_Ok.
    destruct (somarMatrizes_spec h (Other B11) (Other B22) zero)
      as (S6 & -> & HsS6 & HS6); [lia|done..|]. rewrite bind_Ok.
    destruct (IH budget S5 S6 zero) as (P5 & -> & HsP5 & HP5); [lia|done..|].
    rewrite bind_Ok.
    destruct (subtrairMatrizes_spec h (Other A12) (Other A22) zero)
      as (S7 & -> & HsS7 & HS7); [lia|done..|]. rewrite bind_Ok.
    destruct (somarMatrizes_spec h (Other B21) (Other B22) zero)
      as (S8 & -> & HsS8 & HS8); [lia|done..|]. rewrite bind_Ok.
    destruct (IH budget S7 S8 zero) as (P6 & -> & HsP6 & HP6); [lia|done..|].
    rewrite bind_Ok.
    destruct (subtrairMatrizes_spec h (Other A11) (Other A21) zero)
      as (S9 & -> & HsS9 & HS9); [lia|done..|]. rewrite bind_Ok.
    destruct (somarMatrizes_spec h (Other B11) (Other B12) zero)
      as (S10 & -> & HsS10 & HS10); [lia|done..|]. rewrite bind_Ok.
    destruct (IH budget S9 S10 zero) as (P7 & -> & HsP7 & HP7); [lia|done..|].
    rewrite bind_Ok.
    destruct (somarMatrizes_spec h (Other P5) (Other P4) zero)
      as (C11a & -> & HsC11a & HC11a); [lia|done..|]. rewrite bind_Ok.
    destruct (subtrairMatrizes_spec h Dest (Other P2) C11a)
      as (C11b & -> & HsC11b & HC11b); [lia|done..|]. rewrite bind_Ok.
    destruct (somarMatrizes_spec h Dest (Other P6) C11b)
      as (C11 & -> & HsC11 & HC11); [lia|done..|]. rewrite bind_Ok.
    destruct (somarMatrizes_spec h (Other P1) (Other P2) zero)
      as (C12 & -> & HsC12 & HC12); [lia|done..|]. rewrite bind_Ok.
    destruct (somarMatrizes_spec h (Other P3) (Other P4) zero)
      as (C21 & -> & HsC21 & HC21); [lia|done..|]. rewrite bind_Ok.
    destruct (somarMatrizes_spec h (Other P5) (Other P1) zero)
      as (C22a & -> & HsC22a & HC22a); [lia|done..|]. rewrite bind_Ok.
    destruct (subtrairMatrizes_spec h Dest (Other P3) C22a)
      as (C22b & -> & HsC22b & HC22b); [lia|done..|]. rewrite bind_Ok.
    destruct (subtrairMatrizes_spec h Dest (Other P7) C22b)
      as (C22 & -> & HsC22 & HC22); [lia|done..|]. rewrite bind_Ok.
    destruct (strassen_join_spec h C11 C12 C21 C22 C)
      as (C' & -> & HsC' & HC'); [lia|done..|].
    exists C'. split; [done|]. split; [done|].
    simpl operand_cell in *.
    (* the four entries that come from the cells [(i, j)] of the quadrants *)
    assert (Hentries : ∀ i j, 0 ≤ i < h → 0 ≤ j < h →
      Mat.cell C11 i j = wrap (naive_product (2 * h) A B i j) ∧
      Mat.cell C12 i j = wrap (naive_product (2 * h) A B i (j + h)) ∧
      Mat.cell C21 i j = wrap (naive_product (2 * h) A B (i + h) j) ∧
      Mat.cell C22 i j = wrap (naive_product (2 * h) A B (i + h) (j + h))).
    { intros i j Hi Hj.
      assert (Hqi : ∀ t, 0 ≤ t < h →
        (Mat.cell A11 i t = Mat.cell A i t ∧ Mat.cell A12 i t = Mat.cell A i (t + h) ∧
         Mat.cell A21 i t = Mat.cell A (i + h) t ∧
         Mat.cell A22 i t = Mat.cell A (i + h) (t + h))) by (intros t Ht; by apply Hq).
      assert (Hqj : ∀ t, 0 ≤ t < h →
        (Mat.cell B11 t j = Mat.cell B t j ∧ Mat.cell B12 t j = Mat.cell B t (j + h) ∧
         Mat.cell B21 t j = Mat.cell B (t + h) j ∧
         Mat.cell B22 t j = Mat.cell B (t + h) (j + h))) by (intros t Ht; by apply Hq).
      unfold naive_product.
      replace (Z.to_nat (2 * h)) with (Z.to_nat h + Z.to_nat h)%nat by lia.
      rewrite !sum_to_split. replace (Z.of_nat (Z.to_nat h)) with h by lia.
      rewrite HC11, HC11b, HC11a, HC12, HC21, HC22, HC22b, HC22a by done.
      apply strassen_recombination.
      - apply (product_cell h P1 A11 S1); [by apply HP1|..]; intros t Ht.
        + destruct (Hqi t Ht) as (-> & _). done.
        + rewrite HS1, wrap_eqm32 by done. destruct (Hqj t Ht) as (_ & -> & _ & ->). done.
      - apply (product_cell h P2 S2 B22 (fun t => _ + _)); [by apply HP2|..]; intros t Ht.
        + rewrite HS2, wrap_eqm32 by done. destruct (Hqi t Ht) as (-> & -> & _). done.
        + destruct (Hqj t Ht) as (_ & _ & _ & ->). done.
      - apply (product_cell h P3 S3 B11 (fun t => _ + _)); [by apply HP3|..]; intros t Ht.
        + rewrite HS3, wrap_eqm32 by done. destruct (Hqi t Ht) as (_ & _ & -> & ->). done.
        + destruct (Hqj t Ht) as (-> & _). done.
      - apply (product_cell h P4 A22 S4 _ (fun t => _ - _)); [by apply HP4|..]; intros t Ht.
        + destruct (Hqi t Ht) as (_ & _ & _ & ->). done.
        + rewrite HS4, wrap_eqm32 by done. destruct (Hqj t Ht) as (-> & _ & -> & _). done.
      - apply (product_cell h P5 S5 S6 (fun t => _ + _) (fun t => _ + _));
          [by apply HP5|..]; intros t Ht.
        + rewrite HS5, wrap_eqm32 by done. destruct (Hqi t Ht) as (-> & _ & _ & ->). done.
        + rewrite HS6, wrap_eqm32 by done. destruct (Hqj t Ht) as (-> & _ & _ & ->). done.
      - apply (product_cell h P6 S7 S8 (fun t => _ - _) (fun t => _ + _));
          [by apply HP6|..]; intros t Ht.
        + rewrite HS7, wrap_eqm32 by done. destruct (Hqi t Ht) as (_ & -> & _ & ->). done.
        + rewrite HS8, wrap_eqm32 by done. destruct (Hqj t Ht) as (_ & _ & -> & ->). done.
      - apply (product_cell h P7 S9 S10 (fun t => _ - _) (fun t => _ + _));
          [by apply HP7|..]; intros t Ht.
        + rewrite HS9, wrap_eqm32 by done. destruct (Hqi t Ht) as (-> & _ & -> & _). done.
        + rewrite HS10, wrap_eqm32 by done. destruct (Hqj t Ht) as (-> & -> & _). done. }
    intros i j Hi Hj.
    destruct (Z.lt_ge_cases i h) as [Hih|Hih]; destruct (Z.lt_ge_cases j h) as [Hjh|Hjh].
    + destruct (HC' i j) as (-> & _); [lia..|]. apply Hentries; lia.
    + destruct (HC' i (j - h)) as (_ & E & _); [lia..|].
      replace (j - h + h) with j in E by lia. rewrite E.
      destruct (Hentries i (j - h)) as (_ & -> & _); [lia..|]. do 2 f_equal. lia.
    + destruct (HC' (i - h) j) as (_ & _ & E & _); [lia..|].
      replace (i - h + h) with i in E by lia. rewrite E.
      destruct (Hentries (i - h) j) as (_ & _ & -> & _); [lia..|]. do 2 f_equal. lia.
    + destruct (HC' (i - h) (j - h)) as (_ & _ & _ & E); [lia..|].
      replace (i - h + h) with i in E by lia. replace (j - h + h) with j in E by lia.
      rewrite E.
      destruct (Hentries (i - h) (j - h)) as (_ & _ & _ & ->); [lia..|].
      f_equal. f_equal; lia.
Qed.

(** ** Reads outside an array *)

Lemma get_Fault arr i : ¬ (0 ≤ i < len arr) → Arr.get arr i = Fault.
Proof.
  intros Hi. unfold Arr.get. zbool; [|done].
  by rewrite lookup_ge_None_2 by lia.
Qed.

Lemma get_ext arr arr' i :
  length arr' = length arr → Arr.sel arr' i = Arr.sel arr i → Arr.get arr' i = Arr.get arr i.
Proof.
  intros Hlen Hsel. destruct (decide (0 ≤ i < len arr)) as [Hi|Hi].
  - rewrite !get_sel by lia. by f_equal.
  - rewrite !get_Fault by lia. done.
Qed.

(** ** Counting *)

Section count.

Context (P : Z → Prop) `{!∀ x, Decision (P x)}.

Lemma count_perm w w' : w' ≡ₚ w → count P w' = count P w.
Proof. intros Hp. unfold count. by rewrite Hp. Qed.

Lemma count_app w1 w2 : count P (w1 ++ w2) = count P w1 + count P w2.
Proof. unfold count. rewrite filter_app, length_app. lia. Qed.

Lemma count_cons x w : count P (x :: w) = (if decide (P x) then 1 else 0) + count P w.
Proof. unfold count. rewrite filter_cons. case_decide; simpl length; lia. Qed.

Lemma count_bounds w : 0 ≤ count P w ≤ len w.
Proof. unfold count. pose proof (length_filter P w). lia. Qed.

Lemma count_all w : (∀ x, x ∈ w → P x) → count P w = len w.
Proof.
  intros Hall. induction w as [|x w IH]; [done|].
  rewrite count_cons, decide_True by (apply Hall; left).
  rewrite IH; [simpl length; lia|]. intros y Hy. apply Hall. by right.
Qed.

Lemma count_none w : (∀ x, x ∈ w → ¬ P x) → count P w = 0.
Proof.
  intros Hall. induction w as [|x w IH]; [done|].
  rewrite count_cons, decide_False by (apply Hall; left).
  rewrite IH; [done|]. intros y Hy. apply Hall. by right.
Qed.

Lemma count_elem x w : x ∈ w → P x → 1 ≤ count P w.
Proof.
  intros Hx HP. apply list_elem_of_split in Hx as (w1 & w2 & ->).
  rewrite count_app, count_cons, decide_True by done.
  pose proof (count_bounds w1). pose proof (count_bounds w2). lia.
Qed.

End count.

Lemma window_elem arr l r t : 0 ≤ l → r < len arr → l ≤ t ≤ r → Arr.sel arr t ∈ window arr l r.
Proof. intros Hl Hr Ht. apply occurs_window; [done..|]. by exists t. Qed.

(** ** [particionar] *)

Lemma particionar_rank arr l r pivo :
  0 ≤ l → r < len arr → occurs arr l r pivo →
  ∃ p arr',
    particionar arr l r pivo = Ok (p, arr') ∧
    p = l + count_le pivo (window arr l r) - 1.
Proof.
  intros Hl Hr Hocc.
  destruct (particionar_spec arr l r pivo)
    as (p & arr' & Hrun & Hp & Hre & Hsel & Hle & Hgt); [done..|].
  pose proof (reordered_length _ _ _ _ Hre) as Hlen.
  exists p, arr'. split; [done|].
  unfold count_le.
  rewrite <- (count_perm _ _ _ (reordered_window l r arr arr' Hl Hr Hre)).
  rewrite (window_split arr' l r p) by lia.
  rewrite count_app, count_cons, decide_True by lia.
  rewrite count_all, count_none.
  - rewrite length_window by lia. lia.
  - intros x Hx. apply occurs_window in Hx as (t & Ht & <-); [|lia..].
    specialize (Hgt t). lia.
  - intros x Hx. apply occurs_window in Hx as (t & Ht & <-); [|lia..]. apply Hle. lia.
Qed.

Lemma particionar_find_absent cnt : ∀ arr i pivo,
  0 ≤ i → i + Z.of_nat cnt ≤ len arr →
  (∀ t, i ≤ t < i + Z.of_nat cnt → Arr.sel arr t ≠ pivo) →
  particionar_find cnt arr i pivo = Ok (i + Z.of_nat cnt).
Proof.
  induction cnt as [|cnt IH]; intros arr i pivo Hi Hlen Habs; simpl.
  - f_equal. lia.
  - rewrite get_sel, bind_Ok by lia. zbool.
    + destruct (Habs i); [lia|done].
    + rewrite IH; [f_equal; lia|lia|lia|]. intros t Ht. apply Habs. lia.
Qed.

(** ** [insertionSort] *)

(** A reordering that leaves the window as it was leaves the array as it
    was. *)
Lemma reordered_same_window l r a a' :
  0 ≤ l → r < len a → reordered l r a a' → window a' l r = window a l r → a' = a.
Proof.
  intros Hl Hr Hre Hwin. pose proof (reordered_length _ _ _ _ Hre) as Hlen.
  apply sel_ext; [done|]. intros t Ht.
  destruct (decide (l ≤ t ≤ r)) as [Hin|Hout].
  - replace t with (l + (t - l)) by lia.
    rewrite <- !(sel_window _ l r) by lia. by rewrite Hwin.
  - apply Hre. lia.
Qed.

Lemma insertionSort_sorted_fixed a off m :
  0 ≤ off → 0 ≤ m → off + m ≤ len a → sorted_on a off (off + m - 1) →
  insertionSort a off m = Ok a.
Proof.
  intros Hoff Hm Hlen Hso.
  destruct (insertionSort_spec a off m) as (a' & -> & Hre & Hso'); [lia|].
  f_equal. apply (reordered_same_window off (off + m - 1)); [done|lia|done|].
  rewrite (sorted_group a a') by done.
  apply sort_unique; [|done]. apply sorted_window; [done|lia|done].
Qed.

(** ** Where [kesimoMinimo] leaves the answer *)

(** A cell of a reordered window held by some cell of the window before. *)
Lemma reordered_cell l r a a' t :
  0 ≤ l → r < len a → reordered l r a a' → l ≤ t ≤ r →
  ∃ t', l ≤ t' ≤ r ∧ Arr.sel a' t = Arr.sel a t'.
Proof.
  intros Hl Hr Hre Ht. pose proof (reordered_length _ _ _ _ Hre) as Hlen.
  assert (Arr.sel a' t ∈ window a l r) as Hin.
  { rewrite <- (reordered_window l r a a') by done. apply window_elem; lia. }
  apply occurs_window in Hin as (t' & Ht' & Hsel); [|done..]. by exists t'.
Qed.

Lemma kesimoMinimo_places budget : ∀ arr l r k,
  0 ≤ l → r < len arr → 1 ≤ k ≤ r - l + 1 → r - l + 1 ≤ Z.of_nat budget →
  ∃ v arr',
    kesimoMinimo budget arr l r k = Ok (v, arr') ∧
    reordered l r arr arr' ∧
    Arr.sel arr' (l + k - 1) = v ∧
    (∀ t, l ≤ t < l + k - 1 → Arr.sel arr' t ≤ v) ∧
    (∀ t, l + k - 1 < t ≤ r → v ≤ Arr.sel arr' t).
Proof.
  induction budget as [|budget IH]; intros arr l r k Hl Hr Hk Hbudget; [lia|].
  simpl. unfold kesimoMinimo_body.
  replace ((k >? 0) && (k <=? r - l + 1)) with true by (zbool; simpl; lia).
  destruct (kesimoMinimo_medians_spec arr l (r - l + 1)) as (a1 & -> & Hre1 & _); [lia..|].
  replace (l + (r - l + 1) - 1) with r in * by lia.
  rewrite bind_Ok. cbv beta iota.
  pose proof (reordered_length _ _ _ _ Hre1) as Hla1.
  set (meds := medians_buffer (window arr l r)).
  set (g := (r - l + 1 + 4) / 5).
  assert (Hg : len meds = g).
  { unfold meds. rewrite length_medians_buffer, length_window by lia. unfold g.
    f_equal. lia. }
  assert (∃ m, kesimoMinimo_medOfMed (kesimoMinimo budget) meds g = Ok m ∧ m ∈ meds)
    as (m & -> & Hm).
  { unfold kesimoMinimo_medOfMed. zbool.
    - rewrite get_sel by lia. eexists. split; [done|].
      apply list_elem_of_lookup. eexists. apply lookup_sel. lia.
    - destruct (kesimoMinimo_spec budget meds 0 (g - 1) ((g + 1) ÷ 2))
        as (v & meds' & -> & _ & ->); [unfold g in *; lia..|].
      rewrite bind_Ok. eexists. split; [done|].
      replace (g - 1) with (len meds - 1) by lia. rewrite window_all.
      apply kth_smallest_elem. lia. }
  rewrite bind_Ok.
  assert (Hocc : occurs a1 l r m).
  { apply occurs_window; [lia..|]. rewrite (reordered_window l r arr a1) by done.
    by apply medians_buffer_elem. }
  destruct (particionar_spec a1 l r m) as (pos & a2 & -> & Hpos & Hre2 & Hsel & Hle & Hgt);
    [lia..|done|].
  rewrite bind_Ok. cbv beta iota.
  pose proof (reordered_length _ _ _ _ Hre2) as Hla2.
  assert (Hre : reordered l r arr a2) by (by eapply reordered_trans).
  unfold kesimoMinimo_lado. zbool; try lia.
  - (* left of the pivot *)
    destruct (IH a2 l (pos - 1) k) as (v & a3 & -> & Hre3 & Hv & Hbefore & Hafter); [lia..|].
    eexists _, _. split; [done|]. split; [|split; [done|split; [done|]]].
    { eapply reordered_trans; [exact Hre|].
      apply (reordered_weaken l (pos - 1)); [lia..|done]. }
    intros t Ht. destruct (decide (t ≤ pos - 1)) as [Hin|Hout]; [apply Hafter; lia|].
    destruct (reordered_cell l (pos - 1) a2 a3 (l + k - 1)) as (t' & Ht' & Hcell);
      [lia..|done|lia|].
    assert (v ≤ m) by (rewrite <- Hv, Hcell; apply Hle; lia).
    destruct Hre3 as [_ Hframe]. rewrite Hframe by lia.
    destruct (decide (t = pos)) as [->|Hne]; [lia|].
    specialize (Hgt t). lia.
  - (* the pivot is the answer *)
    rewrite get_sel, bind_Ok by lia. eexists _, _. split; [done|]. split; [done|].
    replace (l + k - 1) with pos by lia. split; [done|]. rewrite Hsel. split.
    + done.
    + intros t Ht. specialize (Hgt t Ht). lia.
  - (* right of the pivot *)
    destruct (IH a2 (pos + 1) r (k - (pos - l) - 1))
      as (v & a3 & -> & Hre3 & Hv & Hbefore & Hafter); [lia..|].
    replace (pos + 1 + (k - (pos - l) - 1) - 1) with (l + k - 1) in * by lia.
    eexists _, _. split; [done|]. split; [|split; [done|split; [|done]]].
    { eapply reordered_trans; [exact Hre|].
      apply (reordered_weaken (pos + 1) r); [lia..|done]. }
    intros t Ht. destruct (decide (pos + 1 ≤ t)) as [Hin|Hout]; [apply Hbefore; lia|].
    destruct (reordered_cell (pos + 1) r a2 a3 (l + k - 1)) as (t' & Ht' & Hcell);
      [lia..|done|lia|].
    assert (m < v) by (rewrite <- Hv, Hcell; apply Hgt; lia).
    destruct Hre3 as [_ Hframe]. rewrite Hframe by lia.
    destruct (decide (t = pos)) as [->|Hne]; [lia|].
    specialize (Hle t). lia.
Qed.

(** ** One selection after another *)

Lemma sorted_sel_mono s : StronglySorted Z.le s →
  ∀ i j, 0 ≤ i → i ≤ j → j < len s → Arr.sel s i ≤ Arr.sel s j.
Proof.
  induction 1 as [|x s Hs IH Hall]; intros i j Hi Hij Hj; [simpl in Hj; lia|].
  simpl length in Hj. rewrite !sel_lookup by lia.
  destruct (decide (i = 0)) as [->|Hi0]; destruct (decide (j = 0)) as [->|Hj0]; try lia.
  - replace (Z.to_nat j) with (S (Z.to_nat (j - 1))) by lia. simpl.
    destruct (lookup_lt_is_Some_2 s (Z.to_nat (j - 1))) as [y Hy]; [lia|].
    rewrite Hy. simpl. by apply (Forall_lookup_1 _ _ _ _ Hall Hy).
  - replace (Z.to_nat i) with (S (Z.to_nat (i - 1))) by lia.
    replace (Z.to_nat j) with (S (Z.to_nat (j - 1))) by lia. simpl.
    rewrite <- !sel_lookup by lia. apply IH; lia.
Qed.

Lemma kth_smallest_mono w k1 k2 :
  1 ≤ k1 → k1 ≤ k2 → k2 ≤ len w → kth_smallest w k1 ≤ kth_smallest w k2.
Proof.
  intros Hk1 Hk12 Hk2. unfold kth_smallest.
  apply sorted_sel_mono; [apply sort_sorted|lia|lia|rewrite length_sort; lia].
Qed.

(** ** The quality of the pivot *)

Lemma elem_of_take_sel s n x :
  x ∈ take n s → ∃ j, 0 ≤ j < Z.of_nat n ∧ j < len s ∧ Arr.sel s j = x.
Proof.
  intros Hx. apply list_elem_of_lookup in Hx as (j & Hj).
  apply lookup_take_Some in Hj as [Hj Hlt].
  pose proof (lookup_lt_Some _ _ _ Hj).
  exists (Z.of_nat j). split; [lia|]. split; [lia|].
  by rewrite sel_lookup, Nat2Z.id, Hj by lia.
Qed.

Lemma elem_of_drop_sel s n x :
  x ∈ drop n s → ∃ j, Z.of_nat n ≤ j < len s ∧ Arr.sel s j = x.
Proof.
  intros Hx. apply list_elem_of_lookup in Hx as (j & Hj).
  rewrite lookup_drop in Hj. pose proof (lookup_lt_Some _ _ _ Hj).
  exists (Z.of_nat (n + j)). split; [lia|].
  by rewrite sel_lookup, Nat2Z.id, Hj by lia.
Qed.

(** In a sorted sequence, the cells up to one that is [<= v] are [<= v],
    and the cells from one that is [>= v] are [>= v]. *)
Lemma sorted_count_le s i v :
  StronglySorted Z.le s → 0 ≤ i < len s → Arr.sel s i ≤ v → i + 1 ≤ count_le v s.
Proof.
  intros Hs Hi Hv. unfold count_le.
  rewrite <- (take_drop (Z.to_nat (i + 1)) s), count_app.
  rewrite count_all.
  - pose proof (count_bounds (λ x, x ≤ v) (drop (Z.to_nat (i + 1)) s)).
    rewrite length_take. lia.
  - intros x Hx. apply elem_of_take_sel in Hx as (j & Hj & Hjs & <-).
    pose proof (sorted_sel_mono s Hs j i). lia.
Qed.

Lemma sorted_count_ge s i v :
  StronglySorted Z.le s → 0 ≤ i < len s → v ≤ Arr.sel s i → len s - i ≤ count_ge v s.
Proof.
  intros Hs Hi Hv. unfold count_ge.
  rewrite <- (take_drop (Z.to_nat i) s) at 2. rewrite count_app.
  rewrite (count_all _ (drop _ _)).
  - pose proof (count_bounds (λ x, v ≤ x) (take (Z.to_nat i) s)).
    rewrite length_drop. lia.
  - intros x Hx. apply elem_of_drop_sel in Hx as (j & Hj & <-).
    pose proof (sorted_sel_mono s Hs i j). lia.
Qed.

(** The rank-[k] value has at least [k] values [<=] it and at least
    [|w| - k + 1] values [>=] it. *)
Lemma kth_smallest_count w k :
  1 ≤ k ≤ len w →
  k ≤ count_le (kth_smallest w k) w ∧ len w - k + 1 ≤ count_ge (kth_smallest w k) w.
Proof.
  intros Hk. unfold kth_smallest.
  set (s := merge_sort Z.le w). set (v := Arr.sel s (k - 1)).
  assert (StronglySorted Z.le s) as Hs by apply sort_sorted.
  assert (length s = length w) as Hlen by apply length_sort.
  assert (s ≡ₚ w) as Hp by apply merge_sort_Permutation.
  unfold count_le, count_ge.
  rewrite <- (count_perm (λ x, x ≤ v) _ _ Hp), <- (count_perm (λ x, v ≤ x) _ _ Hp).
  pose proof (sorted_count_le s (k - 1) v Hs).
  pose proof (sorted_count_ge s (k - 1) v Hs).
  unfold count_le, count_ge in *. subst v. lia.
Qed.

(** What a group gives when its median is on the right side of [v]. *)
Lemma group_count_le grp v :
  1 ≤ len grp ≤ 5 → group_median grp ≤ v →
  (if len grp =? 5 then 3 else 1) ≤ count_le v grp.
Proof.
  intros Hlen Hm. unfold group_median in Hm. cbv zeta in Hm.
  pose proof (sort_sorted grp) as Hs. pose proof (length_sort grp) as Hls.
  unfold count_le.
  rewrite <- (count_perm (λ x, x ≤ v) _ _ (merge_sort_Permutation Z.le grp)).
  destruct (Z.eqb_spec (len grp) 5) as [H5|H5].
  - pose proof (sorted_count_le (merge_sort Z.le grp) 2 v Hs) as Hc.
    unfold count_le in Hc. lia.
  - pose proof (sorted_count_le (merge_sort Z.le grp) (len grp / 2) v Hs) as Hc.
    unfold count_le in Hc. lia.
Qed.

Lemma group_count_ge grp v :
  1 ≤ len grp ≤ 5 → v ≤ group_median grp →
  (if len grp =? 5 then 3 else 1) ≤ count_ge v grp.
Proof.
  intros Hlen Hm. unfold group_median in Hm. cbv zeta in Hm.
  pose proof (sort_sorted grp) as Hs. pose proof (length_sort grp) as Hls.
  unfold count_ge.
  rewrite <- (count_perm (λ x, v ≤ x) _ _ (merge_sort_Permutation Z.le grp)).
  destruct (Z.eqb_spec (len grp) 5) as [H5|H5].
  - pose proof (sorted_count_ge (merge_sort Z.le grp) 2 v Hs) as Hc.
    unfold count_ge in Hc. lia.
  - pose proof (sorted_count_ge (merge_sort Z.le grp) (len grp / 2) v Hs) as Hc.
    unfold count_ge in Hc. lia.
Qed.

(** Every group whose median satisfies [Q] holds 3 values that satisfy
    [P], or at least 1 when it is the short last group. *)
Lemma groups_count (P Q : Z → Prop) `{!∀ x, Decision (P x)} `{!∀ x, Decision (Q x)} :
  (∀ grp, 1 ≤ len grp ≤ 5 → Q (group_median grp) →
     (if len grp =? 5 then 3 else 1) ≤ count P grp) →
  ∀ g w, (1 ≤ g)%nat → 5 * (Z.of_nat g - 1) < len w ≤ 5 * Z.of_nat g →
    3 * count Q (group_median <$> groups_of_5 g w) - 2 ≤ count P w.
Proof.
  intros Hgrp. induction g as [|g IH]; intros w Hg Hlen; [lia|].
  simpl groups_of_5. rewrite fmap_cons, count_cons.
  replace (count P w) with (count P (take 5 w) + count P (drop 5 w))
    by (by rewrite <- count_app, take_drop).
  destruct g as [|g].
  - simpl groups_of_5. simpl fmap. change (count Q []) with 0.
    pose proof (count_bounds P (drop 5 w)).
    pose proof (count_bounds P (take 5 w)).
    case_decide; [|lia].
    specialize (Hgrp (take 5 w)). rewrite length_take in Hgrp.
    specialize (Hgrp ltac:(lia) ltac:(done)).
    destruct (Z.of_nat (5 `min` length w) =? 5); lia.
  - specialize (IH (drop 5 w)). rewrite length_drop in IH.
    pose proof (count_bounds P (take 5 w)).
    case_decide; [|lia].
    specialize (Hgrp (take 5 w)). rewrite length_take in Hgrp.
    replace (Z.of_nat (5 `min` length w) =? 5) with true in Hgrp
      by (symmetry; apply Z.eqb_eq; lia).
    specialize (Hgrp ltac:(lia) ltac:(done)). lia.
Qed.

(** Values are counted on both sides of [v] only when they are [v]. *)
Lemma count_le_ge v w :
  count_le v w + count_ge v w = len w + count (λ x, x = v) w.
Proof.
  unfold count_le, count_ge. induction w as [|x w IH]; [done|].
  rewrite !count_cons. simpl length. repeat case_decide; lia.
Qed.

Lemma count_eq_NoDup v w : NoDup w → count (λ x, x = v) w ≤ 1.
Proof.
  induction 1 as [|x w Hx Hw IH]; [done|].
  rewrite count_cons. case_decide as Hv; [|lia].
  rewrite count_none; [lia|]. intros y Hy ->. by subst.
Qed.

Lemma pivot_count w pivot :
  1 ≤ len w →
  let g := (len w + 4) / 5 in
  (if g =? 1 then pivot = Arr.sel (medians_buffer w) 0
   else pivot = kth_smallest (medians_buffer w) ((g + 1) / 2)) →
  3 * ((g + 1) / 2) - 2 ≤ count_le pivot w ∧ 3 * (g / 2) + 1 ≤ count_ge pivot w.
Proof.
  intros Hlen g Hpivot.
  pose proof (length_medians_buffer w) as Hg. fold g in Hg.
  assert ((g + 1) / 2 ≤ count_le pivot (medians_buffer w) ∧
          g - (g + 1) / 2 + 1 ≤ count_ge pivot (medians_buffer w)) as [Hle Hge].
  { destruct (Z.eqb_spec g 1) as [H1|H1].
    - assert (pivot ∈ medians_buffer w) as Hin.
      { rewrite Hpivot. apply list_elem_of_lookup. eexists. apply lookup_sel. lia. }
      rewrite H1. change ((1 + 1) / 2) with 1. unfold count_le, count_ge.
      split; [apply (count_elem _ pivot)|apply (count_elem _ pivot)]; (done || lia).
    - rewrite Hpivot. rewrite <- Hg at 3. apply kth_smallest_count. unfold g in *. lia. }
  unfold medians_buffer in Hle, Hge. fold g in Hle, Hge.
  split.
  - pose proof (groups_count (λ x, x ≤ pivot) (λ x, x ≤ pivot) (λ grp, group_count_le grp pivot)
                  (Z.to_nat g) w) as Hc.
    unfold count_le in *. unfold g in *. lia.
  - pose proof (groups_count (λ x, pivot ≤ x) (λ x, pivot ≤ x) (λ grp, group_count_ge grp pivot)
                  (Z.to_nat g) w) as Hc.
    unfold count_ge in *. unfold g in *. lia.
Qed.

(** ** The depth of the recursion *)

(** A call either runs out of budget or does what it does with more
    budget: it never faults for want of budget. *)
Lemma kesimoMinimo_body_budget rec1 rec2 arr l r k :
  (∀ arr' l' r' k',
     rec1 arr' l' r' k' = Exhausted ∨ rec1 arr' l' r' k' = rec2 arr' l' r' k') →
  kesimoMinimo_body rec1 arr l r k = Exhausted ∨
  kesimoMinimo_body rec1 arr l r k = kesimoMinimo_body rec2 arr l r k.
Proof.
  intros Hrec. unfold kesimoMinimo_body.
  destruct ((k >? 0) && (k <=? r - l + 1)); [|by right].
  destruct (kesimoMinimo_medians arr l (r - l + 1)) as [[[a1 meds] g]| |]; [|by right..].
  rewrite !bind_Ok. cbv beta iota.
  assert (∀ m,
    (Ok m ≫= λ medOfMed, '(pos, arr0) ← particionar a1 l r medOfMed;
                          kesimoMinimo_lado rec1 arr0 l r k pos) = Exhausted ∨
    (Ok m ≫= λ medOfMed, '(pos, arr0) ← particionar a1 l r medOfMed;
                          kesimoMinimo_lado rec1 arr0 l r k pos) =
    (Ok m ≫= λ medOfMed, '(pos, arr0) ← particionar a1 l r medOfMed;
                          kesimoMinimo_lado rec2 arr0 l r k pos)) as Hrest.
  { intros m. rewrite !bind_Ok.
    destruct (particionar a1 l r m) as [[pos a2]| |]; [|by right..].
    rewrite !bind_Ok. cbv beta iota. unfold kesimoMinimo_lado.
    destruct (pos - l =? k - 1); [by right|].
    destruct (pos - l >? k - 1); apply Hrec. }
  unfold kesimoMinimo_medOfMed. destruct (g =? 1).
  - destruct (Arr.get meds 0) as [m| |]; [apply Hrest|by right..].
  - destruct (Hrec meds 0 (g - 1) ((g + 1) ÷ 2)) as [He|He]; rewrite He; [by left|].
    destruct (rec2 meds 0 (g - 1) ((g + 1) ÷ 2)) as [[m meds']| |]; [apply Hrest|by right..].
Qed.

Lemma kesimoMinimo_budget_step budget : ∀ arr l r k,
  kesimoMinimo budget arr l r k = Exhausted ∨
  kesimoMinimo budget arr l r k = kesimoMinimo (S budget) arr l r k.
Proof.
  induction budget as [|budget IH]; intros arr l r k; [by left|].
  apply (kesimoMinimo_body_budget (kesimoMinimo budget) (kesimoMinimo (S budget))), IH.
Qed.

Lemma kesimoMinimo_budget_le budget budget' arr l r k :
  (budget ≤ budget')%nat →
  kesimoMinimo budget arr l r k = Exhausted ∨
  kesimoMinimo budget arr l r k = kesimoMinimo budget' arr l r k.
Proof.
  induction 1 as [|budget' Hle IH]; [by right|].
  destruct IH as [IH|IH]; [by left|]. rewrite IH. apply kesimoMinimo_budget_step.
Qed.

Lemma kesimoMinimo_equal_values budget : ∀ arr l r k c,
  0 ≤ l → r < len arr → 1 ≤ k ≤ r - l + 1 →
  (∀ t, l ≤ t ≤ r → Arr.sel arr t = c) →
  Z.of_nat budget ≤ r - l + 1 - k →
  kesimoMinimo budget arr l r k = Exhausted.
Proof.
  induction budget as [|budget IH]; intros arr l r k c Hl Hr Hk Hconst Hbudget; [done|].
  simpl. unfold kesimoMinimo_body.
  replace ((k >? 0) && (k <=? r - l + 1)) with true by (zbool; simpl; lia).
  destruct (kesimoMinimo_medians_spec arr l (r - l + 1)) as (a1 & -> & Hre1 & _); [lia..|].
  replace (l + (r - l + 1) - 1) with r in * by lia.
  rewrite bind_Ok. cbv beta iota.
  pose proof (reordered_length _ _ _ _ Hre1) as Hla1.
  set (meds := medians_buffer (window arr l r)).
  set (g := (r - l + 1 + 4) / 5).
  assert (Hg : len meds = g).
  { unfold meds. rewrite length_medians_buffer, length_window by lia. unfold g.
    f_equal. lia. }
  assert (kesimoMinimo_medOfMed (kesimoMinimo budget) meds g = Exhausted ∨
          ∃ m, kesimoMinimo_medOfMed (kesimoMinimo budget) meds g = Ok m ∧ m ∈ meds)
    as [->|(m & -> & Hm)]; [|done|].
  { unfold kesimoMinimo_medOfMed. zbool.
    - right. rewrite get_sel by lia. eexists. split; [done|].
      apply list_elem_of_lookup. eexists. apply lookup_sel. lia.
    - destruct (kesimoMinimo_budget_le budget (budget + Z.to_nat g) meds 0 (g - 1)
                  ((g + 1) ÷ 2)) as [->| ->]; [lia|by left|].
      destruct (kesimoMinimo_spec (budget + Z.to_nat g) meds 0 (g - 1) ((g + 1) ÷ 2))
        as (v & meds' & -> & _ & ->); [unfold g in *; lia..|].
      right. rewrite bind_Ok. eexists. split; [done|].
      replace (g - 1) with (len meds - 1) by lia. rewrite window_all.
      apply kth_smallest_elem. lia. }
  rewrite bind_Ok.
  assert (m = c) as ->.
  { apply medians_buffer_elem, occurs_window in Hm as (t & Ht & <-); [|done..].
    by apply Hconst. }
  assert (Hocc : occurs a1 l r c).
  { apply occurs_window; [lia..|]. rewrite (reordered_window l r arr a1) by done.
    apply occurs_window; [done..|]. exists l. split; [lia|]. apply Hconst. lia. }
  destruct (particionar_spec a1 l r c) as (pos & a2 & -> & Hpos & Hre2 & Hsel & Hle & Hgt);
    [lia..|done|].
  rewrite bind_Ok. cbv beta iota.
  pose proof (reordered_length _ _ _ _ Hre2) as Hla2.
  assert (Hre : reordered l r arr a2) by (by eapply reordered_trans).
  assert (Hconst2 : ∀ t, l ≤ t ≤ r → Arr.sel a2 t = c).
  { intros t Ht. destruct (reordered_cell l r arr a2 t) as (t' & Ht' & ->); [done..|].
    by apply Hconst. }
  assert (pos = r) as ->.
  { destruct (decide (pos = r)) as [|Hne]; [done|].
    specialize (Hgt r). specialize (Hconst2 r). lia. }
  unfold kesimoMinimo_lado.
  replace (r - l =? k - 1) with false by (symmetry; apply Z.eqb_neq; lia).
  replace (r - l >? k - 1) with true by (symmetry; apply Z.gtb_lt; lia).
  apply (IH a2 l (r - 1) k c); [lia..| |lia].
  intros t Ht. apply Hconst2. lia.
Qed.

(** ** Matrices, cell by cell *)

(** Two matrices of the same shape with the same cells are equal. *)
Lemma mat_ext n M M' :
  shape n M → shape n M' →
  (∀ i j, 0 ≤ i < n → 0 ≤ j < n → Mat.cell M i j = Mat.cell M' i j) →
  M = M'.
Proof.
  intros [Hlen Hrows] [Hlen' Hrows'] Hcells. apply list_eq. intros t.
  destruct (decide (t < length M)%nat) as [Ht|Ht].
  - destruct (lookup_lt_is_Some_2 M t) as [row Hrow]; [lia|].
    destruct (lookup_lt_is_Some_2 M' t) as [row' Hrow']; [lia|].
    rewrite Hrow, Hrow'. f_equal.
    pose proof (Forall_lookup_1 _ _ _ _ Hrows Hrow) as Hr. simpl in Hr.
    pose proof (Forall_lookup_1 _ _ _ _ Hrows' Hrow') as Hr'. simpl in Hr'.
    apply sel_ext; [lia|]. intros j Hj.
    specialize (Hcells (Z.of_nat t) j).
    rewrite (cell_row M (Z.of_nat t) j row), (cell_row M' (Z.of_nat t) j row') in Hcells
      by (rewrite ?Nat2Z.id; done || lia).
    apply Hcells; lia.
  - rewrite !lookup_ge_None_2 by lia. done.
Qed.

Lemma wrap_add_sub a b : INT_MIN ≤ a ≤ INT_MAX → wrap (wrap (a + b) - b) = a.
Proof.
  intros Ha. rewrite <- (wrap_small a) at 2 by done.
  change (eqm32 (wrap (a + b) - b) a). rewrite wrap_eqm32. apply reflexive_eq. lia.
Qed.

(** ** [strassen] on matrices of any size *)

(** The quadrants of matrices of any size [n >= 2 * h]. *)
Lemma strassen_split_shapes n h A B :
  0 ≤ h → 2 * h ≤ n → shape n A → shape n B →
  let zero := alocarMatriz h in
  ∃ A11 A12 A21 A22 B11 B12 B21 B22,
    strassen_split h A B (zero, zero, zero, zero, zero, zero, zero, zero) =
      Ok (A11, A12, A21, A22, B11, B12, B21, B22) ∧
    (shape h A11 ∧ shape h A12 ∧ shape h A21 ∧ shape h A22) ∧
    (shape h B11 ∧ shape h B12 ∧ shape h B21 ∧ shape h B22).
Proof.
  intros Hh Hn HA HB zero.
  assert (Hzero : shape h zero) by by apply shape_alocarMatriz.
  set (inv (q : quadrants) :=
    let '(A11, A12, A21, A22, B11, B12, B21, B22) := q in
    (shape h A11 ∧ shape h A12 ∧ shape h A21 ∧ shape h A22) ∧
    (shape h B11 ∧ shape h B12 ∧ shape h B21 ∧ shape h B22)).
  unfold strassen_split.
  destruct (for_range_inv (fun _ q => inv q)
    (fun i q => for_range 0 h (fun j '(A11, A12, A21, A22, B11, B12, B21, B22) =>
      v ← Mat.get A i j; A11 ← Mat.set A11 i j v;
      v ← Mat.get A i (j + h); A12 ← Mat.set A12 i j v;
      v ← Mat.get A (i + h) j; A21 ← Mat.set A21 i j v;
      v ← Mat.get A (i + h) (j + h); A22 ← Mat.set A22 i j v;
      v ← Mat.get B i j; B11 ← Mat.set B11 i j v;
      v ← Mat.get B i (j + h); B12 ← Mat.set B12 i j v;
      v ← Mat.get B (i + h) j; B21 ← Mat.set B21 i j v;
      v ← Mat.get B (i + h) (j + h); B22 ← Mat.set B22 i j v;
      Ok (A11, A12, A21, A22, B11, B12, B21, B22)) q)
    0 h (zero, zero, zero, zero, zero, zero, zero, zero))
    as ([[[[[[[A11 A12] A21] A22] B11] B12] B21] B22] & Hrun & HinvA & HinvB); [done|done| |].
  - intros i q Hi Hq.
    apply (for_range_inv (fun _ q => inv q)); [done|done|].
    intros j [[[[[[[M1 M2] M3] M4] M5] M6] M7] M8] Hj
      [(H1 & H2 & H3 & H4) (H5 & H6 & H7 & H8)].
    rewrite (mat_get_cell n A i j), bind_Ok by (done || lia).
    destruct (mat_set_spec h M1 i j (Mat.cell A i j)) as (N1 & -> & F1 & _); [done..|].
    rewrite bind_Ok.
    rewrite (mat_get_cell n A i (j + h)), bind_Ok by (done || lia).
    destruct (mat_set_spec h M2 i j (Mat.cell A i (j + h))) as (N2 & -> & F2 & _); [done..|].
    rewrite bind_Ok.
    rewrite (mat_get_cell n A (i + h) j), bind_Ok by (done || lia).
    destruct (mat_set_spec h M3 i j (Mat.cell A (i + h) j)) as (N3 & -> & F3 & _); [done..|].
    rewrite bind_Ok.
    rewrite (mat_get_cell n A (i + h) (j + h)), bind_Ok by (done || lia).
    destruct (mat_set_spec h M4 i j (Mat.cell A (i + h) (j + h)))
      as (N4 & -> & F4 & _); [done..|].
    rewrite bind_Ok.
    rewrite (mat_get_cell n B i j), bind_Ok by (done || lia).
    destruct (mat_set_spec h M5 i j (Mat.cell B i j)) as (N5 & -> & F5 & _); [done..|].
    rewrite bind_Ok.
    rewrite (mat_get_cell n B i (j + h)), bind_Ok by (done || lia).
    destruct (mat_set_spec h M6 i j (Mat.cell B i (j + h))) as (N6 & -> & F6 & _); [done..|].
    rewrite bind_Ok.
    rewrite (mat_get_cell n B (i + h) j), bind_Ok by (done || lia).
    destruct (mat_set_spec h M7 i j (Mat.cell B (i + h) j)) as (N7 & -> & F7 & _); [done..|].
    rewrite bind_Ok.
    rewrite (mat_get_cell n B (i + h) (j + h)), bind_Ok by (done || lia).
    destruct (mat_set_spec h M8 i j (Mat.cell B (i + h) (j + h)))
      as (N8 & -> & F8 & _); [done..|].
    rewrite bind_Ok.
    eexists. split; [done|]. by split.
  - by exists A11, A12, A21, A22, B11, B12, B21, B22.
Qed.

(** The loop that fills [C] writes the block [2 * h] by [2 * h] only. *)
Lemma strassen_join_frame n h C11 C12 C21 C22 C :
  0 ≤ h → 2 * h ≤ n →
  shape h C11 → shape h C12 → shape h C21 → shape h C22 → shape n C →
  ∃ C',
    strassen_join h C11 C12 C21 C22 C = Ok C' ∧ shape n C' ∧
    ∀ i j, 2 * h ≤ i ∨ 2 * h ≤ j → Mat.cell C' i j = Mat.cell C i j.
Proof.
  intros Hh Hn H11 H12 H21 H22 HC.
  set (inv (M : matrix) :=
    shape n M ∧ ∀ i j, 2 * h ≤ i ∨ 2 * h ≤ j → Mat.cell M i j = Mat.cell C i j).
  unfold strassen_join.
  apply (for_range_inv (fun _ M => inv M)); [done|by split|].
  intros i M Hi HM.
  apply (for_range_inv (fun _ M => inv M)); [done|done|].
  intros j M0 Hj [HM0 Hcells].
  destruct (mat_set_spec n M0 i j (Mat.cell C11 i j))
    as (M1 & E1 & HM1 & Hc1); [done|lia..|].
  destruct (mat_set_spec n M1 i (j + h) (Mat.cell C12 i j))
    as (M2 & E2 & HM2 & Hc2); [done|lia..|].
  destruct (mat_set_spec n M2 (i + h) j (Mat.cell C21 i j))
    as (M3 & E3 & HM3 & Hc3); [done|lia..|].
  destruct (mat_set_spec n M3 (i + h) (j + h) (Mat.cell C22 i j))
    as (M4 & E4 & HM4 & Hc4); [done|lia..|].
  exists M4. split.
  { rewrite (mat_get_cell h C11 i j), bind_Ok, E1, bind_Ok by done.
    rewrite (mat_get_cell h C12 i j), bind_Ok, E2, bind_Ok by done.
    rewrite (mat_get_cell h C21 i j), bind_Ok, E3, bind_Ok by done.
    by rewrite (mat_get_cell h C22 i j), bind_Ok, E4 by done. }
  split; [done|]. intros i' j' Hout.
  rewrite Hc4, Hc3, Hc2, Hc1. repeat case_decide; try lia. by apply Hcells.
Qed.

Lemma strassen_any_size budget : ∀ n A B C,
  1 ≤ n < 2 ^ Z.of_nat budget → shape n A → shape n B → shape n C →
  ∃ C',
    strassen budget n A B C = Ok C' ∧ shape n C' ∧
    (1 < n → ∀ i j, 2 * (n ÷ 2) ≤ i ∨ 2 * (n ÷ 2) ≤ j → Mat.cell C' i j = Mat.cell C i j).
Proof.
  induction budget as [|budget IH]; intros n A B C Hn HA HB HC.
  { change (2 ^ Z.of_nat 0) with 1 in Hn. lia. }
  rewrite Nat2Z.inj_succ, Z.pow_succ_r in Hn by lia.
  rewrite strassen_unfold. unfold strassen_body.
  destruct (Z.eqb_spec n 1) as [->|Hn1].
  - rewrite (mat_get_cell 1 A 0 0), bind_Ok by (done || lia).
    rewrite (mat_get_cell 1 B 0 0), bind_Ok by (done || lia).
    destruct (mat_set_spec 1 C 0 0 (wrap (Mat.cell A 0 0 * Mat.cell B 0 0)))
      as (C' & -> & HC' & _); [done|lia..|].
    exists C'. split; [done|]. split; [done|]. lia.
  - cbv zeta. set (h := n ÷ 2).
    assert (Hh : 1 ≤ h < 2 ^ Z.of_nat budget) by (unfold h; lia).
    set (zero := alocarMatriz h).
    assert (Hzero : shape h zero) by (apply shape_alocarMatriz; lia).
    destruct (strassen_split_shapes n h A B)
      as (A11 & A12 & A21 & A22 & B11 & B12 & B21 & B22 & Hsplit &
          (HsA11 & HsA12 & HsA21 & HsA22) & (HsB11 & HsB12 & HsB21 & HsB22));
      [unfold h; lia..|done|done|].
    fold zero in Hsplit. rewrite Hsplit, bind_Ok. cbv beta iota. clear Hsplit.
    destruct (subtrairMatrizes_spec h (Other B12) (Other B22) zero)
      as (S1 & -> & HsS1 & _); [lia|done..|]. rewrite bind_Ok.
    destruct (IH h A11 S1 zero) as (P1 & -> & HsP1 & _); [done..|]. rewrite bind_Ok.
    destruct (somarMatrizes_spec h (Other A11) (Other A12) zero)
      as (S2 & -> & HsS2 & _); [lia|done..|]. rewrite bind_Ok.
    destruct (IH h S2 B22 zero) as (P2 & -> & HsP2 & _); [done..|]. rewrite bind_Ok.
    destruct (somarMatrizes_spec h (Other A21) (Other A22) zero)
      as (S3 & -> & HsS3 & _); [lia|done..|]. rewrite bind_Ok.
    destruct (IH h S3 B11 zero) as (P3 & -> & HsP3 & _); [done..|]. rewrite bind_Ok.
    destruct (subtrairMatrizes_spec h (Other B21) (Other B11) zero)
      as (S4 & -> & HsS4 & _); [lia|done..|]. rewrite bind_Ok.
    destruct (IH h A22 S4 zero) as (P4 & -> & HsP4 & _); [done..|]. rewrite bind_Ok.
    destruct (somarMatrizes_spec h (Other A11) (Other A22) zero)
      as (S5 & -> & HsS5 & _); [lia|done..|]. rewrite bind_Ok.
    destruct (somarMatrizes_spec h (Other B11) (Other B22) zero)
      as (S6 & -> & HsS6 & _); [lia|done..|]. rewrite bind_Ok.
    destruct (IH h S5 S6 zero) as (P5 & -> & HsP5 & _); [done..|]. rewrite bind_Ok.
    destruct (subtrairMatrizes_spec h (Other A12) (Other A22) zero)
      as (S7 & -> & HsS7 & _); [lia|done..|]. rewrite bind_Ok.
    destruct (somarMatrizes_spec h (Other B21) (Other B22) zero)
      as (S8 & -> & HsS8 & _); [lia|done..|]. rewrite bind_Ok.
    destruct (IH h S7 S8 zero) as (P6 & -> & HsP6 & _); [done..|]. rewrite bind_Ok.
    destruct (subtrairMatrizes_spec h (Other A11) (Other A21) zero)
      as (S9 & -> & HsS9 & _); [lia|done..|]. rewrite bind_Ok.
    destruct (somarMatrizes_spec h (Other B11) (Other B12) zero)
      as (S10 & -> & HsS10 & _); [lia|done..|]. rewrite bind_Ok.
    destruct (IH h S9 S10 zero) as (P7 & -> & HsP7 & _); [done..|]. rewrite bind_Ok.
    destruct (somarMatrizes_spec h (Other P5) (Other P4) zero)
      as (C11a & -> & HsC11a & _); [lia|done..|]. rewrite bind_Ok.
    destruct (subtrairMatrizes_spec h Dest (Other P2) C11a)
      as (C11b & -> & HsC11b & _); [lia|done..|]. rewrite bind_Ok.
    destruct (somarMatrizes_spec h Dest (Other P6) C11b)
      as (C11 & -> & HsC11 & _); [lia|done..|]. rewrite bind_Ok.
    destruct (somarMatrizes_spec h (Other P1) (Other P2) zero)
      as (C12 & -> & HsC12 & _); [lia|done..|]. rewrite bind_Ok.
    destruct (somarMatrizes_spec h (Other P3) (Other P4) zero)
      as (C21 & -> & HsC21 & _); [lia|done..|]. rewrite bind_Ok.
    destruct (somarMatrizes_spec h (Other P5) (Other P1) zero)
      as (C22a & -> & HsC22a & _); [lia|done..|]. rewrite bind_Ok.
    destruct (subtrairMatrizes_spec h Dest (Other P3) C22a)
      as (C22b & -> & HsC22b & _); [lia|done..|]. rewrite bind_Ok.
    destruct (subtrairMatrizes_spec h Dest (Other P7) C22b)
      as (C22 & -> & HsC22 & _); [lia|done..|]. rewrite bind_Ok.
    destruct (strassen_join_frame n h C11 C12 C21 C22 C)
      as (C' & -> & HsC' & HC'); [unfold h; lia..|done|done|done|done|done|].
    exists C'. split; [done|]. split; [done|]. intros _. exact HC'.
Qed.

(** ** Loops, in two parts *)

Lemma for_loop_app {St} (body : Z → St → res St) cnt1 cnt2 : ∀ lo s,
  for_loop (cnt1 + cnt2) lo body s =
    for_loop cnt1 lo body s ≫= for_loop cnt2 (lo + Z.of_nat cnt1) body.
Proof.
  induction cnt1 as [|cnt1 IH]; intros lo s.
  - simpl. f_equal. lia.
  - simpl. destruct (body lo s) as [s1| |]; [|done..]. rewrite !bind_Ok, IH.
    do 2 f_equal. lia.
Qed.

Lemma for_range_split {St} (body : Z → St → res St) lo mid hi s :
  lo ≤ mid ≤ hi →
  for_range lo hi body s = for_range lo mid body s ≫= for_range mid hi body.
Proof.
  intros Hmid. unfold for_range.
  replace (Z.to_nat (hi - lo)) with (Z.to_nat (mid - lo) + Z.to_nat (hi - mid))%nat by lia.
  rewrite for_loop_app. do 3 f_equal. lia.
Qed.

(** A loop whose first turn faults, faults. *)
Lemma for_range_Fault {St} (body : Z → St → res St) lo hi s :
  lo < hi → body lo s = Fault → for_range lo hi body s = Fault.
Proof.
  intros Hlt Hbody. unfold for_range.
  replace (Z.to_nat (hi - lo)) with (S (Z.to_nat (hi - lo - 1))) by lia.
  simpl. by rewrite Hbody.
Qed.

(** * The claims of the specification *)

(** C1. For every sequence [seq] and every rank [k] with
    [1 <= k <= |seq|] (so [seq] is not empty), [select_kth] ([kesimoMinimo]
    on the whole range [0 .. |seq| - 1]) returns the [k]-th smallest value
    of [seq]: the value at 0-based position [k - 1] of every ascending
    rearrangement of [seq]. *)
Theorem select_kth_correct (seq : list Z) (k : Z) :
  1 ≤ k ≤ len seq →
  ∃ v arr',
    select_kth seq k = Ok (v, arr') ∧
    ∀ sorted, Sorted Z.le sorted → sorted ≡ₚ seq → sorted !! Z.to_nat (k - 1) = Some v.
Proof.
  intros Hk. unfold select_kth.
  destruct (kesimoMinimo_spec (S (length seq)) seq 0 (len seq - 1) k)
    as (v & arr' & Hrun & _ & Hv); [lia..|].
  exists v, arr'. split; [done|]. intros sorted Hsorted Hperm.
  rewrite window_all in Hv. unfold kth_smallest in Hv.
  rewrite (sort_unique sorted seq) in Hv;
    [|by apply Sorted_StronglySorted; [apply _|]|by symmetry].
  rewrite Hv. apply lookup_sel. rewrite (Permutation_length Hperm). lia.
Qed.

Lemma select_kth_correct_witness :
  ∃ v arr',
    select_kth [25; 21; 98; 100; 76; 22; 43; 60; 89; 42] 5 = Ok (v, arr') ∧
    ∀ sorted, Sorted Z.le sorted →
      sorted ≡ₚ [25; 21; 98; 100; 76; 22; 43; 60; 89; 42] →
      sorted !! Z.to_nat (5 - 1) = Some v.
Proof. apply select_kth_correct. simpl. lia. Defined.

(** C2, as the specification states it, fails for [particionar]: not every
    call on a segment leaves the multiset of the segment as it was.  On the
    segment [0..1] of [[1; 2; 3]] with the pivot value 9, which the segment
    does not hold, the call returns and the segment holds 1 and 3: the value
    2 has left it and the value 3 of the cell after the segment has come
    in. *)
Lemma particionar_changes_multiset :
  0 ≤ 0 ∧ 1 < len [1; 2; 3] ∧
  particionar [1; 2; 3] 0 1 9 = Ok (1, [1; 3; 2]) ∧
  window [1; 2; 3] 0 1 = [1; 2] ∧
  window [1; 3; 2] 0 1 = [1; 3] ∧
  ¬ ([1; 3] ≡ₚ [1; 2]).
Proof.
  split; [lia|]. split; [simpl; lia|]. split; [reflexivity|].
  split; [reflexivity|]. split; [reflexivity|].
  intros Hperm. assert (3 ∈ [1; 2]) as Hin by (rewrite <- Hperm; repeat constructor).
  apply elem_of_cons in Hin as [Hin|Hin]; [done|].
  apply elem_of_cons in Hin as [Hin|Hin]; [done|].
  by apply elem_of_nil in Hin.
Qed.

(** C2, amended.  For every segment [l..r] within the array (empty when
    [r = l - 1]): [insertionSort] on it, [particionar] on it with a pivot
    value that occurs in it, and [kesimoMinimo] on it with any rank, return
    and leave in the segment a permutation of the values it held: elements
    are reordered, never added, removed or altered. *)
Theorem multiset_preserved (arr : list Z) (l r : Z) :
  0 ≤ l → l ≤ r + 1 → r < len arr →
  (∃ arr', insertionSort arr l (r - l + 1) = Ok arr' ∧
           window arr' l r ≡ₚ window arr l r) ∧
  (∀ pivo, occurs arr l r pivo →
     ∃ p arr', particionar arr l r pivo = Ok (p, arr') ∧
               window arr' l r ≡ₚ window arr l r) ∧
  (∀ k, (∃ v arr', kesimoMinimo (S (Z.to_nat (r - l + 1))) arr l r k = Ok (v, arr')) ∧
        ∀ budget v arr', kesimoMinimo budget arr l r k = Ok (v, arr') →
                         window arr' l r ≡ₚ window arr l r).
Proof.
  intros Hl Hlr Hr. split; [|split].
  - destruct (insertionSort_spec arr l (r - l + 1)) as (arr' & Hrun & Hre & _); [lia|].
    exists arr'. split; [done|]. apply reordered_window; [done..|].
    by replace (l + (r - l + 1) - 1) with r in Hre by lia.
  - intros pivo Hocc.
    destruct (particionar_spec arr l r pivo) as (p & arr' & Hrun & _ & Hre & _); [done..|].
    exists p, arr'. split; [done|]. by apply reordered_window.
  - intros k. split.
    + destruct (decide (1 ≤ k ≤ r - l + 1)) as [Hk|Hk].
      * destruct (kesimoMinimo_spec (S (Z.to_nat (r - l + 1))) arr l r k)
          as (v & arr' & Hrun & _); [lia..|]. by exists v, arr'.
      * rewrite kesimoMinimo_invalid by done. by eexists _, _.
    + intros budget v arr' Hrun. apply reordered_window; [done..|].
      by apply (kesimoMinimo_Ok_reordered budget arr l r k v).
Qed.

Lemma multiset_preserved_witness :
  (∃ arr', insertionSort [9; 7; 3; 8; 2] 1 (3 - 1 + 1) = Ok arr' ∧
           window arr' 1 3 ≡ₚ window [9; 7; 3; 8; 2] 1 3) ∧
  (∀ pivo, occurs [9; 7; 3; 8; 2] 1 3 pivo →
     ∃ p arr', particionar [9; 7; 3; 8; 2] 1 3 pivo = Ok (p, arr') ∧
               window arr' 1 3 ≡ₚ window [9; 7; 3; 8; 2] 1 3) ∧
  (∀ k, (∃ v arr', kesimoMinimo (S (Z.to_nat (3 - 1 + 1))) [9; 7; 3; 8; 2] 1 3 k
                   = Ok (v, arr')) ∧
        ∀ budget v arr', kesimoMinimo budget [9; 7; 3; 8; 2] 1 3 k = Ok (v, arr') →
                         window arr' 1 3 ≡ₚ window [9; 7; 3; 8; 2] 1 3).
Proof. apply (multiset_preserved [9; 7; 3; 8; 2] 1 3); simpl; lia. Defined.

(** C3, as the specification states it, fails: the result of a call with
    an invalid rank is not distinguishable from a valid data value.
    [kesimoMinimo] returns the int [INT_MAX] for an invalid rank, and that is
    also what it returns for a valid rank whose answer is [INT_MAX]: on the
    one-element sequence [[INT_MAX]], rank 2 is invalid, rank 1 is valid, and
    both calls return the same value and leave the same array. *)
Lemma invalid_rank_in_band :
  2 > len [INT_MAX] ∧ 1 ≤ 1 ≤ len [INT_MAX] ∧
  select_kth [INT_MAX] 2 = Ok (INT_MAX, [INT_MAX]) ∧
  select_kth [INT_MAX] 1 = Ok (INT_MAX, [INT_MAX]).
Proof. repeat split; simpl; lia. Qed.

(** C3, amended.  Let [l], [r] and [k] be [int] values for which the
    [int] expression [r - l + 1] does not overflow.  If [k < 1] or
    [k > r - l + 1], which covers every [k] on an empty window,
    [kesimoMinimo] returns the value [INT_MAX] and leaves the array as it
    is.  That value is in band.  On a window within the array that does not
    hold [INT_MAX], a call with a valid rank returns a value other than
    [INT_MAX], so the test [resultado != INT_MAX] of [main] tells the two
    apart.  On a window of [int] values that holds [INT_MAX], the call with
    the valid rank [r - l + 1] returns [INT_MAX] as well, so it does not. *)
Theorem invalid_rank_sentinel (budget : nat) (arr : list Z) (l r k : Z) :
  INT_MIN ≤ l ≤ INT_MAX → INT_MIN ≤ r ≤ INT_MAX → INT_MIN ≤ k ≤ INT_MAX →
  INT_MIN ≤ r - l → r - l + 1 ≤ INT_MAX →
  (k < 1 ∨ k > r - l + 1 → kesimoMinimo (S budget) arr l r k = Ok (INT_MAX, arr)) ∧
  (0 ≤ l → r < len arr → r - l + 1 ≤ Z.of_nat (S budget) →
   (INT_MAX ∉ window arr l r → 1 ≤ k ≤ r - l + 1 →
      ∃ v arr', kesimoMinimo (S budget) arr l r k = Ok (v, arr') ∧ v ≠ INT_MAX) ∧
   (INT_MAX ∈ window arr l r → (∀ x, x ∈ window arr l r → x ≤ INT_MAX) →
      ∃ arr', kesimoMinimo (S budget) arr l r (r - l + 1) = Ok (INT_MAX, arr'))).
Proof.
  intros _ _ _ _ _. split.
  { intros Hk. apply kesimoMinimo_invalid. lia. }
  intros Hl Hr Hbudget. split.
  - intros Habsent Hk.
    destruct (kesimoMinimo_spec (S budget) arr l r k) as (v & arr' & Hrun & _ & Hv);
      [done..|].
    exists v, arr'. split; [done|]. intros Heq. apply Habsent.
    rewrite <- Heq, Hv. apply kth_smallest_elem. rewrite length_window by lia. lia.
  - intros Hin Hints.
    assert (l ≤ r) as Hlr.
    { apply occurs_window in Hin as (t & Ht & _); [lia|done..]. }
    destruct (kesimoMinimo_places (S budget) arr l r (r - l + 1))
      as (v & arr' & Hrun & Hre & Hv & Hbefore & _); [lia..|].
    pose proof (reordered_length _ _ _ _ Hre) as Hlen.
    pose proof (reordered_window l r arr arr' Hl Hr Hre) as Hperm.
    replace (l + (r - l + 1) - 1) with r in * by lia.
    assert (v ≤ INT_MAX) as Hle.
    { apply Hints. rewrite <- Hperm, <- Hv. apply window_elem; lia. }
    assert (INT_MAX ≤ v) as Hge.
    { rewrite <- Hperm in Hin. apply occurs_window in Hin as (t & Ht & <-); [|lia..].
      destruct (decide (t = r)) as [->|Hne]; [lia|]. apply Hbefore. lia. }
    exists arr'. rewrite Hrun. do 2 f_equal. lia.
Qed.

Lemma invalid_rank_sentinel_witness :
  (4 < 1 ∨ 4 > 2 - 0 + 1 →
     kesimoMinimo 3 [3; INT_MAX; 1] 0 2 4 = Ok (INT_MAX, [3; INT_MAX; 1])) ∧
  (0 ≤ 0 → 2 < len [3; INT_MAX; 1] → 2 - 0 + 1 ≤ Z.of_nat 3 →
   (INT_MAX ∉ window [3; INT_MAX; 1] 0 2 → 1 ≤ 4 ≤ 2 - 0 + 1 →
      ∃ v arr', kesimoMinimo 3 [3; INT_MAX; 1] 0 2 4 = Ok (v, arr') ∧ v ≠ INT_MAX) ∧
   (INT_MAX ∈ window [3; INT_MAX; 1] 0 2 →
    (∀ x, x ∈ window [3; INT_MAX; 1] 0 2 → x ≤ INT_MAX) →
      ∃ arr', kesimoMinimo 3 [3; INT_MAX; 1] 0 2 (2 - 0 + 1) = Ok (INT_MAX, arr'))).
Proof.
  apply (invalid_rank_sentinel 2 [3; INT_MAX; 1] 0 2 4); unfold INT_MIN, INT_MAX; lia.
Defined.

(** C4. For every window [l..r] within the array and every pivot value
    that occurs in it, [particionar] reorders the window and returns an
    index [p] of it such that every cell of the window before [p] is
    [<= pivo], every cell after [p] is [> pivo], and cell [p] holds
    [pivo]. *)
Theorem particionar_correct (arr : list Z) (l r pivo : Z) :
  0 ≤ l → r < len arr → occurs arr l r pivo →
  ∃ p arr',
    particionar arr l r pivo = Ok (p, arr') ∧
    l ≤ p ≤ r ∧
    reordered l r arr arr' ∧
    (∀ t, l ≤ t < p → Arr.sel arr' t ≤ pivo) ∧
    (∀ t, p < t ≤ r → Arr.sel arr' t > pivo) ∧
    Arr.sel arr' p = pivo.
Proof.
  intros Hl Hr Hocc.
  destruct (particionar_spec arr l r pivo)
    as (p & arr' & Hrun & Hp & Hre & Hsel & Hle & Hgt); [done..|].
  exists p, arr'. repeat split; try done; try lia.
  - apply Hre.
  - apply Hre.
  - intros t Ht. specialize (Hgt t Ht). lia.
Qed.

Lemma particionar_correct_witness :
  ∃ p arr',
    particionar [3; 9; 1; 5; 4] 0 4 4 = Ok (p, arr') ∧
    0 ≤ p ≤ 4 ∧
    reordered 0 4 [3; 9; 1; 5; 4] arr' ∧
    (∀ t, 0 ≤ t < p → Arr.sel arr' t ≤ 4) ∧
    (∀ t, p < t ≤ 4 → Arr.sel arr' t > 4) ∧
    Arr.sel arr' p = 4.
Proof.
  apply particionar_correct; [lia|simpl; lia|].
  exists 4. split; [lia|reflexivity].
Defined.

(** C5. A call of [kesimoMinimo] with a valid rank on a window of the
    array returns, for every budget of at least the length of the window;
    and each recursive call it makes is on a strictly shorter window: the
    body depends on its recursive calls only through the subproblems of
    [l..r], which are the [(n + 4) / 5 < n] medians or one side of a pivot
    position of [l..r], that position left out. *)
Theorem kesimoMinimo_terminates (arr : list Z) (l r k : Z) :
  0 ≤ l → r < len arr → 1 ≤ k ≤ r - l + 1 →
  (∀ budget, r - l + 1 ≤ Z.of_nat budget →
     ∃ v arr', kesimoMinimo budget arr l r k = Ok (v, arr')) ∧
  (∀ rec1 rec2,
     (∀ arr' l' r' k', subproblem l r l' r' → rec1 arr' l' r' k' = rec2 arr' l' r' k') →
     kesimoMinimo_body rec1 arr l r k = kesimoMinimo_body rec2 arr l r k) ∧
  (∀ l' r', subproblem l r l' r' →
     r' - l' + 1 < r - l + 1 ∧
     let n := r - l + 1 in
     (l' = 0 ∧ r' - l' + 1 = (n + 4) / 5 ∧ 5 * ((n + 4) / 5 - 1) < n ≤ 5 * ((n + 4) / 5)) ∨
     (∃ pos, l ≤ pos ≤ r ∧ l' = l ∧ r' = pos - 1) ∨
     (∃ pos, l ≤ pos ≤ r ∧ l' = pos + 1 ∧ r' = r)).
Proof.
  intros Hl Hr Hk. split; [|split].
  - intros budget Hbudget.
    destruct (kesimoMinimo_spec budget arr l r k) as (v & arr' & Hrun & _); [done..|].
    by exists v, arr'.
  - intros rec1 rec2. by apply kesimoMinimo_body_subproblems.
  - intros l' r' Hsub. split; [by apply subproblem_smaller|].
    destruct Hsub as [(-> & -> & Hg)|[Hsub|Hsub]]; [left; lia|by right; left|by right; right].
Qed.

Lemma kesimoMinimo_terminates_witness :
  (∀ budget, 4 - 0 + 1 ≤ Z.of_nat budget →
     ∃ v arr', kesimoMinimo budget [9; 7; 7; 7; 2] 0 4 3 = Ok (v, arr')) ∧
  (∀ rec1 rec2,
     (∀ arr' l' r' k', subproblem 0 4 l' r' → rec1 arr' l' r' k' = rec2 arr' l' r' k') →
     kesimoMinimo_body rec1 [9; 7; 7; 7; 2] 0 4 3 =
     kesimoMinimo_body rec2 [9; 7; 7; 7; 2] 0 4 3) ∧
  (∀ l' r', subproblem 0 4 l' r' →
     r' - l' + 1 < 4 - 0 + 1 ∧
     let n := 4 - 0 + 1 in
     (l' = 0 ∧ r' - l' + 1 = (n + 4) / 5 ∧ 5 * ((n + 4) / 5 - 1) < n ≤ 5 * ((n + 4) / 5)) ∨
     (∃ pos, 0 ≤ pos ≤ 4 ∧ l' = 0 ∧ r' = pos - 1) ∨
     (∃ pos, 0 ≤ pos ≤ 4 ∧ l' = pos + 1 ∧ r' = 4)).
Proof. apply (kesimoMinimo_terminates [9; 7; 7; 7; 2] 0 4 3); simpl; lia. Defined.

(** C6. In a call on a window [w] of [n] elements with a valid rank, the
    groups of 5 consecutive elements, the last one of [1..4] elements when
    [n] is not a multiple of 5, are sorted in place, and the value collected
    from each sorted group is its element at offset 2 for a full group and
    at offset [s / 2] for the last group of size [s < 5]: the medians are
    [medians_buffer w], [g = ceil (n / 5)] values.  The pivot the window is
    then partitioned around is that single median if [g = 1], and otherwise
    what [kesimoMinimo] returns on the medians over [0 .. g - 1] with rank
    [(g + 1) / 2]. *)
Theorem pivot_is_median_of_medians (budget : nat) (arr : list Z) (l r k : Z) :
  0 ≤ l → r < len arr → 1 ≤ k ≤ r - l + 1 →
  let n := r - l + 1 in
  let w := window arr l r in
  let g := (n + 4) / 5 in
  ∃ arr1,
    kesimoMinimo_medians arr l n = Ok (arr1, medians_buffer w, g) ∧
    len (medians_buffer w) = g ∧ 5 * (g - 1) < n ≤ 5 * g ∧
    (∀ t, 0 ≤ t < g →
       let lo := l + 5 * t in
       let s := Z.min 5 (n - 5 * t) in
       sorted_on arr1 lo (lo + s - 1) ∧
       window arr1 lo (lo + s - 1) ≡ₚ window arr lo (lo + s - 1) ∧
       Arr.sel (medians_buffer w) t = Arr.sel arr1 (lo + (if s =? 5 then 2 else s / 2))) ∧
    kesimoMinimo (S budget) arr l r k =
      (pivot ← (if g =? 1 then Ok (Arr.sel (medians_buffer w) 0)
                else fst <$> kesimoMinimo budget (medians_buffer w) 0 (g - 1) ((g + 1) / 2));
       '(pos, arr2) ← particionar arr1 l r pivot;
       kesimoMinimo_lado (kesimoMinimo budget) arr2 l r k pos).
Proof.
  intros Hl Hr Hk n w g.
  destruct (kesimoMinimo_medians_spec arr l n) as (arr1 & Hmed & Hre1 & Hgroups);
    [unfold n; lia..|].
  pose proof (reordered_length _ _ _ _ Hre1) as Hla1.
  replace (l + n - 1) with r in * by (unfold n; lia). fold w g in Hmed.
  assert (Hg : len (medians_buffer w) = g).
  { unfold w. rewrite length_medians_buffer, length_window by lia. unfold g, n.
    f_equal. lia. }
  exists arr1. split; [done|]. split; [done|]. split; [unfold g, n; lia|]. split.
  - intros t Ht. cbv zeta.
    destruct (Hgroups t Ht) as [Hso Hperm].
    replace (Z.min (l + 5 * t + 4) r) with (l + 5 * t + Z.min 5 (n - 5 * t) - 1) in *
      by (unfold n; lia).
    split; [done|]. split; [done|].
    unfold w. rewrite sel_medians_buffer by (rewrite length_window by lia; unfold g, n in *; lia).
    rewrite window_group by (unfold g, n in *; lia).
    replace (Z.min (l + 5 * t + 4) r) with (l + 5 * t + Z.min 5 (n - 5 * t) - 1)
      by (unfold n; lia).
    unfold group_median. rewrite length_window by (unfold g, n in *; lia).
    replace (Z.of_nat (Z.to_nat (l + 5 * t + Z.min 5 (n - 5 * t) - 1 + 1 - (l + 5 * t))))
      with (Z.min 5 (n - 5 * t)) by (unfold g, n in *; lia).
    rewrite (sort_unique (window arr1 (l + 5 * t) (l + 5 * t + Z.min 5 (n - 5 * t) - 1)));
      [|apply sorted_window; [lia|unfold g, n in *; lia|done]|by symmetry].
    apply sel_window; [lia|]. unfold g, n in *. zbool; lia.
  - rewrite (kesimoMinimo_unfold budget arr l r k arr1); [|done|exact Hmed|exact Hg].
    unfold pivot_of. fold w. cbv zeta. by rewrite Hg.
Qed.

Lemma pivot_is_median_of_medians_witness :
  let arr := [25; 21; 98; 100; 76; 22; 43; 60; 89; 42] in
  let n := 9 - 0 + 1 in
  let w := window arr 0 9 in
  let g := (n + 4) / 5 in
  ∃ arr1,
    kesimoMinimo_medians arr 0 n = Ok (arr1, medians_buffer w, g) ∧
    len (medians_buffer w) = g ∧ 5 * (g - 1) < n ≤ 5 * g ∧
    (∀ t, 0 ≤ t < g →
       let lo := 0 + 5 * t in
       let s := Z.min 5 (n - 5 * t) in
       sorted_on arr1 lo (lo + s - 1) ∧
       window arr1 lo (lo + s - 1) ≡ₚ window arr lo (lo + s - 1) ∧
       Arr.sel (medians_buffer w) t = Arr.sel arr1 (lo + (if s =? 5 then 2 else s / 2))) ∧
    kesimoMinimo 11 arr 0 9 5 =
      (pivot ← (if g =? 1 then Ok (Arr.sel (medians_buffer w) 0)
                else fst <$> kesimoMinimo 10 (medians_buffer w) 0 (g - 1) ((g + 1) / 2));
       '(pos, arr2) ← particionar arr1 0 9 pivot;
       kesimoMinimo_lado (kesimoMinimo 10) arr2 0 9 5 pos).
Proof.
  apply (pivot_is_median_of_medians 10 [25; 21; 98; 100; 76; 22; 43; 60; 89; 42] 0 9 5);
    simpl; lia.
Defined.

(** C7. In a call with a valid rank, once the partition has put the pivot at
    position [pos], with [rank_of_pivot = pos - l + 1]: if
    [rank_of_pivot = k] the call returns the pivot value; if
    [rank_of_pivot > k] it returns what [kesimoMinimo] returns on
    [l .. pos - 1] with the same [k]; otherwise what it returns on
    [pos + 1 .. r] with rank [k - rank_of_pivot]. *)
Theorem side_decision (budget : nat) (arr : list Z) (l r k : Z) :
  0 ≤ l → r < len arr → 1 ≤ k ≤ r - l + 1 → r - l + 1 ≤ Z.of_nat (S budget) →
  ∃ arr1 medians i pivot pos arr2,
    kesimoMinimo_medians arr l (r - l + 1) = Ok (arr1, medians, i) ∧
    kesimoMinimo_medOfMed (kesimoMinimo budget) medians i = Ok pivot ∧
    particionar arr1 l r pivot = Ok (pos, arr2) ∧
    let rank_of_pivot := pos - l + 1 in
    kesimoMinimo (S budget) arr l r k =
      if decide (rank_of_pivot = k) then Ok (pivot, arr2)
      else if decide (rank_of_pivot > k) then kesimoMinimo budget arr2 l (pos - 1) k
      else kesimoMinimo budget arr2 (pos + 1) r (k - rank_of_pivot).
Proof.
  intros Hl Hr Hk Hbudget.
  destruct (kesimoMinimo_steps budget arr l r k)
    as (arr1 & pivot & pos & arr2 & Hmed & Hpiv & Hpart & Hpos & Hlen2 & Hsel); [done..|].
  assert (Hg : len (medians_buffer (window arr l r)) = (r - l + 1 + 4) / 5).
  { rewrite length_medians_buffer, length_window by lia. f_equal. lia. }
  exists arr1, (medians_buffer (window arr l r)), ((r - l + 1 + 4) / 5), pivot, pos, arr2.
  split; [done|]. split; [by rewrite <- Hg, kesimoMinimo_medOfMed_pivot|].
  split; [done|]. cbv zeta.
  rewrite (kesimoMinimo_unfold budget arr l r k arr1) by done.
  rewrite Hpiv, bind_Ok, Hpart, bind_Ok. cbv beta iota.
  unfold kesimoMinimo_lado. zbool; repeat case_decide; try lia.
  - done.
  - by rewrite get_sel, bind_Ok, Hsel by lia.
  - f_equal. lia.
Qed.

Lemma side_decision_witness :
  ∃ arr1 medians i pivot pos arr2,
    kesimoMinimo_medians [9; 7; 7; 7; 2; 8] 0 (5 - 0 + 1) = Ok (arr1, medians, i) ∧
    kesimoMinimo_medOfMed (kesimoMinimo 5) medians i = Ok pivot ∧
    particionar arr1 0 5 pivot = Ok (pos, arr2) ∧
    let rank_of_pivot := pos - 0 + 1 in
    kesimoMinimo 6 [9; 7; 7; 7; 2; 8] 0 5 2 =
      if decide (rank_of_pivot = 2) then Ok (pivot, arr2)
      else if decide (rank_of_pivot > 2) then kesimoMinimo 5 arr2 0 (pos - 1) 2
      else kesimoMinimo 5 arr2 (pos + 1) 5 (2 - rank_of_pivot).
Proof. apply (side_decision 5 [9; 7; 7; 7; 2; 8] 0 5 2); simpl; lia. Defined.

(** C8. For every segment of [m >= 0] cells of an array, whatever [m],
    [insertionSort] reorders the segment in place into ascending order:
    afterwards the segment is sorted and a permutation of what it was, and
    no other cell has changed. *)
Theorem insertionSort_sorts (arr : list Z) (off m : Z) :
  0 ≤ off → 0 ≤ m → off + m ≤ len arr →
  ∃ arr',
    insertionSort arr off m = Ok arr' ∧
    Sorted Z.le (window arr' off (off + m - 1)) ∧
    window arr' off (off + m - 1) ≡ₚ window arr off (off + m - 1) ∧
    length arr' = length arr ∧
    ∀ t, t < off ∨ off + m ≤ t → Arr.get arr' t = Arr.get arr t.
Proof.
  intros Hoff Hm Hlen.
  destruct (insertionSort_spec arr off m) as (arr' & Hrun & Hre & Hso); [lia|].
  pose proof (reordered_length _ _ _ _ Hre) as Hla.
  exists arr'. split; [done|]. split; [|split; [|split; [done|]]].
  - apply StronglySorted_Sorted, sorted_window; [done|lia|done].
  - apply reordered_window; [done|lia|done].
  - intros t Ht. apply (get_reordered off (off + m - 1)); [done|lia].
Qed.

Lemma insertionSort_sorts_witness :
  ∃ arr',
    insertionSort [7; 3; 9; 1; 5; 4; 8; 0] 1 (0 + 6) = Ok arr' ∧
    Sorted Z.le (window arr' 1 (1 + 6 - 1)) ∧
    window arr' 1 (1 + 6 - 1) ≡ₚ window [7; 3; 9; 1; 5; 4; 8; 0] 1 (1 + 6 - 1) ∧
    length arr' = length [7; 3; 9; 1; 5; 4; 8; 0] ∧
    ∀ t, t < 1 ∨ 1 + 6 ≤ t → Arr.get arr' t = Arr.get [7; 3; 9; 1; 5; 4; 8; 0] t.
Proof. apply (insertionSort_sorts [7; 3; 9; 1; 5; 4; 8; 0] 1 6); simpl; lia. Defined.

(** C9. For every call [kesimoMinimo(arr, l, r, k)], with a valid or an
    invalid [k], on a window within the array when [k] is valid, the array
    the call leaves has the length of [arr] and the same cell as [arr] at
    every index [< l] or [> r]. *)
Theorem kesimoMinimo_frame (budget : nat) (arr : list Z) (l r k : Z) (v : Z) (arr' : list Z) :
  (1 ≤ k ≤ r - l + 1 → 0 ≤ l ∧ r < len arr) →
  kesimoMinimo budget arr l r k = Ok (v, arr') →
  length arr' = length arr ∧
  ∀ i, i < l ∨ r < i → Arr.get arr' i = Arr.get arr i.
Proof.
  intros Hwin Hrun.
  pose proof (kesimoMinimo_Ok_reordered budget arr l r k v arr' Hwin Hrun) as Hre.
  split; [by apply (reordered_length l r)|].
  intros i Hi. by apply (get_reordered l r).
Qed.

Lemma kesimoMinimo_frame_witness :
  length [0; 21; 22; 25; 42; 60; 43; 7] = length [0; 25; 21; 60; 42; 22; 43; 7] ∧
  ∀ i, i < 1 ∨ 5 < i →
    Arr.get [0; 21; 22; 25; 42; 60; 43; 7] i = Arr.get [0; 25; 21; 60; 42; 22; 43; 7] i.
Proof.
  apply (kesimoMinimo_frame 6 [0; 25; 21; 60; 42; 22; 43; 7] 1 5 3 25).
  - intros _. simpl. lia.
  - reflexivity.
Defined.

(** C10. For every [n] that is a power of two and all [n]-by-[n] matrices
    [A] and [B] (and an [n]-by-[n] matrix [C] to write to),
    [strassen(n, A, B, C)] returns and leaves in every cell [C[i][j]] the
    entry of the standard product, the sum over [t] of [A[i][t] * B[t][j]],
    as an [int]: reduced to 32 bits, and the sum itself whenever it is
    between [INT_MIN] and [INT_MAX]. *)
Theorem strassen_correct (p : nat) (budget : nat) (A B C : matrix) :
  let n := 2 ^ Z.of_nat p in
  (p < budget)%nat → shape n A → shape n B → shape n C →
  ∃ C',
    strassen budget n A B C = Ok C' ∧
    shape n C' ∧
    ∀ i j, 0 ≤ i < n → 0 ≤ j < n →
      Mat.cell C' i j = wrap (naive_product n A B i j) ∧
      (INT_MIN ≤ naive_product n A B i j ≤ INT_MAX →
       Mat.cell C' i j = naive_product n A B i j).
Proof.
  intros n Hbudget HA HB HC.
  destruct (strassen_spec p budget A B C) as (C' & Hrun & HC' & Hcells); [done..|].
  exists C'. split; [done|]. split; [done|]. intros i j Hi Hj.
  split; [by apply Hcells|]. intros Hsmall.
  rewrite Hcells by done. by apply wrap_small.
Qed.

Lemma strassen_correct_witness :
  let A := [[1; 2]; [3; 4]] in
  let B := [[5; 6]; [7; 8]] in
  let n := 2 ^ Z.of_nat 1 in
  ∃ C',
    strassen 2 n A B (alocarMatriz 2) = Ok C' ∧
    shape n C' ∧
    ∀ i j, 0 ≤ i < n → 0 ≤ j < n →
      Mat.cell C' i j = wrap (naive_product n A B i j) ∧
      (INT_MIN ≤ naive_product n A B i j ≤ INT_MAX →
       Mat.cell C' i j = naive_product n A B i j).
Proof.
  apply (strassen_correct 1 2 [[1; 2]; [3; 4]] [[5; 6]; [7; 8]] (alocarMatriz 2)).
  - lia.
  - split; [reflexivity|]. repeat constructor.
  - split; [reflexivity|]. repeat constructor.
  - split; [reflexivity|]. repeat constructor.
Defined.

(** * Further properties of the code *)

(** ** kesimo.c: [trocar], [particionar] and [insertionSort] *)

(** X1. [trocar] on two cells of the array exchanges what they hold and
    leaves every other cell and the length as they were; the same call once
    more gives the array back. *)
Theorem trocar_exchanges (arr : list Z) (i j : Z) :
  0 ≤ i < len arr → 0 ≤ j < len arr →
  ∃ arr',
    trocar arr i j = Ok arr' ∧
    length arr' = length arr ∧
    Arr.get arr' i = Arr.get arr j ∧
    Arr.get arr' j = Arr.get arr i ∧
    (∀ t, t ≠ i → t ≠ j → Arr.get arr' t = Arr.get arr t) ∧
    trocar arr' i j = Ok arr.
Proof.
  intros Hi Hj. exists (swap arr i j).
  pose proof (length_swap arr i j) as Hlen.
  split; [by apply trocar_swap|]. split; [done|].
  split; [|split; [|split]].
  - rewrite !get_sel by lia. f_equal. rewrite sel_swap by lia. sel_simpl; congruence.
  - rewrite !get_sel by lia. f_equal. rewrite sel_swap by lia. sel_simpl; congruence.
  - intros t Hti Htj. apply get_ext; [done|]. rewrite sel_swap by lia. sel_simpl; done.
  - rewrite trocar_swap by lia. f_equal. apply sel_ext; [by rewrite !length_swap|].
    intros t Ht. rewrite !length_swap in Ht.
    rewrite !sel_swap by (rewrite ?length_swap; lia). sel_simpl; congruence.
Qed.

Lemma trocar_exchanges_witness :
  ∃ arr',
    trocar [3; 9; 1; 5] 0 2 = Ok arr' ∧
    length arr' = length [3; 9; 1; 5] ∧
    Arr.get arr' 0 = Arr.get [3; 9; 1; 5] 2 ∧
    Arr.get arr' 2 = Arr.get [3; 9; 1; 5] 0 ∧
    (∀ t, t ≠ 0 → t ≠ 2 → Arr.get arr' t = Arr.get [3; 9; 1; 5] t) ∧
    trocar arr' 0 2 = Ok [3; 9; 1; 5].
Proof. apply (trocar_exchanges [3; 9; 1; 5] 0 2); simpl; lia. Defined.

(** X2. With a pivot that occurs in the window, the position
    [particionar] returns is fixed by the values alone: it is [l - 1] plus
    the number of cells of the window that are [<= pivo]. *)
Theorem particionar_position_counts (arr : list Z) (l r pivo : Z) :
  0 ≤ l → r < len arr → occurs arr l r pivo →
  ∃ p arr',
    particionar arr l r pivo = Ok (p, arr') ∧
    p = l + count_le pivo (window arr l r) - 1.
Proof. apply particionar_rank. Qed.

Lemma particionar_position_counts_witness :
  ∃ p arr',
    particionar [3; 9; 1; 5; 4] 0 4 4 = Ok (p, arr') ∧
    p = 0 + count_le 4 (window [3; 9; 1; 5; 4] 0 4) - 1.
Proof.
  apply (particionar_position_counts [3; 9; 1; 5; 4] 0 4 4); [lia|simpl; lia|].
  exists 4. split; [lia|reflexivity].
Defined.

(** X3. With a pivot that does not occur in a non-empty window [l..r],
    the search loop of [particionar] ends on [i = r + 1] and the first
    [trocar] works on [arr[r + 1]]: a read outside the array when [r] is its
    last index, and otherwise the cell after the window is overwritten with
    what [arr[r]] held. *)
Theorem particionar_without_pivot (arr : list Z) (l r pivo : Z) :
  0 ≤ l ≤ r → r < len arr → ¬ occurs arr l r pivo →
  (r + 1 = len arr → particionar arr l r pivo = Fault) ∧
  (r + 1 < len arr →
     ∃ p arr', particionar arr l r pivo = Ok (p, arr') ∧
               Arr.sel arr' (r + 1) = Arr.sel arr r).
Proof.
  intros Hl Hr Habs. unfold particionar.
  rewrite (particionar_find_absent (Z.to_nat (r + 1 - l)) arr l pivo); [|lia|lia|].
  2:{ intros t Ht Hsel. apply Habs. exists t. split; [lia|done]. }
  replace (l + Z.of_nat (Z.to_nat (r + 1 - l))) with (r + 1) by lia.
  rewrite bind_Ok. split.
  - intros Hend. unfold trocar. by rewrite (get_Fault arr (r + 1)) by lia.
  - intros Hin. rewrite trocar_swap, bind_Ok by lia.
    set (arr1 := swap arr (r + 1) r).
    destruct (for_range_inv
      (fun j '(a, i) =>
         l ≤ i ≤ j ∧ length a = length arr ∧ Arr.sel a (r + 1) = Arr.sel arr r)
      (fun j '(arr, i) =>
         aj ← Arr.get arr j;
         if aj <=? pivo then arr ← trocar arr i j; Ok (arr, i + 1) else Ok (arr, i))
      l (r - 1 + 1) (arr1, l)) as ([arr2 i] & -> & Hi & Hlen2 & Hsel2); [lia| |..].
    { split; [lia|]. split; [apply length_swap|].
      unfold arr1. rewrite sel_swap by lia. sel_simpl; done. }
    { intros j [a i] Hj (Hi & Hla & Hsel).
      rewrite get_sel, bind_Ok by lia. zbool.
      - rewrite trocar_swap, bind_Ok by lia. eexists. split; [done|].
        split; [lia|]. split; [by rewrite length_swap|].
        rewrite sel_swap by lia. sel_simpl; done.
      - eexists. split; [done|]. split; [lia|]. done. }
    rewrite bind_Ok, trocar_swap, bind_Ok by lia.
    eexists _, _. split; [done|]. rewrite sel_swap by lia. sel_simpl; done.
Qed.

Lemma particionar_without_pivot_witness :
  (1 + 1 = len [1; 2] → particionar [1; 2] 0 1 9 = Fault) ∧
  (1 + 1 < len [1; 2] →
     ∃ p arr', particionar [1; 2] 0 1 9 = Ok (p, arr') ∧
               Arr.sel arr' (1 + 1) = Arr.sel [1; 2] 1).
Proof.
  apply (particionar_without_pivot [1; 2] 0 1 9); [lia|simpl; lia|].
  intros (t & Ht & Hsel). assert (t = 0 ∨ t = 1) as [->| ->] by lia; discriminate.
Defined.

(** X4. [insertionSort] on a segment of the array, run a second time on
    what the first run left, changes nothing; and a segment that is already
    in ascending order is left as it is, with the whole array. *)
Theorem insertionSort_idempotent (arr : list Z) (off m : Z) :
  0 ≤ off → 0 ≤ m → off + m ≤ len arr →
  ∃ arr',
    insertionSort arr off m = Ok arr' ∧
    insertionSort arr' off m = Ok arr' ∧
    (sorted_on arr off (off + m - 1) → arr' = arr).
Proof.
  intros Hoff Hm Hlen.
  destruct (insertionSort_spec arr off m) as (arr' & Hrun & Hre & Hso); [lia|].
  pose proof (reordered_length _ _ _ _ Hre) as Hla.
  exists arr'. split; [done|]. split.
  - apply insertionSort_sorted_fixed; [done|done|lia|done].
  - intros Hsorted. rewrite insertionSort_sorted_fixed in Hrun by done. congruence.
Qed.

Lemma insertionSort_idempotent_witness :
  ∃ arr',
    insertionSort [7; 3; 9; 1; 5; 4] 1 4 = Ok arr' ∧
    insertionSort arr' 1 4 = Ok arr' ∧
    (sorted_on [7; 3; 9; 1; 5; 4] 1 (1 + 4 - 1) → arr' = [7; 3; 9; 1; 5; 4]).
Proof. apply (insertionSort_idempotent [7; 3; 9; 1; 5; 4] 1 4); simpl; lia. Defined.

(** X5. [insertionSort] on a segment of [n > 1] cells that is not within
    the array ([off < 0] or [off + n] past the end) accesses a cell outside
    the array. *)
Theorem insertionSort_out_of_bounds (arr : list Z) (off n : Z) :
  1 < n → off < 0 ∨ len arr < off + n → insertionSort arr off n = Fault.
Proof.
  intros Hn Hout. unfold insertionSort.
  destruct (Z.lt_ge_cases off 0) as [Hneg|Hpos].
  - (* the first turn reads [arr[off]] *)
    apply for_range_Fault; [done|].
    destruct (decide (0 ≤ off + 1 < len arr)) as [Hin|Hin].
    + rewrite get_sel, bind_Ok by done.
      replace (Z.to_nat (1 - 1 + 1)) with 1%nat by lia.
      rewrite insertionSort_while_unfold.
      replace (1 - 1 >=? 0) with true by done.
      by rewrite (get_Fault arr (off + (1 - 1))) by lia.
    + by rewrite get_Fault.
  - (* the turns within the array go through, the next one reads [arr[len arr]] *)
    set (mid := Z.max 1 (len arr - off)).
    rewrite (for_range_split _ 1 mid n) by lia.
    destruct (insertionSort_spec arr off mid) as (arr' & Hrun & Hre & _); [lia|].
    unfold insertionSort in Hrun. rewrite Hrun, bind_Ok.
    pose proof (reordered_length _ _ _ _ Hre) as Hlen.
    apply for_range_Fault; [lia|].
    by rewrite get_Fault by lia.
Qed.

Lemma insertionSort_out_of_bounds_witness :
  insertionSort [7; 3; 9; 1] 1 4 = Fault.
Proof. apply (insertionSort_out_of_bounds [7; 3; 9; 1] 1 4); [lia|]. right. simpl. lia. Defined.

(** ** kesimo.c: [kesimoMinimo] *)

(** X6. A call of [kesimoMinimo] with a valid rank leaves the value it
    returns in cell [l + k - 1], every cell of the window before it [<=]
    that value and every cell after it [>=] that value. *)
Theorem kesimoMinimo_leaves_partition (budget : nat) (arr : list Z) (l r k : Z) :
  0 ≤ l → r < len arr → 1 ≤ k ≤ r - l + 1 → r - l + 1 ≤ Z.of_nat budget →
  ∃ v arr',
    kesimoMinimo budget arr l r k = Ok (v, arr') ∧
    Arr.get arr' (l + k - 1) = Ok v ∧
    (∀ t, l ≤ t < l + k - 1 → Arr.sel arr' t ≤ v) ∧
    (∀ t, l + k - 1 < t ≤ r → v ≤ Arr.sel arr' t).
Proof.
  intros Hl Hr Hk Hbudget.
  destruct (kesimoMinimo_places budget arr l r k)
    as (v & arr' & Hrun & Hre & Hv & Hbefore & Hafter); [done..|].
  pose proof (reordered_length _ _ _ _ Hre) as Hlen.
  exists v, arr'. split; [done|]. split; [|done].
  rewrite get_sel by lia. by f_equal.
Qed.

Lemma kesimoMinimo_leaves_partition_witness :
  ∃ v arr',
    kesimoMinimo 10 [25; 21; 98; 100; 76; 22; 43; 60; 89; 42] 0 9 5 = Ok (v, arr') ∧
    Arr.get arr' (0 + 5 - 1) = Ok v ∧
    (∀ t, 0 ≤ t < 0 + 5 - 1 → Arr.sel arr' t ≤ v) ∧
    (∀ t, 0 + 5 - 1 < t ≤ 9 → v ≤ Arr.sel arr' t).
Proof.
  apply (kesimoMinimo_leaves_partition 10 [25; 21; 98; 100; 76; 22; 43; 60; 89; 42] 0 9 5);
    simpl; lia.
Defined.

(** X7. The value [kesimoMinimo] returns for a valid rank [k] is a value
    of the window, fewer than [k] values of the window are smaller than it,
    and at least [k] are smaller or equal. *)
Theorem kesimoMinimo_rank_by_counting (budget : nat) (arr : list Z) (l r k : Z) :
  0 ≤ l → r < len arr → 1 ≤ k ≤ r - l + 1 → r - l + 1 ≤ Z.of_nat budget →
  ∃ v arr',
    kesimoMinimo budget arr l r k = Ok (v, arr') ∧
    v ∈ window arr l r ∧
    count_lt v (window arr l r) < k ≤ count_le v (window arr l r).
Proof.
  intros Hl Hr Hk Hbudget.
  destruct (kesimoMinimo_places budget arr l r k)
    as (v & arr' & Hrun & Hre & Hv & Hbefore & Hafter); [done..|].
  pose proof (reordered_length _ _ _ _ Hre) as Hlen.
  pose proof (reordered_window l r arr arr' Hl Hr Hre) as Hperm.
  exists v, arr'. split; [done|]. split.
  { rewrite <- Hperm, <- Hv. apply window_elem; lia. }
  unfold count_lt, count_le.
  rewrite <- (count_perm (λ x, x < v) _ _ Hperm), <- (count_perm (λ x, x ≤ v) _ _ Hperm).
  rewrite (window_split arr' l r (l + k - 1)) by lia. rewrite Hv.
  rewrite !count_app, !count_cons, decide_False, decide_True by lia.
  rewrite (count_none (λ x, x < v) (window arr' (l + k - 1 + 1) r)),
    (count_all (λ x, x ≤ v) (window arr' l (l + k - 1 - 1))).
  - pose proof (count_bounds (λ x, x < v) (window arr' l (l + k - 1 - 1))).
    pose proof (count_bounds (λ x, x ≤ v) (window arr' (l + k - 1 + 1) r)).
    rewrite length_window in * by lia. lia.
  - intros x Hx. apply occurs_window in Hx as (t & Ht & <-); [|lia..]. apply Hbefore. lia.
  - intros x Hx. apply occurs_window in Hx as (t & Ht & <-); [|lia..].
    specialize (Hafter t). lia.
Qed.

Lemma kesimoMinimo_rank_by_counting_witness :
  ∃ v arr',
    kesimoMinimo 5 [9; 7; 7; 7; 2] 0 4 3 = Ok (v, arr') ∧
    v ∈ window [9; 7; 7; 7; 2] 0 4 ∧
    count_lt v (window [9; 7; 7; 7; 2] 0 4) < 3 ≤ count_le v (window [9; 7; 7; 7; 2] 0 4).
Proof. apply (kesimoMinimo_rank_by_counting 5 [9; 7; 7; 7; 2] 0 4 3); simpl; lia. Defined.

(** X8. On a non-empty window, rank 1 gives the least value of the window
    and rank [r - l + 1] the greatest. *)
Theorem kesimoMinimo_extremes (budget : nat) (arr : list Z) (l r : Z) :
  0 ≤ l ≤ r → r < len arr → r - l + 1 ≤ Z.of_nat budget →
  ∃ lowest arr1 highest arr2,
    kesimoMinimo budget arr l r 1 = Ok (lowest, arr1) ∧
    kesimoMinimo budget arr l r (r - l + 1) = Ok (highest, arr2) ∧
    lowest ∈ window arr l r ∧ highest ∈ window arr l r ∧
    ∀ x, x ∈ window arr l r → lowest ≤ x ≤ highest.
Proof.
  intros Hl Hr Hbudget.
  destruct (kesimoMinimo_places budget arr l r 1)
    as (lo & arr1 & Hrun1 & Hre1 & Hv1 & _ & Hafter); [lia..|].
  destruct (kesimoMinimo_places budget arr l r (r - l + 1))
    as (hi & arr2 & Hrun2 & Hre2 & Hv2 & Hbefore & _); [lia..|].
  pose proof (reordered_length _ _ _ _ Hre1) as Hlen1.
  pose proof (reordered_length _ _ _ _ Hre2) as Hlen2.
  pose proof (reordered_window l r arr arr1 ltac:(lia) Hr Hre1) as Hperm1.
  pose proof (reordered_window l r arr arr2 ltac:(lia) Hr Hre2) as Hperm2.
  exists lo, arr1, hi, arr2. split; [done|]. split; [done|].
  split; [|split].
  - rewrite <- Hperm1, <- Hv1. apply window_elem; lia.
  - rewrite <- Hperm2, <- Hv2. apply window_elem; lia.
  - intros x Hx. split.
    + rewrite <- Hperm1 in Hx. apply occurs_window in Hx as (t & Ht & <-); [|lia..].
      destruct (decide (t = l)) as [->|Hne].
      * rewrite <- Hv1. by replace (l + 1 - 1) with l by lia.
      * apply Hafter. lia.
    + rewrite <- Hperm2 in Hx. apply occurs_window in Hx as (t & Ht & <-); [|lia..].
      destruct (decide (t = r)) as [->|Hne].
      * rewrite <- Hv2. by replace (l + (r - l + 1) - 1) with r by lia.
      * apply Hbefore. lia.
Qed.

Lemma kesimoMinimo_extremes_witness :
  ∃ lowest arr1 highest arr2,
    kesimoMinimo 4 [0; 25; 21; 60; 42; 7] 1 4 1 = Ok (lowest, arr1) ∧
    kesimoMinimo 4 [0; 25; 21; 60; 42; 7] 1 4 (4 - 1 + 1) = Ok (highest, arr2) ∧
    lowest ∈ window [0; 25; 21; 60; 42; 7] 1 4 ∧
    highest ∈ window [0; 25; 21; 60; 42; 7] 1 4 ∧
    ∀ x, x ∈ window [0; 25; 21; 60; 42; 7] 1 4 → lowest ≤ x ≤ highest.
Proof. apply (kesimoMinimo_extremes 4 [0; 25; 21; 60; 42; 7] 1 4); simpl; lia. Defined.

(** X9. A second call of [kesimoMinimo] on the same window, run on the
    array as the first call left it, returns what it would have returned on
    the array as it was; and the values returned for ranks [k1 <= k2] are in
    that order. *)
Theorem kesimoMinimo_twice (budget : nat) (arr : list Z) (l r k1 k2 : Z) :
  0 ≤ l → r < len arr → 1 ≤ k1 ≤ r - l + 1 → 1 ≤ k2 ≤ r - l + 1 →
  r - l + 1 ≤ Z.of_nat budget →
  ∃ v1 arr1 v2 arr2,
    kesimoMinimo budget arr l r k1 = Ok (v1, arr1) ∧
    kesimoMinimo budget arr1 l r k2 = Ok (v2, arr2) ∧
    fst <$> kesimoMinimo budget arr l r k2 = Ok v2 ∧
    (k1 ≤ k2 → v1 ≤ v2).
Proof.
  intros Hl Hr Hk1 Hk2 Hbudget.
  destruct (kesimoMinimo_spec budget arr l r k1) as (v1 & arr1 & Hrun1 & Hre1 & Hv1); [done..|].
  pose proof (reordered_length _ _ _ _ Hre1) as Hlen1.
  destruct (kesimoMinimo_spec budget arr1 l r k2) as (v2 & arr2 & Hrun2 & Hre2 & Hv2);
    [lia..|].
  destruct (kesimoMinimo_spec budget arr l r k2) as (v2' & arr2' & Hrun2' & _ & Hv2'); [done..|].
  rewrite (kth_smallest_perm _ _ _ (reordered_window l r arr arr1 Hl Hr Hre1)) in Hv2.
  exists v1, arr1, v2, arr2. split; [done|]. split; [done|]. split.
  - rewrite Hrun2'. simpl. congruence.
  - intros Hle. subst v1 v2. apply kth_smallest_mono; [lia..|].
    rewrite length_window by lia. lia.
Qed.

Lemma kesimoMinimo_twice_witness :
  ∃ v1 arr1 v2 arr2,
    kesimoMinimo 6 [9; 7; 7; 7; 2; 8] 0 5 2 = Ok (v1, arr1) ∧
    kesimoMinimo 6 arr1 0 5 5 = Ok (v2, arr2) ∧
    fst <$> kesimoMinimo 6 [9; 7; 7; 7; 2; 8] 0 5 5 = Ok v2 ∧
    (2 ≤ 5 → v1 ≤ v2).
Proof. apply (kesimoMinimo_twice 6 [9; 7; 7; 7; 2; 8] 0 5 2 5); simpl; lia. Defined.

(** X10. In a call with a valid rank on [n] cells, [g = ceil (n / 5)]
    groups, the pivot that [particionar] receives has at least
    [3 * ceil (g / 2) - 2] cells of the window [<=] it and at least
    [3 * floor (g / 2) + 1] cells [>=] it.  The rank of the position
    returned is the number of cells [<=] the pivot, so at most
    [n - 3 * ceil (g / 2) + 2] cells are right of it; and when the values
    of the window are distinct, at most [n - 3 * floor (g / 2) - 1] cells
    are left of it. *)
Theorem kesimoMinimo_pivot_quality (budget : nat) (arr : list Z) (l r k : Z) :
  0 ≤ l → r < len arr → 1 ≤ k ≤ r - l + 1 → r - l + 1 ≤ Z.of_nat (S budget) →
  let n := r - l + 1 in
  let w := window arr l r in
  let g := (n + 4) / 5 in
  ∃ arr1 pivot pos arr2,
    kesimoMinimo_medians arr l n = Ok (arr1, medians_buffer w, g) ∧
    kesimoMinimo_medOfMed (kesimoMinimo budget) (medians_buffer w) g = Ok pivot ∧
    particionar arr1 l r pivot = Ok (pos, arr2) ∧
    3 * ((g + 1) / 2) - 2 ≤ count_le pivot w ∧
    3 * (g / 2) + 1 ≤ count_ge pivot w ∧
    pos - l + 1 = count_le pivot w ∧
    r - pos ≤ n - (3 * ((g + 1) / 2) - 2) ∧
    (NoDup w → pos - l ≤ n - (3 * (g / 2) + 1)).
Proof.
  intros Hl Hr Hk Hbudget n w g.
  destruct (kesimoMinimo_medians_spec arr l n) as (arr1 & Hmed & Hre1 & _); [unfold n; lia..|].
  replace (l + n - 1) with r in * by (unfold n; lia). fold w g in Hmed.
  pose proof (reordered_length _ _ _ _ Hre1) as Hla1.
  pose proof (reordered_window l r arr arr1 Hl Hr Hre1) as Hperm1. fold w in Hperm1.
  assert (Hlw : len w = n) by (unfold w; rewrite length_window by lia; unfold n; lia).
  assert (Hg : len (medians_buffer w) = g).
  { rewrite length_medians_buffer, Hlw. done. }
  assert (∃ pivot,
    kesimoMinimo_medOfMed (kesimoMinimo budget) (medians_buffer w) g = Ok pivot ∧
    (if g =? 1 then pivot = Arr.sel (medians_buffer w) 0
     else pivot = kth_smallest (medians_buffer w) ((g + 1) / 2)) ∧
    pivot ∈ medians_buffer w) as (pivot & Hpiv & Hpivot & Hin).
  { unfold kesimoMinimo_medOfMed. destruct (Z.eqb_spec g 1) as [H1|H1].
    - rewrite get_sel by lia. eexists. split; [done|]. split; [done|].
      apply list_elem_of_lookup. eexists. apply lookup_sel. lia.
    - destruct (kesimoMinimo_spec budget (medians_buffer w) 0 (g - 1) ((g + 1) ÷ 2))
        as (v & meds' & -> & _ & ->); [unfold g, n in *; lia..|].
      rewrite bind_Ok. eexists. split; [done|].
      replace (g - 1) with (len (medians_buffer w) - 1) by lia. rewrite window_all.
      replace ((g + 1) ÷ 2) with ((g + 1) / 2) by (unfold g, n in *; lia).
      split; [done|]. apply kth_smallest_elem. unfold g, n in *. lia. }
  assert (Hocc : occurs arr1 l r pivot).
  { apply occurs_window; [lia..|]. rewrite Hperm1. by apply medians_buffer_elem. }
  destruct (particionar_rank arr1 l r pivot) as (pos & arr2 & Hpart & Hposeq); [lia..|done|].
  replace (count_le pivot (window arr1 l r)) with (count_le pivot w) in Hposeq
    by (symmetry; by apply count_perm).
  destruct (pivot_count w pivot) as [Hle Hge]; [lia|by rewrite Hlw|].
  rewrite Hlw in Hle, Hge. fold g in Hle, Hge.
  exists arr1, pivot, pos, arr2.
  split; [done|]. split; [done|]. split; [done|]. split; [done|]. split; [done|].
  split; [lia|]. split; [lia|]. intros Hnodup.
  pose proof (count_le_ge pivot w). pose proof (count_eq_NoDup pivot w Hnodup). lia.
Qed.

Lemma kesimoMinimo_pivot_quality_witness :
  let arr := [25; 21; 98; 100; 76; 22; 43; 60; 89; 42; 7] in
  let n := 10 - 0 + 1 in
  let w := window arr 0 10 in
  let g := (n + 4) / 5 in
  ∃ arr1 pivot pos arr2,
    kesimoMinimo_medians arr 0 n = Ok (arr1, medians_buffer w, g) ∧
    kesimoMinimo_medOfMed (kesimoMinimo 10) (medians_buffer w) g = Ok pivot ∧
    particionar arr1 0 10 pivot = Ok (pos, arr2) ∧
    3 * ((g + 1) / 2) - 2 ≤ count_le pivot w ∧
    3 * (g / 2) + 1 ≤ count_ge pivot w ∧
    pos - 0 + 1 = count_le pivot w ∧
    10 - pos ≤ n - (3 * ((g + 1) / 2) - 2) ∧
    (NoDup w → pos - 0 ≤ n - (3 * (g / 2) + 1)).
Proof.
  apply (kesimoMinimo_pivot_quality 10 [25; 21; 98; 100; 76; 22; 43; 60; 89; 42; 7] 0 10 5);
    simpl; lia.
Defined.

(** X11. On a window of [n] cells that all hold the same value, the
    pivot always ends on the last cell, and a call with rank [k] nests more
    than [n - k] calls deep: a budget of [n - k] nested calls is not enough,
    whereas [n] always is, and the value returned is that value. *)
Theorem kesimoMinimo_equal_values_depth (budget : nat) (arr : list Z) (l r k c : Z) :
  0 ≤ l → r < len arr → 1 ≤ k ≤ r - l + 1 →
  (∀ t, l ≤ t ≤ r → Arr.sel arr t = c) →
  (Z.of_nat budget ≤ r - l + 1 - k → kesimoMinimo budget arr l r k = Exhausted) ∧
  (r - l + 1 ≤ Z.of_nat budget → fst <$> kesimoMinimo budget arr l r k = Ok c).
Proof.
  intros Hl Hr Hk Hconst. split.
  - by apply (kesimoMinimo_equal_values budget arr l r k c).
  - intros Hbudget.
    destruct (kesimoMinimo_spec budget arr l r k) as (v & arr' & -> & _ & ->); [done..|].
    simpl. f_equal.
    pose proof (kth_smallest_elem (window arr l r) k) as Hin.
    rewrite length_window in Hin by lia.
    apply occurs_window in Hin as (t & Ht & <-); [|done|done|lia].
    by apply Hconst.
Qed.

Lemma kesimoMinimo_equal_values_depth_witness :
  (Z.of_nat 3 ≤ 3 - 0 + 1 - 1 → kesimoMinimo 3 [4; 4; 4; 4] 0 3 1 = Exhausted) ∧
  (3 - 0 + 1 ≤ Z.of_nat 3 → fst <$> kesimoMinimo 3 [4; 4; 4; 4] 0 3 1 = Ok 4).
Proof.
  apply (kesimoMinimo_equal_values_depth 3 [4; 4; 4; 4] 0 3 1 4); [lia|simpl; lia|lia|].
  intros t Ht. assert (t = 0 ∨ t = 1 ∨ t = 2 ∨ t = 3) as [->|[->|[->| ->]]] by lia; reflexivity.
Defined.

(** ** The matrix program: [somarMatrizes] and [subtrairMatrizes] *)

(** X12. [somarMatrizes] and [subtrairMatrizes] may write to their first
    operand, as [strassen] has them do: the call leaves in it what a call
    with a destination of its own leaves there. *)
Theorem elementwise_in_place (h : Z) (A B C0 : matrix) :
  0 ≤ h → shape h A → shape h B → shape h C0 →
  (∃ C', somarMatrizes h Dest (Other B) A = Ok C' ∧
         somarMatrizes h (Other A) (Other B) C0 = Ok C') ∧
  (∃ C', subtrairMatrizes h Dest (Other B) A = Ok C' ∧
         subtrairMatrizes h (Other A) (Other B) C0 = Ok C').
Proof.
  intros Hh HA HB HC0. split.
  - destruct (somarMatrizes_spec h Dest (Other B) A) as (C1 & Hrun1 & Hs1 & Hc1); [done..|].
    destruct (somarMatrizes_spec h (Other A) (Other B) C0) as (C2 & Hrun2 & Hs2 & Hc2);
      [done..|].
    exists C1. split; [done|]. rewrite Hrun2. f_equal. apply (mat_ext h); [done..|].
    intros i j Hi Hj. by rewrite Hc1, Hc2.
  - destruct (subtrairMatrizes_spec h Dest (Other B) A) as (C1 & Hrun1 & Hs1 & Hc1); [done..|].
    destruct (subtrairMatrizes_spec h (Other A) (Other B) C0) as (C2 & Hrun2 & Hs2 & Hc2);
      [done..|].
    exists C1. split; [done|]. rewrite Hrun2. f_equal. apply (mat_ext h); [done..|].
    intros i j Hi Hj. by rewrite Hc1, Hc2.
Qed.

Lemma elementwise_in_place_witness :
  (∃ C', somarMatrizes 2 Dest (Other [[5; 6]; [7; 8]]) [[1; 2]; [3; 4]] = Ok C' ∧
         somarMatrizes 2 (Other [[1; 2]; [3; 4]]) (Other [[5; 6]; [7; 8]]) (alocarMatriz 2)
           = Ok C') ∧
  (∃ C', subtrairMatrizes 2 Dest (Other [[5; 6]; [7; 8]]) [[1; 2]; [3; 4]] = Ok C' ∧
         subtrairMatrizes 2 (Other [[1; 2]; [3; 4]]) (Other [[5; 6]; [7; 8]]) (alocarMatriz 2)
           = Ok C').
Proof.
  apply (elementwise_in_place 2 [[1; 2]; [3; 4]] [[5; 6]; [7; 8]] (alocarMatriz 2)).
  - lia.
  - split; [reflexivity|]. repeat constructor.
  - split; [reflexivity|]. repeat constructor.
  - split; [reflexivity|]. repeat constructor.
Defined.

(** X13. [subtrairMatrizes] undoes [somarMatrizes]: for [A] holding
    [int] values, [A + B] written to a fresh matrix and then [- B], in
    place or to another fresh matrix, gives [A] back, also when a sum went
    beyond 32 bits. *)
Theorem somar_subtrair_round_trip (h : Z) (A B : matrix) :
  0 ≤ h → shape h A → shape h B →
  (∀ i j, 0 ≤ i < h → 0 ≤ j < h → INT_MIN ≤ Mat.cell A i j ≤ INT_MAX) →
  ∃ S,
    somarMatrizes h (Other A) (Other B) (alocarMatriz h) = Ok S ∧
    subtrairMatrizes h Dest (Other B) S = Ok A ∧
    subtrairMatrizes h (Other S) (Other B) (alocarMatriz h) = Ok A.
Proof.
  intros Hh HA HB Hint.
  pose proof (shape_alocarMatriz h Hh) as Hzero.
  destruct (somarMatrizes_spec h (Other A) (Other B) (alocarMatriz h))
    as (S & HrunS & HsS & HcS); [done..|].
  exists S. split; [done|]. simpl operand_cell in HcS. split.
  - destruct (subtrairMatrizes_spec h Dest (Other B) S) as (D & -> & HsD & HcD); [done..|].
    f_equal. apply (mat_ext h); [done..|]. intros i j Hi Hj.
    rewrite HcD by done. simpl operand_cell. rewrite HcS by done.
    apply wrap_add_sub. by apply Hint.
  - destruct (subtrairMatrizes_spec h (Other S) (Other B) (alocarMatriz h))
      as (D & -> & HsD & HcD); [done..|].
    f_equal. apply (mat_ext h); [done..|]. intros i j Hi Hj.
    rewrite HcD by done. simpl operand_cell. rewrite HcS by done.
    apply wrap_add_sub. by apply Hint.
Qed.

Lemma somar_subtrair_round_trip_witness :
  ∃ S,
    somarMatrizes 2 (Other [[INT_MAX; 2]; [3; 4]]) (Other [[5; 6]; [7; 8]]) (alocarMatriz 2)
      = Ok S ∧
    subtrairMatrizes 2 Dest (Other [[5; 6]; [7; 8]]) S = Ok [[INT_MAX; 2]; [3; 4]] ∧
    subtrairMatrizes 2 (Other S) (Other [[5; 6]; [7; 8]]) (alocarMatriz 2)
      = Ok [[INT_MAX; 2]; [3; 4]].
Proof.
  apply (somar_subtrair_round_trip 2 [[INT_MAX; 2]; [3; 4]] [[5; 6]; [7; 8]]).
  - lia.
  - split; [reflexivity|]. repeat constructor.
  - split; [reflexivity|]. repeat constructor.
  - intros i j Hi Hj.
    assert (i = 0 ∨ i = 1) as [-> | ->] by lia;
      (assert (j = 0 ∨ j = 1) as [-> | ->] by lia); vm_compute; split; discriminate.
Defined.

(** ** The matrix program: [strassen] *)

(** X14. [strassen] with [n = 0] never returns: [novo_n] is 0 again, no
    loop runs, and the first recursive call is a call with [n = 0], for
    every budget of nested calls. *)
Theorem strassen_size_zero_never_returns (budget : nat) (A B C : matrix) :
  strassen budget 0 A B C = Exhausted.
Proof.
  revert A B C. induction budget as [|budget IH]; intros A B C; [done|].
  rewrite strassen_unfold. unfold strassen_body.
  change (0 =? 1) with false. change (0 ÷ 2) with 0. cbv zeta iota.
  unfold strassen_split, subtrairMatrizes.
  rewrite for_range_empty, bind_Ok by lia. cbv beta iota.
  rewrite for_range_empty, bind_Ok by lia.
  by rewrite IH.
Qed.

(** X15. [strassen] returns for every [n >= 1] and [n]-by-[n] matrices,
    power of two or not, within [log2 n + 1] nested calls, and [C] keeps its
    shape.  For an odd [n > 1] the last row and the last column of [C] are
    not written: they hold what they held before the call. *)
Theorem strassen_returns_for_any_size (budget : nat) (n : Z) (A B C : matrix) :
  1 ≤ n < 2 ^ Z.of_nat budget → shape n A → shape n B → shape n C →
  ∃ C',
    strassen budget n A B C = Ok C' ∧ shape n C' ∧
    (1 < n → Z.odd n = true →
     ∀ t, 0 ≤ t < n →
       Mat.cell C' (n - 1) t = Mat.cell C (n - 1) t ∧
       Mat.cell C' t (n - 1) = Mat.cell C t (n - 1)).
Proof.
  intros Hn HA HB HC.
  destruct (strassen_any_size budget n A B C) as (C' & Hrun & HsC' & Hframe); [done..|].
  exists C'. split; [done|]. split; [done|]. intros Hn1 Hodd t Ht.
  rewrite Z.odd_spec in Hodd. destruct Hodd as [m ->].
  split; apply Hframe; lia.
Qed.

Lemma strassen_returns_for_any_size_witness :
  let A := [[1; 2; 3]; [4; 5; 6]; [7; 8; 9]] in
  let C := [[0; 0; 11]; [0; 0; 12]; [13; 14; 15]] in
  ∃ C',
    strassen 2 3 A A C = Ok C' ∧ shape 3 C' ∧
    (1 < 3 → Z.odd 3 = true →
     ∀ t, 0 ≤ t < 3 →
       Mat.cell C' (3 - 1) t = Mat.cell C (3 - 1) t ∧
       Mat.cell C' t (3 - 1) = Mat.cell C t (3 - 1)).
Proof.
  apply (strassen_returns_for_any_size 2 3 [[1; 2; 3]; [4; 5; 6]; [7; 8; 9]]
           [[1; 2; 3]; [4; 5; 6]; [7; 8; 9]] [[0; 0; 11]; [0; 0; 12]; [13; 14; 15]]).
  - simpl. lia.
  - split; [reflexivity|]. repeat constructor.
  - split; [reflexivity|]. repeat constructor.
  - split; [reflexivity|]. repeat constructor.
Defined.

(** X16. For [n] a power of two, what [strassen] leaves in [C] does not
    depend on what [C] held. *)
Theorem strassen_ignores_destination (p : nat) (budget : nat) (A B C1 C2 : matrix) :
  let n := 2 ^ Z.of_nat p in
  (p < budget)%nat → shape n A → shape n B → shape n C1 → shape n C2 →
  ∃ C', strassen budget n A B C1 = Ok C' ∧ strassen budget n A B C2 = Ok C'.
Proof.
  intros n Hbudget HA HB HC1 HC2.
  destruct (strassen_spec p budget A B C1) as (C1' & Hrun1 & Hs1 & Hc1); [done..|].
  destruct (strassen_spec p budget A B C2) as (C2' & Hrun2 & Hs2 & Hc2); [done..|].
  exists C1'. split; [done|]. fold n in Hrun2. rewrite Hrun2. f_equal.
  apply (mat_ext n); [done..|]. intros i j Hi Hj. by rewrite Hc1, Hc2.
Qed.

Lemma strassen_ignores_destination_witness :
  let n := 2 ^ Z.of_nat 1 in
  ∃ C', strassen 2 n [[1; 2]; [3; 4]] [[5; 6]; [7; 8]] (alocarMatriz 2) = Ok C' ∧
        strassen 2 n [[1; 2]; [3; 4]] [[5; 6]; [7; 8]] [[9; 9]; [9; 9]] = Ok C'.
Proof.
  apply (strassen_ignores_destination 1 2 [[1; 2]; [3; 4]] [[5; 6]; [7; 8]]
           (alocarMatriz 2) [[9; 9]; [9; 9]]).
  - lia.
  - split; [reflexivity|]. repeat constructor.
  - split; [reflexivity|]. repeat constructor.
  - split; [reflexivity|]. repeat constructor.
  - split; [reflexivity|]. repeat constructor.
Defined.
